(** * Seymour-vertex classifier and interactive graph editor

  A shallow embedding of [interactive_graph_editor.py]: the Python
  classifier ([analyze_seymour_vertices], [get_seymour_vertices]), the
  data preparation of [create_interactive_graph_editor], and the
  JavaScript editor embedded in its HTML (classifier, renumbering, win
  check and the pointer-event handlers).

  Conventions.
  - Python integers and JavaScript numbers holding vertex ids and pixel
    coordinates are [Z].
  - A Python [set] is a [gset Z]; a Python [dict] iterated in insertion
    order is an association list.
  - JavaScript node objects live in a store keyed by object identity,
    because the handlers compare and mutate them through references
    kept across events ([startDragNode], [selectedNode]).
  - [undefined] in an edge endpoint is [None]. *)

From Stdlib Require Import ZArith List Bool Lia QArith.
From stdpp Require Import base numbers option list sorting gmap sets.

Local Open Scope Z_scope.

(** ** The graph as exchanged between Python and JavaScript *)

Module Json.

(** A node object [{id, x, y, is_seymour}]. *)
Record Node := { id : Z; x : Z; y : Z; is_seymour : bool }.

(** An edge object [{from, to}].  An endpoint is a number, or
    [undefined] once [renumberNodes] has looked up an id that is not a
    node's. *)
Record Edge := { from : option Z; to : option Z }.

(** [{nodes, edges, move_mode}]; [move_mode] may be absent in the
    detail of a [graphDataUpdate] event. *)
Record GraphData := {
  nodes : list Node;
  edges : list Edge;
  move_mode : option bool
}.

#[export] Instance Node_eq_dec : EqDecision Node.
Proof. solve_decision. Defined.
#[export] Instance Edge_eq_dec : EqDecision Edge.
Proof. solve_decision. Defined.
#[export] Instance Node_inhabited : Inhabited Node :=
  populate {| id := 0; x := 0; y := 0; is_seymour := false |}.

Definition with_id (i : Z) (n : Node) : Node :=
  {| id := i; x := x n; y := y n; is_seymour := is_seymour n |}.
Definition with_pos (px py : Z) (n : Node) : Node :=
  {| id := id n; x := px; y := py; is_seymour := is_seymour n |}.
Definition with_is_seymour (b : bool) (n : Node) : Node :=
  {| id := id n; x := x n; y := y n; is_seymour := b |}.

End Json.

(** ** networkx.DiGraph *)

Module Nx.

(** [_succ]: a dict of dicts, both insertion ordered.  A node maps to
    the list of its successors, in insertion order. *)
Definition DiGraph := list (Z * list Z).

Definition empty : DiGraph := [].

(** [G.nodes()] iterates the keys of the outer dict. *)
Definition nodes (G : DiGraph) : list Z := G.*1.

Definition has_node (G : DiGraph) (n : Z) : bool :=
  bool_decide (n ∈ nodes G).

(** [G.successors(n)] raises [NetworkXError] when [n] is not a node:
    [None]. *)
Fixpoint successors (G : DiGraph) (n : Z) : option (list Z) :=
  match G with
  | [] => None
  | (m, ss) :: G' => if decide (m = n) then Some ss else successors G' n
  end.

Definition has_edge (G : DiGraph) (u v : Z) : Prop :=
  ∃ ss, successors G u = Some ss ∧ v ∈ ss.

(** [add_node]: a new key is appended with no successors, an existing
    one is left alone. *)
Definition add_node (n : Z) (G : DiGraph) : DiGraph :=
  if has_node G n then G else G ++ [(n, [])].

(** [_succ[u][v] = datadict]: [v] is appended to the successors of [u]
    unless already there. *)
Fixpoint link (u v : Z) (G : DiGraph) : DiGraph :=
  match G with
  | [] => []
  | (m, ss) :: G' =>
      if decide (m = u)
      then (m, if bool_decide (v ∈ ss) then ss else ss ++ [v]) :: G'
      else (m, ss) :: link u v G'
  end.

(** [add_edge(u, v)]: both endpoints are added when missing, [u]
    first. *)
Definition add_edge (e : Z * Z) (G : DiGraph) : DiGraph :=
  link e.1 e.2 (add_node e.2 (add_node e.1 G)).

Definition add_nodes_from (ns : list Z) (G : DiGraph) : DiGraph :=
  foldl (λ g n, add_node n g) G ns.

Definition add_edges_from (es : list (Z * Z)) (G : DiGraph) : DiGraph :=
  foldl (λ g e, add_edge e g) G es.

(** The invariant every graph built by the operations above has: keys
    are distinct, successor lists are duplicate free, and every
    successor is itself a node. *)
Definition wf (G : DiGraph) : Prop :=
  NoDup (nodes G) ∧
  ∀ n ss, successors G n = Some ss → NoDup ss ∧ ∀ w, w ∈ ss → w ∈ nodes G.

End Nx.

(** ** The Python classifier *)

Module Py.

(** The per-vertex record stored in the [analysis] dict. *)
Record VertexAnalysis := {
  out_degree : nat;
  first_neighbors : gset Z;
  second_neighbors : gset Z;
  second_neighbor_count : nat;
  satisfies_property : bool;
  ratio : Q
}.

(** A Python dict: assignment to an existing key keeps its position,
    a new key goes last. *)
Fixpoint dict_set {V} (k : Z) (v : V) (d : list (Z * V)) : list (Z * V) :=
  match d with
  | [] => [(k, v)]
  | (k', v') :: d' =>
      if decide (k' = k) then (k, v) :: d' else (k', v') :: dict_set k v d'
  end.

Fixpoint dict_get {V} (d : list (Z * V)) (k : Z) : option V :=
  match d with
  | [] => None
  | (k', v) :: d' => if decide (k' = k) then Some v else dict_get d' k
  end.

(** The two nested loops collecting [raw_second_neighbors]. *)
Definition raw_second (G : Nx.DiGraph) (first : list Z) : option (gset Z) :=
  foldl (λ acc u,
           raw ← acc;
           ws ← Nx.successors G u;
           Some (foldl (λ s w, s ∪ {[ w ]}) raw ws))
        (Some ∅) first.

(** The body of the loop over [G.nodes()] for one vertex [v]. *)
Definition analyze_vertex (G : Nx.DiGraph) (v : Z) : option VertexAnalysis :=
  succs ← Nx.successors G v;
  let first_neighbors : gset Z := list_to_set succs in
  raw_second_neighbors ← raw_second G (elements first_neighbors);
  let second_neighbors := (raw_second_neighbors ∖ first_neighbors) ∖ {[ v ]} in
  Some {| out_degree := size first_neighbors;
          first_neighbors := first_neighbors;
          second_neighbors := second_neighbors;
          second_neighbor_count := size second_neighbors;
          satisfies_property :=
            bool_decide (size first_neighbors ≤ size second_neighbors)%nat;
          ratio := (inject_Z (Z.of_nat (size second_neighbors))
                    / inject_Z (Z.of_nat (Nat.max (size first_neighbors) 1)))%Q |}.

Definition analyze_seymour_vertices (G : Nx.DiGraph)
  : option (list (Z * VertexAnalysis)) :=
  foldl (λ acc v,
           analysis ← acc;
           a ← analyze_vertex G v;
           Some (dict_set v a analysis))
        (Some []) (Nx.nodes G).

(** The verdict on one vertex: [analysis[v]['satisfies_property']]. *)
Definition flagged (G : Nx.DiGraph) (v : Z) : bool :=
  match analyze_vertex G v with
  | Some a => satisfies_property a
  | None => false
  end.

(** What the loop over [G.nodes()] builds when no key repeats: the
    records of the vertices visited, in the order visited. *)
Definition records (G : Nx.DiGraph) (l : list Z)
    (d : list (Z * VertexAnalysis)) : Prop :=
  Forall2 (λ v kv, kv.1 = v ∧ analyze_vertex G v = Some kv.2) l d.

Definition get_seymour_vertices (G : Nx.DiGraph) : option (list Z) :=
  analysis ← analyze_seymour_vertices G;
  Some ((filter (λ kv, satisfies_property kv.2 = true) analysis).*1).

(** The input dict of [create_interactive_graph_editor], with the
    defaults of [graph_data.get] applied. *)
Record graph_data := {
  gd_nodes : list Z;
  gd_edges : list (Z * Z);
  gd_move_mode : bool
}.

(** [{'from': edge[0], 'to': edge[1]}] *)
Definition edge_json (edge : Z * Z) : Json.Edge :=
  {| Json.from := Some edge.1; Json.to := Some edge.2 |}.

(** The part of [create_interactive_graph_editor] that builds
    [graph_json]; the HTML around it is the editor of module [Js]. *)
Definition create_interactive_graph_editor (gd : graph_data)
  : option Json.GraphData :=
  let G := Nx.add_nodes_from (gd_nodes gd)
             (Nx.add_edges_from (gd_edges gd) Nx.empty) in
  seymour_vertices ← get_seymour_vertices G;
  let nodes :=
    imap (λ i node,
            {| Json.id := node;
               Json.x := 50 + (Z.of_nat i `mod` 5) * 150;
               Json.y := 50 + (Z.of_nat i `div` 5) * 120;
               Json.is_seymour := bool_decide (node ∈ seymour_vertices) |})
         (gd_nodes gd) in
  let edges := edge_json <$> gd_edges gd in
  Some {| Json.nodes := nodes; Json.edges := edges;
          Json.move_mode := Some (gd_move_mode gd) |}.

End Py.

(** ** The JavaScript editor *)

Module Js.
Import Json.

(** *** State

    [heap] holds the node objects by identity; [nodes] is
    [graphData.nodes], an array of references into it.  Edge objects
    are only ever referenced inside the handler that found them, so
    [edges] ([graphData.edges]) holds them by value and a reference to
    one is its index.  [sent] logs the [graphUpdate] events dispatched
    by [sendDataToStreamlit], oldest first; [winPrompts] counts the
    confirmation prompts scheduled by [checkForWin].  The status bar
    text, the cursor style, [dragStartTime] and the canvas drawing of
    [render] are not part of the model: nothing reads them back. *)
Record State := {
  heap : gmap nat Node;
  nodes : list nat;
  edges : list Edge;
  selectedNode : option nat;
  edgeMode : bool;
  sourceNode : option nat;
  moveMode : bool;
  lastMouseX : Z;
  lastMouseY : Z;
  dragStartX : Z;
  dragStartY : Z;
  isDragging : bool;
  startDragNode : option nat;
  sent : list (list Z * list (option Z * option Z));
  winPrompts : nat
}.

Definition set_heap h s :=
  Build_State h (nodes s) (edges s) (selectedNode s) (edgeMode s) (sourceNode s)
    (moveMode s) (lastMouseX s) (lastMouseY s) (dragStartX s) (dragStartY s)
    (isDragging s) (startDragNode s) (sent s) (winPrompts s).
Definition set_nodes ns s :=
  Build_State (heap s) ns (edges s) (selectedNode s) (edgeMode s) (sourceNode s)
    (moveMode s) (lastMouseX s) (lastMouseY s) (dragStartX s) (dragStartY s)
    (isDragging s) (startDragNode s) (sent s) (winPrompts s).
Definition set_edges es s :=
  Build_State (heap s) (nodes s) es (selectedNode s) (edgeMode s) (sourceNode s)
    (moveMode s) (lastMouseX s) (lastMouseY s) (dragStartX s) (dragStartY s)
    (isDragging s) (startDragNode s) (sent s) (winPrompts s).
Definition set_selectedNode r s :=
  Build_State (heap s) (nodes s) (edges s) r (edgeMode s) (sourceNode s)
    (moveMode s) (lastMouseX s) (lastMouseY s) (dragStartX s) (dragStartY s)
    (isDragging s) (startDragNode s) (sent s) (winPrompts s).
Definition set_edgeMode b s :=
  Build_State (heap s) (nodes s) (edges s) (selectedNode s) b (sourceNode s)
    (moveMode s) (lastMouseX s) (lastMouseY s) (dragStartX s) (dragStartY s)
    (isDragging s) (startDragNode s) (sent s) (winPrompts s).
Definition set_sourceNode r s :=
  Build_State (heap s) (nodes s) (edges s) (selectedNode s) (edgeMode s) r
    (moveMode s) (lastMouseX s) (lastMouseY s) (dragStartX s) (dragStartY s)
    (isDragging s) (startDragNode s) (sent s) (winPrompts s).
Definition set_moveMode b s :=
  Build_State (heap s) (nodes s) (edges s) (selectedNode s) (edgeMode s) (sourceNode s)
    b (lastMouseX s) (lastMouseY s) (dragStartX s) (dragStartY s)
    (isDragging s) (startDragNode s) (sent s) (winPrompts s).
Definition set_lastMouse mx my s :=
  Build_State (heap s) (nodes s) (edges s) (selectedNode s) (edgeMode s) (sourceNode s)
    (moveMode s) mx my (dragStartX s) (dragStartY s)
    (isDragging s) (startDragNode s) (sent s) (winPrompts s).
Definition set_dragStart mx my s :=
  Build_State (heap s) (nodes s) (edges s) (selectedNode s) (edgeMode s) (sourceNode s)
    (moveMode s) (lastMouseX s) (lastMouseY s) mx my
    (isDragging s) (startDragNode s) (sent s) (winPrompts s).
Definition set_isDragging b s :=
  Build_State (heap s) (nodes s) (edges s) (selectedNode s) (edgeMode s) (sourceNode s)
    (moveMode s) (lastMouseX s) (lastMouseY s) (dragStartX s) (dragStartY s)
    b (startDragNode s) (sent s) (winPrompts s).
Definition set_startDragNode r s :=
  Build_State (heap s) (nodes s) (edges s) (selectedNode s) (edgeMode s) (sourceNode s)
    (moveMode s) (lastMouseX s) (lastMouseY s) (dragStartX s) (dragStartY s)
    (isDragging s) r (sent s) (winPrompts s).
Definition set_sent l s :=
  Build_State (heap s) (nodes s) (edges s) (selectedNode s) (edgeMode s) (sourceNode s)
    (moveMode s) (lastMouseX s) (lastMouseY s) (dragStartX s) (dragStartY s)
    (isDragging s) (startDragNode s) l (winPrompts s).
Definition set_winPrompts n s :=
  Build_State (heap s) (nodes s) (edges s) (selectedNode s) (edgeMode s) (sourceNode s)
    (moveMode s) (lastMouseX s) (lastMouseY s) (dragStartX s) (dragStartY s)
    (isDragging s) (startDragNode s) (sent s) n.

(** Reading a node object through a reference. *)
Definition deref (s : State) (r : nat) : Node := heap s !!! r.

(** [graphData.nodes] and [graphData.edges] by value, as
    [sendDataToStreamlit] reports them. *)
Definition node_ids (s : State) : list Z := (λ r, id (deref s r)) <$> nodes s.
Definition edge_pairs (s : State) : list (option Z * option Z) :=
  (λ e, (from e, to e)) <$> edges s.

(** *** Array helpers *)

(** [Array.prototype.findIndex], [None] for [-1]. *)
Fixpoint findIndex {A} (f : A → bool) (l : list A) : option nat :=
  match l with
  | [] => None
  | a :: l' => if f a then Some 0%nat else S <$> findIndex f l'
  end.

(** [array.filter(e => e !== edge)] for the edge object at index
    [i]. *)
Definition remove_at {A} (i : nat) (l : list A) : list A := delete i l.

(** *** Hit testing

    [Math.sqrt(d2) <= r] is decided as [d2 <= r * r], in exact
    arithmetic. *)
Definition nodeRadius : Z := 25.

Definition within (mx my : Z) (n : Node) : bool :=
  bool_decide ((mx - x n) ^ 2 + (my - y n) ^ 2 ≤ nodeRadius * nodeRadius).

Definition getNodeAt (s : State) (mx my : Z) : option nat :=
  find (λ r, within mx my (deref s r)) (nodes s).

(** The square of [distanceToLine]. *)
Definition distanceToLineSq (px py x1 y1 x2 y2 : Q) : Q :=
  let A := (px - x1)%Q in
  let B := (py - y1)%Q in
  let C := (x2 - x1)%Q in
  let D := (y2 - y1)%Q in
  let dot := (A * C + B * D)%Q in
  let lenSq := (C * C + D * D)%Q in
  if Qeq_bool lenSq 0 then (A * A + B * B)%Q
  else
    let param := (dot / lenSq)%Q in
    let '(xx, yy) :=
      if negb (Qle_bool 0 param) then (x1, y1)
      else if negb (Qle_bool param 1) then (x2, y2)
      else ((x1 + param * C)%Q, (y1 + param * D)%Q) in
    let dx := (px - xx)%Q in
    let dy := (py - yy)%Q in
    (dx * dx + dy * dy)%Q.

Definition findNodeById (s : State) (i : option Z) : option nat :=
  find (λ r, bool_decide (Some (id (deref s r)) = i)) (nodes s).

Definition edgeHit (s : State) (mx my : Z) (e : Edge) : bool :=
  match findNodeById s (from e), findNodeById s (to e) with
  | Some f, Some t =>
      Qle_bool
        (distanceToLineSq (inject_Z mx) (inject_Z my)
           (inject_Z (x (deref s f))) (inject_Z (y (deref s f)))
           (inject_Z (x (deref s t))) (inject_Z (y (deref s t))))
        (inject_Z (10 * 10))
  | _, _ => false
  end.

Definition getEdgeAt (s : State) (mx my : Z) : option nat :=
  findIndex (edgeHit s mx my) (edges s).

(** [render] only draws. *)
Definition render (s : State) : State := s.

(** *** The in-canvas classifier *)

(** The body of the loop of [updateSeymourStatus] for the node with id
    [nid]: the lengths of the arrays [firstNeighbors] and
    [secondNeighbors] are compared. *)
Definition firstNeighbors (es : list Edge) (nid : Z) : list (option Z) :=
  let outEdges := filter (λ e, from e = Some nid) es in
  to <$> outEdges.

Definition secondNeighbors (es : list Edge) (nid : Z) : list (option Z) :=
  let first := firstNeighbors es nid in
  foldl (λ acc neighbor,
           let secondEdges := filter (λ e, from e = neighbor) es in
           foldl (λ acc edge,
                    if bool_decide (to edge ≠ Some nid)
                       && negb (bool_decide (to edge ∈ first))
                    then if negb (bool_decide (to edge ∈ acc))
                         then acc ++ [to edge] else acc
                    else acc)
                 acc secondEdges)
        [] first.

Definition classify (es : list Edge) (nid : Z) : bool :=
  bool_decide (length (firstNeighbors es nid) ≤ length (secondNeighbors es nid))%nat.

(** [node.is_seymour = ...] for the node object [r]. *)
Definition mark (es : list Edge) (h : gmap nat Node) (r : nat) : gmap nat Node :=
  let node := h !!! r in
  <[ r := with_is_seymour (classify es (id node)) node ]> h.

(** [updateSeymourStatus]: every node object of [graphData.nodes] gets
    its [is_seymour] field reassigned, in array order. *)
Definition updateSeymourStatus (s : State) : State :=
  set_heap (foldl (mark (edges s)) (heap s) (nodes s)) s.

(** *** Renumbering *)

(** [[...graphData.nodes].sort((a, b) => a.id - b.id)]: a stable sort
    of the references by the id of the object they point to. *)
Fixpoint insert_by_id (h : gmap nat Node) (r : nat) (l : list nat) : list nat :=
  match l with
  | [] => [r]
  | r' :: l' =>
      if bool_decide (id (h !!! r) ≤ id (h !!! r'))
      then r :: l else r' :: insert_by_id h r l'
  end.

Definition sort_by_id (h : gmap nat Node) (l : list nat) : list nat :=
  foldr (insert_by_id h) [] l.

(** [idMapping]: old id to position in [sortedNodes]; a later
    assignment to the same key replaces an earlier one. *)
Definition idMapping_of (h : gmap nat Node) (sortedNodes : list nat) : gmap Z Z :=
  foldl (λ m ir, <[ id (h !!! ir.2) := Z.of_nat ir.1 ]> m) ∅
        (imap (λ index node, (index, node)) sortedNodes).

(** [idMapping[k]] for an edge endpoint [k]; a missing key, or the key
    [undefined], reads [undefined]. *)
Definition idMapping_get (m : gmap Z Z) (k : option Z) : option Z :=
  k ≫= (m !!.).

(** [node.id = idMapping[node.id]] for the node object [r].  Every id
    of a node of [graphData.nodes] is a key of [idMapping] when that
    node is reached (the array holds distinct objects), so the
    assignment never stores [undefined]; the model keeps the id
    there. *)
Definition relabel (idMapping : gmap Z Z) (h : gmap nat Node) (r : nat)
  : gmap nat Node :=
  let node := h !!! r in
  <[ r := with_id (default (id node) (idMapping !! id node)) node ]> h.

Definition renumberNodes (s : State) : State :=
  let sortedNodes := sort_by_id (heap s) (nodes s) in
  let idMapping := idMapping_of (heap s) sortedNodes in
  let h := foldl (relabel idMapping) (heap s) (nodes s) in
  let es :=
    (λ edge, {| from := idMapping_get idMapping (from edge);
                to := idMapping_get idMapping (to edge) |}) <$> edges s in
  set_edges es (set_heap h s).

(** *** Win check and reporting *)

(** [checkForWin]: returns whether it scheduled the confirmation
    prompt (the "solved" signal), and the state after. *)
Definition checkForWin (s : State) : State * bool :=
  let seymourCount :=
    length (filter (λ r, is_seymour (deref s r) = true) (nodes s)) in
  if bool_decide (seymourCount = 0%nat) && bool_decide (0 < length (nodes s))%nat
  then (set_winPrompts (S (winPrompts s)) s, true)
  else (s, false).

Definition sendDataToStreamlit (s : State) : State :=
  set_sent (sent s ++ [(node_ids s, edge_pairs s)]) s.

(** *** Event handlers *)

Definition DRAG_THRESHOLD : Z := 10.

(** The deletion of a vertex shared by the right-button branch of
    [mousedown] and by [contextmenu]: the edges touching the id of
    [node] go, then the object [node] itself. *)
Definition removeNode (node : nat) (s : State) : State :=
  let nid := id (deref s node) in
  let s := set_edges
             (filter (λ e, from e ≠ Some nid ∧ to e ≠ Some nid) (edges s)) s in
  set_nodes (filter (λ n, n ≠ node) (nodes s)) s.

Definition removeEdge (edge : nat) (s : State) : State :=
  set_edges (remove_at edge (edges s)) s.

Definition mousedown (button mx my : Z) (s : State) : State :=
  let s := set_lastMouse mx my s in
  let node := getNodeAt s mx my in
  if decide (button = 0) then
    match node with
    | Some n =>
        set_dragStart mx my
          (set_isDragging false
             (set_startDragNode (Some n) (set_selectedNode (Some n) s)))
    | None =>
        set_isDragging false (set_startDragNode None (set_selectedNode None s))
    end
  else if decide (button = 2) then
    let node := getNodeAt s mx my in
    let edge := getEdgeAt s mx my in
    match node, edge with
    | Some n, _ =>
        render (sendDataToStreamlit (updateSeymourStatus (removeNode n s)))
    | None, Some e =>
        render (sendDataToStreamlit (updateSeymourStatus (removeEdge e s)))
    | None, None => s
    end
  else s.

Definition mousemove (mx my : Z) (s : State) : State :=
  let s := set_lastMouse mx my s in
  let s :=
    match startDragNode s with
    | Some n =>
        if negb (isDragging s)
           && bool_decide (DRAG_THRESHOLD * DRAG_THRESHOLD
                           < (mx - dragStartX s) ^ 2 + (my - dragStartY s) ^ 2)
        then
          let s := set_isDragging true s in
          if moveMode s then set_edgeMode false s
          else set_sourceNode (Some n) (set_edgeMode true s)
        else s
    | None => s
    end in
  match startDragNode s with
  | Some n =>
      if isDragging s then
        if moveMode s
        then render (set_heap (<[ n := with_pos mx my (deref s n) ]> (heap s)) s)
        else render s
      else s
  | None => s
  end.

(** The connect branch of [mouseup], for a drag from [start] released
    on [target]. *)
Definition connect (start target : nat) (s : State) : State :=
  let a := id (deref s start) in
  let b := id (deref s target) in
  let existingEdge :=
    findIndex (λ edge, bool_decide (from edge = Some a ∧ to edge = Some b)) (edges s) in
  let reverseEdge :=
    findIndex (λ edge, bool_decide (from edge = Some b ∧ to edge = Some a)) (edges s) in
  match existingEdge with
  | None =>
      match reverseEdge with
      | Some i =>
          let s := set_edges (<[ i := {| from := Some a; to := Some b |} ]> (edges s)) s in
          (checkForWin (sendDataToStreamlit (updateSeymourStatus s))).1
      | None =>
          let s := set_edges (edges s ++ [ {| from := Some a; to := Some b |} ]) s in
          (checkForWin (sendDataToStreamlit (updateSeymourStatus s))).1
      end
  | Some _ => s
  end.

Definition resetDrag (s : State) : State :=
  render
    (set_selectedNode None
       (set_sourceNode None
          (set_edgeMode false (set_startDragNode None (set_isDragging false s))))).

Definition mouseup (mx my : Z) (s : State) : State :=
  let targetNode := getNodeAt s mx my in
  let s :=
    match startDragNode s with
    | Some start =>
        if isDragging s then
          if moveMode s then sendDataToStreamlit s
          else
            match targetNode with
            | Some target =>
                if decide (target ≠ start) then connect start target s else s
            | None => s
            end
        else s
    | None => s
    end in
  resetDrag s.

(** [Math.max(...graphData.nodes.map(n => n.id), -1) + 1]. *)
Definition newId (s : State) : Z := foldr Z.max (-1) (node_ids s) + 1.

(** A reference no object of the store has. *)
Definition fresh_ref (h : gmap nat Node) : nat := fresh (dom h).

Definition dblclick (mx my : Z) (s : State) : State :=
  match getNodeAt s mx my with
  | None =>
      let r := fresh_ref (heap s) in
      let node := {| id := newId s; x := mx; y := my; is_seymour := false |} in
      let s := set_nodes (nodes s ++ [r]) (set_heap (<[ r := node ]> (heap s)) s) in
      render (sendDataToStreamlit (updateSeymourStatus s))
  | Some _ => s
  end.

Definition contextmenu (mx my : Z) (s : State) : State :=
  let node := getNodeAt s mx my in
  let edge := getEdgeAt s mx my in
  match node, edge with
  | Some n, _ =>
      let s := renumberNodes (removeNode n s) in
      (checkForWin (render (sendDataToStreamlit (updateSeymourStatus s)))).1
  | None, Some e =>
      let s := removeEdge e s in
      (checkForWin (render (sendDataToStreamlit (updateSeymourStatus s)))).1
  | None, None => s
  end.

Definition toggleMoveMode (s : State) : State :=
  render (set_moveMode (negb (moveMode s)) s).

(** Storing the objects of a parsed [graphData]: each node object gets
    a reference of its own. *)
Definition alloc_node (hr : gmap nat Node * list nat) (n : Node)
  : gmap nat Node * list nat :=
  let r := fresh_ref hr.1 in (<[ r := n ]> hr.1, hr.2 ++ [r]).

Definition alloc (ns : list Node) (h : gmap nat Node) : gmap nat Node * list nat :=
  foldl alloc_node (h, []) ns.

(** The [graphDataUpdate] listener. *)
Definition graphDataUpdate (detail : GraphData) (s : State) : State :=
  let '(h, refs) := alloc (Json.nodes detail) (heap s) in
  let s := set_edges (Json.edges detail) (set_nodes refs (set_heap h s)) in
  let s :=
    match move_mode detail with
    | Some b => set_moveMode b s
    | None => s
    end in
  render (updateSeymourStatus s).

(** The script's top level: the declarations, then
    [updateSeymourStatus(); render();]. *)
Definition init (graph_json : GraphData) : State :=
  let '(h, refs) := alloc (Json.nodes graph_json) ∅ in
  render
    (updateSeymourStatus
       {| heap := h; nodes := refs; edges := Json.edges graph_json;
          selectedNode := None; edgeMode := false; sourceNode := None;
          moveMode := default false (move_mode graph_json);
          lastMouseX := 0; lastMouseY := 0; dragStartX := 0; dragStartY := 0;
          isDragging := false; startDragNode := None;
          sent := []; winPrompts := 0 |}).

(** *** Events *)

Inductive Event :=
| MouseDown (button mx my : Z)
| MouseMove (mx my : Z)
| MouseUp (mx my : Z)
| DblClick (mx my : Z)
| ContextMenu (mx my : Z)
| ToggleMoveMode
| GraphDataUpdate (detail : GraphData).

Definition step (s : State) (e : Event) : State :=
  match e with
  | MouseDown button mx my => mousedown button mx my s
  | MouseMove mx my => mousemove mx my s
  | MouseUp mx my => mouseup mx my s
  | DblClick mx my => dblclick mx my s
  | ContextMenu mx my => contextmenu mx my s
  | ToggleMoveMode => toggleMoveMode s
  | GraphDataUpdate detail => graphDataUpdate detail s
  end.

Definition run (es : list Event) (s : State) : State := foldl step s es.

End Js.

(** ** The Streamlit page

    The handlers of [main] that edit the graph kept in
    [st.session_state]. *)

Module App.

Record session_state := {
  graph_nodes : list Z;
  graph_edges : list (Z * Z);
  moves_count : Z;
  move_mode : bool
}.

(** [sorted(...)] of a list of integers. *)
Definition sorted (l : list Z) : list Z := merge_sort Z.le l.

(** [old_to_new]: every value of the sorted list mapped to its index;
    a later assignment to the same key replaces an earlier one. *)
Definition old_to_new_of (l : list Z) : gmap Z Z :=
  foldl (λ m io, <[ io.2 := Z.of_nat io.1 ]> m) ∅
        (imap (λ idx old_node, (idx, old_node)) l).

(** [(old_to_new[edge[0]], old_to_new[edge[1]])]; [None] is the
    [KeyError] of a missing key. *)
Definition renumber_edge (old_to_new : gmap Z Z) (edge : Z * Z) : option (Z * Z) :=
  a ← old_to_new !! edge.1;
  b ← old_to_new !! edge.2;
  Some (a, b).

(** The handler of the delete button of [node].  An exception leaves
    the handler before [moves_count] is touched: [None]. *)
Definition delete_node (node : Z) (st : session_state) : option session_state :=
  let edges1 := filter (λ edge, edge.1 ≠ node ∧ edge.2 ≠ node) (graph_edges st) in
  let nodes1 := filter (λ n, n ≠ node) (graph_nodes st) in
  let old_to_new := old_to_new_of (sorted nodes1) in
  let nodes2 := seqZ 0 (Z.of_nat (length nodes1)) in
  edges2 ← mapM (renumber_edge old_to_new) edges1;
  Some {| graph_nodes := nodes2; graph_edges := edges2;
          moves_count := moves_count st + 1; move_mode := move_mode st |}.

(** The handler of the clear button. *)
Definition clear_graph (st : session_state) : session_state :=
  {| graph_nodes := []; graph_edges := [];
     moves_count := moves_count st + 1; move_mode := move_mode st |}.

(** The pairs [(i, j)] visited by
    [for i in range(6): for j in range(i + 1, 6)]. *)
Definition pairs (n : Z) : list (Z * Z) :=
  i ← seqZ 0 n; (λ j, (i, j)) <$> seqZ (i + 1) (n - (i + 1)).

(** The body of the two loops of the random-graph button.
    [random.random()] reads the next element of a sequence of draws;
    [k] counts the draws made so far. *)
Definition random_step (draws : nat → Q) (acc : nat * list (Z * Z)) (ij : Z * Z)
  : nat * list (Z * Z) :=
  let '(k, edges) := acc in
  if negb (Qle_bool (3 # 10) (draws k)) then
    if negb (Qle_bool (5 # 10) (draws (S k)))
    then (S (S k), edges ++ [(ij.1, ij.2)])
    else (S (S k), edges ++ [(ij.2, ij.1)])
  else (S k, edges).

Definition random_edges (draws : nat → Q) : list (Z * Z) :=
  (foldl (random_step draws) (0%nat, []) (pairs 6)).2.

(** The handler of the random-graph button. *)
Definition random_graph (draws : nat → Q) (st : session_state) : session_state :=
  {| graph_nodes := seqZ 0 6; graph_edges := random_edges draws;
     moves_count := moves_count st + 1; move_mode := move_mode st |}.





End App.

(** ** The game page

    The controls of [main] in [seymour_graph_game.py] that edit the
    [networkx] graph kept in [st.session_state], and the status check
    of the pass that follows each of them. *)

Module Game.

(** [G.remove_node(n)]: [NetworkXError] when [n] is not a node;
    otherwise [n] goes, with every edge out of it and into it. *)
Definition remove_node (n : Z) (G : Nx.DiGraph) : option Nx.DiGraph :=
  if Nx.has_node G n
  then Some ((λ p : Z * list Z, (p.1, filter (λ w, w ≠ n) p.2))
               <$> filter (λ p : Z * list Z, p.1 ≠ n) G)
  else None.

(** [del self._succ[u][v]] *)
Fixpoint unlink (u v : Z) (G : Nx.DiGraph) : Nx.DiGraph :=
  match G with
  | [] => []
  | (m, ss) :: G' =>
      if decide (m = u)
      then (m, filter (λ w, w ≠ v) ss) :: G'
      else (m, ss) :: unlink u v G'
  end.

(** [G.remove_edge(u, v)]: [NetworkXError] when the edge is not
    there. *)
Definition remove_edge (u v : Z) (G : Nx.DiGraph) : option Nx.DiGraph :=
  match Nx.successors G u with
  | Some ss => if bool_decide (v ∈ ss) then Some (unlink u v G) else None
  | None => None
  end.

Record session_state := {
  graph : Nx.DiGraph;
  game_mode : bool;
  moves_count : Z;
  game_won : bool
}.

(** [initialize_session_state] on a fresh session. *)
Definition initial : session_state :=
  {| graph := Nx.add_edges_from [(0, 1); (1, 2); (2, 0); (1, 3)] Nx.empty;
     game_mode := false; moves_count := 0; game_won := false |}.

Definition set_graph (G : Nx.DiGraph) (st : session_state) : session_state :=
  {| graph := G; game_mode := game_mode st;
     moves_count := moves_count st; game_won := game_won st |}.

(** [if st.session_state.game_mode: st.session_state.moves_count += 1] *)
Definition count_move (st : session_state) : session_state :=
  if game_mode st
  then {| graph := graph st; game_mode := game_mode st;
          moves_count := moves_count st + 1; game_won := game_won st |}
  else st.

(** [max(G.nodes()) + 1 if G.nodes() else 0] *)
Definition new_node (G : Nx.DiGraph) : Z :=
  match Nx.nodes G with
  | [] => 0
  | n :: ns => foldl Z.max n ns + 1
  end.

(** The body of the two loops of the random-graph button;
    [np.random.random()] reads the next element of a sequence of
    draws. *)
Definition random_step (draws : nat → Q) (acc : nat * Nx.DiGraph) (ij : Z * Z)
  : nat * Nx.DiGraph :=
  let '(k, G) := acc in
  if negb (Qle_bool (3 # 10) (draws k)) then
    if negb (Qle_bool (5 # 10) (draws (S k)))
    then (S (S k), Nx.add_edge (ij.1, ij.2) G)
    else (S (S k), Nx.add_edge (ij.2, ij.1) G)
  else (S k, G).

Definition random_graph (draws : nat → Q) : Nx.DiGraph :=
  (foldl (random_step draws) (0%nat, Nx.add_nodes_from (seqZ 0 6) Nx.empty)
         (App.pairs 6)).2.

(** The controls: the game-mode checkbox, the reset button (shown in
    game mode only; outside it nothing happens), the quick actions, and
    the node and edge controls of the sidebar. *)
Inductive Control :=
| GameMode (b : bool)
| ResetGame
| AddNode
| RandomGraph (draws : nat → Q)
| ClearAll
| DeleteNode (node_to_remove : Z)
| AddEdge (from_node to_node : Z)
| DeleteEdge (u v : Z).

Definition control (c : Control) (st : session_state) : option session_state :=
  match c with
  | GameMode b =>
      Some {| graph := graph st; game_mode := b;
              moves_count := moves_count st; game_won := game_won st |}
  | ResetGame =>
      if game_mode st
      then Some {| graph := graph st; game_mode := game_mode st;
                   moves_count := 0; game_won := false |}
      else Some st
  | AddNode =>
      Some (count_move (set_graph (Nx.add_node (new_node (graph st)) (graph st)) st))
  | RandomGraph draws => Some (count_move (set_graph (random_graph draws) st))
  | ClearAll => Some (count_move (set_graph Nx.empty st))
  | DeleteNode node_to_remove =>
      G ← remove_node node_to_remove (graph st);
      Some (count_move (set_graph G st))
  | AddEdge from_node to_node =>
      if decide (from_node ≠ to_node)
      then Some (count_move (set_graph (Nx.add_edge (from_node, to_node) (graph st)) st))
      else Some st
  | DeleteEdge u v =>
      G ← remove_edge u v (graph st);
      Some (count_move (set_graph G st))
  end.

(** The status check of [main]: in game mode, a non-empty graph
    without flagged vertex sets [game_won]. *)
Definition game_status (st : session_state) : option session_state :=
  seymour_vertices ← Py.get_seymour_vertices (graph st);
  Some (if game_mode st
           && bool_decide (length seymour_vertices = 0%nat)
           && bool_decide (0 < length (Nx.nodes (graph st)))%nat
        then {| graph := graph st; game_mode := game_mode st;
                moves_count := moves_count st; game_won := true |}
        else st).

(** A control and the pass of the script that follows it. *)
Definition step (st : session_state) (c : Control) : option session_state :=
  st' ← control c st; game_status st'.

Definition run (cs : list Control) (st : session_state) : option session_state :=
  foldl (λ acc c, st ← acc; step st c) (Some st) cs.

(** The controls that can be used: a vertex or an edge to delete is
    picked from those of the graph. *)
Definition enabled (st : session_state) (c : Control) : Prop :=
  match c with
  | DeleteNode n => n ∈ Nx.nodes (graph st)
  | DeleteEdge u v => Nx.has_edge (graph st) u v
  | _ => True
  end.

End Game.

(** ** Loading the editor, and the inputs used below *)

(** The editor as the caller gets it: the Python side builds
    [graph_json] and the script starts from it. *)
Definition load (gd : Py.graph_data) : option Js.State :=
  Js.init <$> Py.create_interactive_graph_editor gd.

(** The graph [create_interactive_graph_editor] hands to the
    classifier. *)
Definition graph_of (ns : list Z) (es : list (Z * Z)) : Nx.DiGraph :=
  Nx.add_nodes_from ns (Nx.add_edges_from es Nx.empty).

(** The four-vertex example: [V = {0,1,2,3}],
    [E = {(0,1),(1,2),(2,0),(1,3)}]. *)
Definition scenario_data : Py.graph_data :=
  {| Py.gd_nodes := [0; 1; 2; 3];
     Py.gd_edges := [(0, 1); (1, 2); (2, 0); (1, 3)];
     Py.gd_move_mode := false |}.

Definition scenario_graph : Nx.DiGraph :=
  graph_of (Py.gd_nodes scenario_data) (Py.gd_edges scenario_data).

(** Vertex 2 is entered first because it only occurs in an edge. *)
Definition unordered_graph : Nx.DiGraph := graph_of [0; 1; 2] [(2, 1)].

(** Ids that neither start at 0 nor are contiguous. *)
Definition sparse_data : Py.graph_data :=
  {| Py.gd_nodes := [5; 7]; Py.gd_edges := [(5, 7)]; Py.gd_move_mode := false |}.

(** [graph_json] of the four-vertex example, and the editor started
    from it. *)
Definition scenario_json : Json.GraphData :=
  {| Json.nodes :=
       [ {| Json.id := 0; Json.x := 50; Json.y := 50; Json.is_seymour := true |};
         {| Json.id := 1; Json.x := 200; Json.y := 50; Json.is_seymour := false |};
         {| Json.id := 2; Json.x := 350; Json.y := 50; Json.is_seymour := true |};
         {| Json.id := 3; Json.x := 500; Json.y := 50; Json.is_seymour := true |} ];
     Json.edges := Py.edge_json <$> Py.gd_edges scenario_data;
     Json.move_mode := Some false |}.

Definition scenario_state : Js.State := Js.init scenario_json.

(** The example with the edge [(0, 2)] where the four-vertex example
    has [(2, 0)], loaded, and then with vertex 2 pressed at its centre
    and dragged past the threshold in connect mode. *)
Definition reverse_json : Json.GraphData :=
  {| Json.nodes :=
       [ {| Json.id := 0; Json.x := 50; Json.y := 50; Json.is_seymour := false |};
         {| Json.id := 1; Json.x := 200; Json.y := 50; Json.is_seymour := false |};
         {| Json.id := 2; Json.x := 350; Json.y := 50; Json.is_seymour := true |};
         {| Json.id := 3; Json.x := 500; Json.y := 50; Json.is_seymour := true |} ];
     Json.edges := Py.edge_json <$> [(0, 1); (1, 2); (0, 2); (1, 3)];
     Json.move_mode := Some false |}.

Definition reverse_dragging : Js.State :=
  Js.run [Js.MouseDown 0 350 50; Js.MouseMove 200 60] (Js.init reverse_json).

(** The four-vertex example with a fifth vertex added by a double
    click at [(80, 50)], 30 pixels from vertex 0, and then vertex 0
    pressed at its centre and dragged in connect mode to [(65, 50)]: a
    point that lies on vertex 0 and on the new vertex. *)
Definition overlap_dragging : Js.State :=
  Js.run [Js.DblClick 80 50; Js.MouseDown 0 50 50; Js.MouseMove 65 50]
         scenario_state.

(** ** Properties of edge lists and events used in the statements *)

(** The events of pointer gestures: a press of the primary button, a
    move, a release; the mode may be toggled in between. *)
Definition pointer_event (e : Js.Event) : Prop :=
  match e with
  | Js.MouseDown button _ _ => button = 0
  | Js.MouseMove _ _ | Js.MouseUp _ _ | Js.ToggleMoveMode => True
  | _ => False
  end.

(** No two distinct vertices are joined in both directions. *)
Definition no_two_cycle (ps : list (option Z * option Z)) : Prop :=
  ∀ a b, a ≠ b → (a, b) ∈ ps → (b, a) ∉ ps.

(** The number of vertices the in-canvas classifier flags on the
    current graph, and the solved state: a non-empty graph with none. *)
Definition seymourCount (s : Js.State) : nat :=
  length (filter (λ r, Js.classify (Js.edges s) (Json.id (Js.deref s r)) = true)
                 (Js.nodes s)).

Definition solved (s : Js.State) : Prop :=
  seymourCount s = 0%nat ∧ Js.nodes s ≠ [].

(** The events after which the handlers call [checkForWin]: a release
    that changes the edge list (a connect gesture that created or
    reversed an edge), and a context-menu event over a vertex or an
    edge. *)
Definition win_checked (s : Js.State) (e : Js.Event) : Prop :=
  match e with
  | Js.MouseUp mx my => Js.edges (Js.mouseup mx my s) ≠ Js.edges s
  | Js.ContextMenu mx my =>
      Js.getNodeAt s mx my ≠ None ∨ Js.getEdgeAt s mx my ≠ None
  | _ => False
  end.

(** Two cliques with every edge in both directions, on [{0,1,2}] and on
    [{3,4}]: no vertex is flagged. *)
Definition two_cliques_json : Json.GraphData :=
  {| Json.nodes :=
       [ {| Json.id := 0; Json.x := 50; Json.y := 50; Json.is_seymour := false |};
         {| Json.id := 1; Json.x := 200; Json.y := 50; Json.is_seymour := false |};
         {| Json.id := 2; Json.x := 350; Json.y := 50; Json.is_seymour := false |};
         {| Json.id := 3; Json.x := 500; Json.y := 50; Json.is_seymour := false |};
         {| Json.id := 4; Json.x := 650; Json.y := 50; Json.is_seymour := false |} ];
     Json.edges :=
       Py.edge_json <$>
         [(0, 1); (1, 0); (0, 2); (2, 0); (1, 2); (2, 1); (3, 4); (4, 3)];
     Json.move_mode := Some false |}.

Definition two_cliques : Js.State := Js.init two_cliques_json.

(** Vertex 0 dragged onto vertex 3, then vertex 1 dragged onto
    vertex 3. *)
Definition drag_0_to_3 : list Js.Event :=
  [Js.MouseDown 0 50 50; Js.MouseMove 200 100; Js.MouseUp 500 50].
Definition drag_1_to_3 : list Js.Event :=
  [Js.MouseDown 0 200 50; Js.MouseMove 200 100; Js.MouseUp 500 50].

(** Two vertices and no edge, loaded in connect mode and in move mode;
    and the same graph as the detail of a [graphDataUpdate] event that
    sets the mode, or leaves it alone. *)
Definition two_nodes_json (mode : option bool) : Json.GraphData :=
  {| Json.nodes :=
       [ {| Json.id := 0; Json.x := 50; Json.y := 50; Json.is_seymour := true |};
         {| Json.id := 1; Json.x := 200; Json.y := 50; Json.is_seymour := true |} ];
     Json.edges := [];
     Json.move_mode := mode |}.

Definition two_nodes : Js.State := Js.init (two_nodes_json (Some false)).
Definition two_nodes_moving : Js.State := Js.init (two_nodes_json (Some true)).

(** Where the vertices of the canvas are. *)
Definition node_positions (s : Js.State) : list (Z * Z) :=
  (λ r, (Json.x (Js.deref s r), Json.y (Js.deref s r))) <$> Js.nodes s.

(** Vertex 0 of [two_nodes] pressed and dragged past the threshold. *)
Definition two_nodes_dragging : Js.State :=
  Js.run [Js.MouseDown 0 50 50; Js.MouseMove 100 50] two_nodes.

(** The ascending renumbering of [0 .. n-1] with [d] removed: ids below
    [d] stay, ids above [d] move down by one. *)
Definition shift_down (d i : Z) : Z := if bool_decide (i < d) then i else i - 1.

(** The store is in order: [graphData.nodes] holds distinct objects,
    each of them stored. *)
Definition store_ok (s : Js.State) : Prop :=
  NoDup (Js.nodes s) ∧ ∀ r, r ∈ Js.nodes s → r ∈ dom (D:=gset nat) (Js.heap s).

(** The number of ids of [l] below [i]: the position of [i] when [l]
    is put in ascending order. *)
Definition rank_in (l : list Z) (i : Z) : Z :=
  Z.of_nat (length (filter (λ j, j < i) l)).

(** What an edge endpoint [i] becomes when the vertices with ids [l]
    are renumbered: its rank, or [undefined] when no vertex has it. *)
Definition renumbered (l : list Z) (i : Z) : option Z :=
  if decide (i ∈ l) then Some (rank_in l i) else None.


(** The four-vertex example after the secondary button was pressed on
    vertex 1: the ids are [0; 2; 3]. *)
Definition scenario_gap : Js.State := Js.mousedown 2 200 50 scenario_state.

(** A pointer position within [DRAG_THRESHOLD] of the press at
    [(px, py)]: the test [distance > DRAG_THRESHOLD] of [mousemove]
    fails. *)
Definition near (px py : Z) (p : Z * Z) : Prop :=
  (p.1 - px) ^ 2 + (p.2 - py) ^ 2 ≤ Js.DRAG_THRESHOLD * Js.DRAG_THRESHOLD.

(** A gesture with the primary button: a press at [(px, py)], moves
    through the positions [moves], a release at [(ux, uy)]. *)
Definition gesture (px py : Z) (moves : list (Z * Z)) (ux uy : Z) : list Js.Event :=
  Js.MouseDown 0 px py :: ((λ p, Js.MouseMove p.1 p.2) <$> moves)
    ++ [Js.MouseUp ux uy].

(** The session [main] starts with: the four-vertex example, no move
    made, connect mode. *)
Definition scenario_session : App.session_state :=
  {| App.graph_nodes := [0; 1; 2; 3];
     App.graph_edges := [(0, 1); (1, 2); (2, 0); (1, 3)];
     App.moves_count := 0;
     App.move_mode := false |}.

(** An edge without its direction. *)
Definition unordered (e : Z * Z) : Z * Z := (Z.min e.1 e.2, Z.max e.1 e.2).

(** No vertex has an edge to itself. *)
Definition loop_free (G : Nx.DiGraph) : Prop := ∀ a, ¬ Nx.has_edge G a a.

(** The integers a JavaScript number holds exactly and to which 1 is
    added exactly: the safe integers, of magnitude below [2^53].  The
    embedding keeps ids in [Z]; it is the code on safe integers, and
    the statements that depend on ids passing through [graph_json] or
    on [newId] assume the ids safe. *)
Definition safe_int (i : Z) : Prop := - 2 ^ 53 < i < 2 ^ 53.

#[export] Instance safe_int_dec (i : Z) : Decision (safe_int i).
Proof. unfold safe_int. apply _. Defined.

(** * Facts about the graph model *)

Section nx_facts.
Import Nx.
Implicit Types (G : DiGraph) (n u v w : Z) (ss : list Z).

Lemma successors_elem G n ss : successors G n = Some ss → (n, ss) ∈ G.
Proof.
  induction G as [|[m ts] G IH]; simpl; [done|].
  case_decide; intros ?; simplify_eq; [left | right; auto].
Qed.

Lemma successors_None G n : successors G n = None ↔ n ∉ nodes G.
Proof.
  unfold nodes. induction G as [|[m ts] G IH]; simpl.
  - split; [intros _; apply not_elem_of_nil | done].
  - rewrite not_elem_of_cons. case_decide; naive_solver.
Qed.

Lemma successors_is_Some G n : n ∈ nodes G → is_Some (successors G n).
Proof.
  intros Hn. destruct (successors G n) eqn:E; [eauto|].
  apply successors_None in E. done.
Qed.

Lemma successors_node G n ss : successors G n = Some ss → n ∈ nodes G.
Proof.
  intros H. destruct (decide (n ∈ nodes G)) as [|Hn]; [done|].
  apply successors_None in Hn. congruence.
Qed.

Lemma elem_successors G n ss :
  NoDup (nodes G) → (n, ss) ∈ G → successors G n = Some ss.
Proof.
  unfold nodes. induction G as [|[m ts] G IH]; simpl; intros Hnd Hin.
  - by apply elem_of_nil in Hin.
  - apply NoDup_cons in Hnd as [Hm Hnd].
    apply elem_of_cons in Hin as [Heq|Hin].
    + simplify_eq. by rewrite decide_True.
    + rewrite decide_False; [auto|].
      intros ->. apply Hm. apply list_elem_of_fmap. by exists (n, ss).
Qed.

Lemma successors_app G G' n :
  successors (G ++ G') n =
  match successors G n with Some ss => Some ss | None => successors G' n end.
Proof.
  induction G as [|[m ts] G IH]; simpl; [done|]. by case_decide.
Qed.

Lemma nodes_add_node n G :
  nodes (add_node n G) = if decide (n ∈ nodes G) then nodes G else nodes G ++ [n].
Proof.
  unfold add_node, has_node. case_bool_decide.
  - by rewrite decide_True.
  - rewrite decide_False by done. unfold nodes. by rewrite fmap_app.
Qed.

Lemma elem_nodes_add_node m n G :
  m ∈ nodes (add_node n G) ↔ m = n ∨ m ∈ nodes G.
Proof.
  rewrite nodes_add_node. case_decide.
  - naive_solver.
  - rewrite elem_of_app, list_elem_of_singleton. naive_solver.
Qed.

Lemma successors_add_node n G m :
  successors (add_node n G) m =
  match successors G m with
  | Some ss => Some ss
  | None => if decide (n = m) then Some [] else None
  end.
Proof.
  unfold add_node, has_node. case_bool_decide as Hn.
  - destruct (successors G m) eqn:E; [done|].
    case_decide; [|done]. subst. apply successors_None in E. done.
  - rewrite successors_app. simpl. done.
Qed.

Lemma nodes_link u v G : nodes (link u v G) = nodes G.
Proof.
  unfold nodes. induction G as [|[m ts] G IH]; simpl; [done|].
  case_decide; simpl; [done|]. f_equal. apply IH.
Qed.

Lemma successors_link u v G m :
  successors (link u v G) m =
  if decide (m = u)
  then (λ ss, if bool_decide (v ∈ ss) then ss else ss ++ [v]) <$> successors G u
  else successors G m.
Proof.
  induction G as [|[k ts] G IH]; simpl.
  - by case_decide.
  - destruct (decide (k = u)) as [->|Hk]; simpl.
    + repeat (case_decide; simplify_eq; simpl; try done).
    + rewrite IH. repeat (case_decide; simplify_eq; simpl; try done).
Qed.

Lemma has_edge_add_node n G u w : has_edge (add_node n G) u w ↔ has_edge G u w.
Proof.
  unfold has_edge. setoid_rewrite successors_add_node. split.
  - intros (ss & H & Hw). destruct (successors G u); [naive_solver|].
    case_decide; simplify_eq. by apply elem_of_nil in Hw.
  - intros (ss & -> & Hw). eauto.
Qed.

Lemma has_edge_link u v G a b :
  u ∈ nodes G →
  has_edge (link u v G) a b ↔ has_edge G a b ∨ (a = u ∧ b = v).
Proof.
  intros Hu. unfold has_edge. setoid_rewrite successors_link.
  destruct (successors_is_Some _ _ Hu) as [ts Hts].
  destruct (decide (a = u)) as [->|Ha].
  - rewrite Hts. simpl. split.
    + intros (ss & H & Hb). simplify_eq. case_bool_decide.
      * left. eauto.
      * apply elem_of_app in Hb as [Hb|Hb]; [left; eauto|].
        apply list_elem_of_singleton in Hb. auto.
    + intros [(ss & H & Hb)|[_ ->]]; simplify_eq.
      * eexists; split; [done|]. case_bool_decide; [done|].
        apply elem_of_app. auto.
      * eexists; split; [done|]. case_bool_decide; [done|].
        apply elem_of_app. right. by apply list_elem_of_singleton.
  - naive_solver.
Qed.

Lemma has_edge_add_edge e G a b :
  has_edge (add_edge e G) a b ↔ has_edge G a b ∨ (a, b) = e.
Proof.
  destruct e as [u v]. unfold add_edge. simpl.
  rewrite has_edge_link, !has_edge_add_node.
  - naive_solver.
  - rewrite !elem_nodes_add_node. auto.
Qed.

Lemma has_edge_add_edges_from es G a b :
  has_edge (add_edges_from es G) a b ↔ has_edge G a b ∨ (a, b) ∈ es.
Proof.
  unfold add_edges_from. revert G.
  induction es as [|e es IH]; intros G; simpl.
  - rewrite elem_of_nil. naive_solver.
  - rewrite IH, has_edge_add_edge, elem_of_cons. naive_solver.
Qed.

Lemma has_edge_add_nodes_from ns G a b :
  has_edge (add_nodes_from ns G) a b ↔ has_edge G a b.
Proof.
  unfold add_nodes_from. revert G.
  induction ns as [|n ns IH]; intros G; simpl; [done|].
  by rewrite IH, has_edge_add_node.
Qed.

Lemma elem_nodes_add_nodes_from ns G m :
  m ∈ nodes (add_nodes_from ns G) ↔ m ∈ nodes G ∨ m ∈ ns.
Proof.
  unfold add_nodes_from. revert G.
  induction ns as [|n ns IH]; intros G; simpl.
  - rewrite elem_of_nil. naive_solver.
  - rewrite IH, elem_nodes_add_node, elem_of_cons. naive_solver.
Qed.

Lemma has_edge_empty a b : ¬ has_edge empty a b.
Proof. intros (ss & H & _). done. Qed.

Lemma wf_empty : wf empty.
Proof. split; [constructor | done]. Qed.

Lemma wf_add_node n G : wf G → wf (add_node n G).
Proof.
  intros [Hnd Hss]. split.
  - rewrite nodes_add_node. case_decide; [done|].
    apply NoDup_app. split_and!; [done| |apply NoDup_singleton].
    intros m Hm ->%list_elem_of_singleton. done.
  - intros m ss. rewrite successors_add_node.
    destruct (successors G m) as [ts|] eqn:E.
    + intros ?; simplify_eq. destruct (Hss _ _ E) as [? Hin].
      split; [done|]. intros w Hw. apply elem_nodes_add_node. auto.
    + case_decide; intros ?; simplify_eq. split; [constructor|].
      intros w Hw. by apply elem_of_nil in Hw.
Qed.

Lemma wf_link u v G : u ∈ nodes G → v ∈ nodes G → wf G → wf (link u v G).
Proof.
  intros Hu Hv [Hnd Hss]. split; [by rewrite nodes_link|].
  intros m ss. rewrite successors_link, nodes_link. case_decide.
  - subst. destruct (successors G u) as [ts|] eqn:E; simpl; [|done].
    intros ?; simplify_eq. destruct (Hss _ _ E) as [Hts Hin].
    case_bool_decide; [done|]. split.
    + apply NoDup_app. split_and!; [done| |apply NoDup_singleton].
      intros w Hw ->%list_elem_of_singleton. done.
    + intros w [Hw|Hw]%elem_of_app; [auto|].
      apply list_elem_of_singleton in Hw. by subst.
  - apply Hss.
Qed.

Lemma wf_add_edge e G : wf G → wf (add_edge e G).
Proof.
  intros HG. unfold add_edge. apply wf_link.
  - rewrite !elem_nodes_add_node. auto.
  - rewrite !elem_nodes_add_node. auto.
  - by do 2 apply wf_add_node.
Qed.

Lemma wf_add_edges_from es G : wf G → wf (add_edges_from es G).
Proof.
  unfold add_edges_from. revert G.
  induction es as [|e es IH]; intros G HG; simpl; [done|].
  by apply IH, wf_add_edge.
Qed.

Lemma wf_add_nodes_from ns G : wf G → wf (add_nodes_from ns G).
Proof.
  unfold add_nodes_from. revert G.
  induction ns as [|n ns IH]; intros G HG; simpl; [done|].
  by apply IH, wf_add_node.
Qed.

(** The graph [create_interactive_graph_editor] analyses. *)
Lemma wf_build ns es : wf (add_nodes_from ns (add_edges_from es empty)).
Proof. apply wf_add_nodes_from, wf_add_edges_from, wf_empty. Qed.

Lemma has_edge_build ns es a b :
  has_edge (add_nodes_from ns (add_edges_from es empty)) a b ↔ (a, b) ∈ es.
Proof.
  rewrite has_edge_add_nodes_from, has_edge_add_edges_from.
  pose proof (has_edge_empty a b). naive_solver.
Qed.

Lemma has_edge_node_l G a b : has_edge G a b → a ∈ nodes G.
Proof. intros (ss & H & _). by eapply successors_node. Qed.

Lemma has_edge_node_r G a b : wf G → has_edge G a b → b ∈ nodes G.
Proof. intros [_ Hss] (ss & H & Hb). by apply (Hss _ _ H). Qed.

End nx_facts.

(** * Facts about the Python classifier *)

Section py_facts.
Import Nx Py.
Implicit Types (G : DiGraph) (n u v w : Z) (ss : list Z).

Lemma add_all_spec (raw : gset Z) ws :
  foldl (λ s w, s ∪ {[ w ]}) raw ws = raw ∪ list_to_set ws.
Proof.
  revert raw. induction ws as [|w ws IH]; intros raw; simpl.
  - set_solver.
  - rewrite IH. set_solver.
Qed.

Lemma raw_second_acc G first (acc : gset Z) :
  (∀ u, u ∈ first → u ∈ nodes G) →
  ∃ raw,
    foldl (λ acc u, raw ← acc; ws ← successors G u;
                    Some (foldl (λ s w, s ∪ {[ w ]}) raw ws))
          (Some acc) first = Some raw ∧
    ∀ w, w ∈ raw ↔ w ∈ acc ∨ ∃ u, u ∈ first ∧ has_edge G u w.
Proof.
  revert acc. induction first as [|u first IH]; intros acc Hn; simpl.
  - exists acc. split; [done|]. intros w. split; [auto|].
    intros [?|(u & Hu & _)]; [done|]. by apply elem_of_nil in Hu.
  - destruct (successors_is_Some G u) as [ws Hws]; [apply Hn; left|].
    rewrite Hws. simpl. rewrite add_all_spec.
    destruct (IH (acc ∪ list_to_set ws)) as (raw & -> & Hraw).
    { intros u' Hu'. apply Hn. by right. }
    exists raw. split; [done|]. intros w. rewrite Hraw.
    rewrite elem_of_union, elem_of_list_to_set. split.
    + intros [[?|Hw]|(u' & Hu' & He)]; [auto| |].
      * right. exists u. split; [left|]. by exists ws.
      * right. exists u'. split; [by right|done].
    + intros [?|(u' & [->|Hu']%elem_of_cons & He)]; [auto| |].
      * destruct He as (ws' & Hws' & Hw). simplify_eq. auto.
      * right. eauto.
Qed.

Lemma raw_second_spec G first :
  (∀ u, u ∈ first → u ∈ nodes G) →
  ∃ raw, raw_second G first = Some raw ∧
         ∀ w, w ∈ raw ↔ ∃ u, u ∈ first ∧ has_edge G u w.
Proof.
  intros Hn. destruct (raw_second_acc G first ∅ Hn) as (raw & Hr & Hraw).
  exists raw. split; [done|]. intros w. rewrite Hraw. set_solver.
Qed.

(** The record of one vertex meets the classifier contract. *)
Lemma analyze_vertex_spec G v :
  wf G → v ∈ nodes G →
  ∃ a, analyze_vertex G v = Some a ∧
    (∀ w, w ∈ first_neighbors a ↔ has_edge G v w) ∧
    (∀ w, w ∈ second_neighbors a ↔
          (∃ u, u ∈ first_neighbors a ∧ has_edge G u w)
          ∧ (w ∉ first_neighbors a) ∧ w ≠ v) ∧
    out_degree a = size (first_neighbors a) ∧
    second_neighbor_count a = size (second_neighbors a) ∧
    satisfies_property a =
      bool_decide (size (first_neighbors a) ≤ size (second_neighbors a))%nat ∧
    ratio a = (inject_Z (Z.of_nat (size (second_neighbors a)))
               / inject_Z (Z.of_nat (Nat.max (size (first_neighbors a)) 1)))%Q.
Proof.
  intros HG Hv. destruct (successors_is_Some G v Hv) as [ss Hss].
  destruct HG as [Hnd Hsucc]. destruct (Hsucc _ _ Hss) as [_ Hin].
  destruct (raw_second_spec G (elements (list_to_set ss : gset Z)))
    as (raw & Hr & Hraw).
  { intros u Hu. apply Hin. set_solver. }
  unfold analyze_vertex. rewrite Hss. simpl. rewrite Hr. simpl.
  eexists. split; [done|]. simpl. split_and!; try done.
  - intros w. rewrite elem_of_list_to_set. unfold has_edge. naive_solver.
  - intros w. rewrite !elem_of_difference, Hraw, not_elem_of_singleton.
    setoid_rewrite elem_of_elements. naive_solver.
Qed.

Lemma dict_set_fresh {V} k (x : V) (d : list (Z * V)) :
  k ∉ d.*1 → dict_set k x d = d ++ [(k, x)].
Proof.
  induction d as [|[k' x'] d IH]; simpl; [done|].
  rewrite not_elem_of_cons. intros [Hk Hd].
  rewrite decide_False by done. by rewrite IH.
Qed.

Lemma records_keys G l d : records G l d → d.*1 = l.
Proof.
  induction 1 as [|v [k a] l d [Hk _] _ IH]; csimpl in *; [done|].
  by rewrite IH, Hk.
Qed.

Lemma records_get G l d v :
  records G l d → v ∈ l → dict_get d v = analyze_vertex G v.
Proof.
  induction 1 as [|v' [k a] l d [Hk Ha] _ IH]; simpl in *.
  - intros Hv. by apply elem_of_nil in Hv.
  - subst k. intros Hv. case_decide; [by subst|].
    apply elem_of_cons in Hv as [->|Hv]; [done|auto].
Qed.

Lemma records_flagged G l d :
  records G l d →
  (filter (λ kv, satisfies_property kv.2 = true) d).*1
  = filter (λ v, flagged G v = true) l.
Proof.
  induction 1 as [|v [k a] l d [Hk Ha] _ IH]; csimpl in *; [done|].
  subst k. rewrite !filter_cons. csimpl.
  assert (flagged G v = satisfies_property a) as Hf
    by (unfold flagged; by rewrite Ha).
  repeat case_decide; csimpl; try congruence.
Qed.

Lemma analyze_loop G l d :
  (∀ v, v ∈ l → is_Some (analyze_vertex G v)) →
  NoDup (d.*1 ++ l) →
  ∃ d', foldl (λ acc v, analysis ← acc; a ← analyze_vertex G v;
                        Some (dict_set v a analysis))
              (Some d) l = Some (d ++ d')
        ∧ records G l d'.
Proof.
  revert d. induction l as [|v l IH]; intros d Hsome Hnd; simpl.
  - exists []. rewrite app_nil_r. split; [done|constructor].
  - destruct (Hsome v) as [a Ha]; [left|]. rewrite Ha. simpl.
    rewrite dict_set_fresh.
    2:{ apply NoDup_app in Hnd as (_ & Hd & _). intros Hv.
        apply (Hd v Hv). left. }
    destruct (IH (d ++ [(v, a)])) as (d' & -> & Hrec).
    { intros v' Hv'. apply Hsome. by right. }
    { rewrite fmap_app. simpl. by rewrite <- app_assoc. }
    exists ((v, a) :: d'). rewrite <- app_assoc. split; [done|].
    constructor; [done|done].
Qed.

Lemma analyze_seymour_vertices_spec G :
  wf G →
  ∃ analysis, analyze_seymour_vertices G = Some analysis
              ∧ records G (nodes G) analysis.
Proof.
  intros HG. destruct (analyze_loop G (nodes G) []) as (d & Hd & Hrec).
  - intros v Hv. destruct (analyze_vertex_spec G v HG Hv) as (a & -> & _). eauto.
  - apply HG.
  - exists d. split; [done|done].
Qed.

Lemma get_seymour_vertices_spec G :
  wf G →
  get_seymour_vertices G = Some (filter (λ v, flagged G v = true) (nodes G)).
Proof.
  intros HG. destruct (analyze_seymour_vertices_spec G HG) as (d & Hd & Hrec).
  unfold get_seymour_vertices. rewrite Hd. simpl.
  by rewrite (records_flagged _ _ _ Hrec).
Qed.

End py_facts.

(** * Facts about the editor *)

Section js_facts.
Import Json Js.
Implicit Types (s : State) (r : nat) (es : list Edge) (h : gmap nat Node).

Lemma with_is_seymour_twice b b' (n : Node) :
  with_is_seymour b (with_is_seymour b' n) = with_is_seymour b n.
Proof. done. Qed.

(** After the marking loop, a node of the array carries the verdict of
    the classifier on its id; every other object is untouched. *)
Lemma mark_loop es l h r :
  foldl (mark es) h l !!! r =
  if decide (r ∈ l)
  then with_is_seymour (classify es (id (h !!! r))) (h !!! r)
  else h !!! r.
Proof.
  revert h. induction l as [|a l IH]; intros h.
  - rewrite decide_False; [done|apply not_elem_of_nil].
  - change (foldl (mark es) h (a :: l)) with (foldl (mark es) (mark es h a) l).
    rewrite IH. unfold mark.
    destruct (decide (r = a)) as [->|Hra].
    + rewrite lookup_total_insert_eq. simpl.
      rewrite (decide_True (P := a ∈ a :: l)) by left.
      by case_decide.
    + rewrite lookup_total_insert_ne by done.
      destruct (decide (r ∈ l)) as [Hl|Hl].
      * rewrite decide_True; [done|by right].
      * rewrite decide_False; [done|]. rewrite not_elem_of_cons. done.
Qed.

Lemma deref_updateSeymourStatus s r :
  deref (updateSeymourStatus s) r =
  if decide (r ∈ nodes s)
  then with_is_seymour (classify (edges s) (id (deref s r))) (deref s r)
  else deref s r.
Proof. unfold deref, updateSeymourStatus. simpl. apply mark_loop. Qed.

Lemma id_updateSeymourStatus s r :
  id (deref (updateSeymourStatus s) r) = id (deref s r).
Proof. rewrite deref_updateSeymourStatus. by case_decide. Qed.


Lemma is_seymour_updateSeymourStatus s r :
  r ∈ nodes s →
  is_seymour (deref (updateSeymourStatus s) r)
  = classify (edges s) (id (deref s r)).
Proof. intros Hr. rewrite deref_updateSeymourStatus. by rewrite decide_True. Qed.

Lemma node_ids_updateSeymourStatus s :
  node_ids (updateSeymourStatus s) = node_ids s.
Proof.
  unfold node_ids. apply list_fmap_ext. intros _ r _. apply id_updateSeymourStatus.
Qed.

(** **** The arrays of the in-canvas classifier *)

(** The inner loop: targets passing [P] are pushed once. *)
Lemma push_targets (P : option Z → bool) (edges : list Edge) (acc : list (option Z)) :
  let res := foldl (λ acc edge,
                      if P (to edge)
                      then if negb (bool_decide (to edge ∈ acc))
                           then acc ++ [to edge] else acc
                      else acc) acc edges in
  NoDup acc →
  NoDup res ∧
  ∀ t, t ∈ res ↔ t ∈ acc ∨ (P t = true ∧ ∃ e, e ∈ edges ∧ to e = t).
Proof.
  revert acc. induction edges as [|e edges IH]; intros acc; simpl; intros Hnd.
  - split; [done|]. intros t. split; [auto|].
    intros [?|(_ & e & He & _)]; [done|]. by apply elem_of_nil in He.
  - destruct (P (to e)) eqn:HP; [case_bool_decide as Hin; simpl|].
    + destruct (IH acc Hnd) as [Hnd' Hmem]. split; [done|].
      intros t. rewrite Hmem. setoid_rewrite elem_of_cons. split.
      * intros [?|(? & e' & ? & ?)]; [auto|]. right. eauto.
      * intros [?|(HPt & e' & [->|He'] & Ht)]; [auto| |].
        -- subst. auto.
        -- right. eauto.
    + destruct (IH (acc ++ [to e])) as [Hnd' Hmem].
      { apply NoDup_app. split_and!; [done| |apply NoDup_singleton].
        intros t Ht Ht'. apply list_elem_of_singleton in Ht'. by subst. }
      split; [done|]. intros t. rewrite Hmem.
      rewrite elem_of_app, list_elem_of_singleton.
      setoid_rewrite elem_of_cons. split.
      * intros [[?| ->]|(HPt & e' & He' & Ht)]; [auto| |].
        -- right. split; [done|]. exists e. auto.
        -- right. split; [done|]. exists e'. auto.
      * intros [?|(HPt & e' & [->|He'] & Ht)]; [auto| |].
        -- subst. auto.
        -- right. eauto.
    + destruct (IH acc Hnd) as [Hnd' Hmem]. split; [done|].
      intros t. rewrite Hmem. setoid_rewrite elem_of_cons. split.
      * intros [?|(? & e' & ? & ?)]; [auto|]. right. eauto.
      * intros [?|(HPt & e' & [->|He'] & Ht)]; [auto| |].
        -- subst. congruence.
        -- right. eauto.
Qed.

(** The outer loop over [firstNeighbors]. *)
Lemma push_second (P : option Z → bool) es (first acc : list (option Z)) :
  let res := foldl (λ acc neighbor,
                      foldl (λ acc edge,
                               if P (to edge)
                               then if negb (bool_decide (to edge ∈ acc))
                                    then acc ++ [to edge] else acc
                               else acc)
                            acc (filter (λ e, from e = neighbor) es))
                   acc first in
  NoDup acc →
  NoDup res ∧
  ∀ t, t ∈ res ↔
       t ∈ acc ∨ (P t = true ∧ ∃ e, e ∈ es ∧ from e ∈ first ∧ to e = t).
Proof.
  revert acc. induction first as [|nb first IH]; intros acc; simpl; intros Hnd.
  - split; [done|]. intros t. split; [auto|].
    intros [?|(_ & e & _ & He & _)]; [done|]. by apply elem_of_nil in He.
  - destruct (push_targets P (filter (λ e, from e = nb) es) acc Hnd)
      as [Hnd1 Hmem1].
    destruct (IH _ Hnd1) as [Hnd2 Hmem2]. split; [done|].
    intros t. rewrite Hmem2, Hmem1. setoid_rewrite list_elem_of_filter.
    setoid_rewrite elem_of_cons. naive_solver.
Qed.

Lemma secondNeighbors_spec es nid :
  NoDup (secondNeighbors es nid) ∧
  ∀ t, t ∈ secondNeighbors es nid ↔
       t ≠ Some nid ∧ (t ∉ firstNeighbors es nid)
       ∧ ∃ e, e ∈ es ∧ from e ∈ firstNeighbors es nid ∧ to e = t.
Proof.
  unfold secondNeighbors.
  pose proof (push_second
    (λ t, bool_decide (t ≠ Some nid)
          && negb (bool_decide (t ∈ firstNeighbors es nid)))
    es (firstNeighbors es nid) [] (NoDup_nil_2)) as [Hnd Hmem].
  split; [exact Hnd|]. intros t. rewrite Hmem.
  rewrite andb_true_iff, negb_true_iff, bool_decide_eq_true, bool_decide_eq_false.
  rewrite elem_of_nil. naive_solver.
Qed.

Lemma elem_firstNeighbors es nid t :
  t ∈ firstNeighbors es nid ↔ ∃ e, e ∈ es ∧ from e = Some nid ∧ to e = t.
Proof.
  unfold firstNeighbors. rewrite list_elem_of_fmap.
  setoid_rewrite list_elem_of_filter. naive_solver.
Qed.

(** **** Storing parsed objects *)

Lemma alloc_acc (ns : list Node) h (refs : list nat) :
  ∃ h' new,
    foldl alloc_node (h, refs) ns = (h', refs ++ new)
    ∧ (∀ r, r ∈ dom (D:=gset nat) h → h' !! r = h !! r)
    ∧ (∀ r, r ∈ new → r ∉ dom (D:=gset nat) h)
    ∧ NoDup new
    ∧ (λ r, h' !!! r) <$> new = ns.
Proof.
  revert h refs. induction ns as [|n ns IH]; intros h refs; simpl.
  - exists h, []. rewrite app_nil_r. split_and!; try done.
    + intros r Hr. by apply elem_of_nil in Hr.
    + constructor.
  - set (r0 := fresh_ref h).
    assert (r0 ∉ dom (D:=gset nat) h) as Hfresh
      by (unfold r0, fresh_ref; apply is_fresh).
    destruct (IH (<[ r0 := n ]> h) (refs ++ [r0]))
      as (h' & new & Heq & Hold & Hnew & Hnd & Hval).
    exists h', (r0 :: new). rewrite <- app_assoc in Heq.
    assert (h' !! r0 = Some n) as Hr0.
    { rewrite Hold; [apply lookup_insert_eq|]. rewrite dom_insert_L. set_solver. }
    split_and!.
    + exact Heq.
    + intros r Hr. rewrite Hold; [|rewrite dom_insert_L; set_solver].
      apply lookup_insert_ne. intros <-. done.
    + intros r [->|Hr]%elem_of_cons; [done|].
      apply Hnew in Hr. rewrite dom_insert_L in Hr. set_solver.
    + constructor; [|done]. intros Hin. apply Hnew in Hin.
      rewrite dom_insert_L in Hin. set_solver.
    + rewrite fmap_cons, Hval. f_equal. by apply lookup_total_correct.
Qed.

Lemma alloc_spec (ns : list Node) h :
  ∃ h' refs,
    alloc ns h = (h', refs)
    ∧ (∀ r, r ∈ dom (D:=gset nat) h → h' !! r = h !! r)
    ∧ (∀ r, r ∈ refs → r ∉ dom (D:=gset nat) h)
    ∧ NoDup refs
    ∧ (λ r, h' !!! r) <$> refs = ns.
Proof.
  destruct (alloc_acc ns h []) as (h' & new & H & ?). unfold alloc.
  exists h', new. split; [exact H|done].
Qed.

(** The script starts from the ids and edges of [graph_json] as they
    are. *)
Lemma init_graph (gj : GraphData) :
  node_ids (init gj) = id <$> Json.nodes gj
  ∧ Js.edges (init gj) = Json.edges gj
  ∧ NoDup (Js.nodes (init gj)).
Proof.
  unfold init. destruct (alloc_spec (Json.nodes gj) ∅)
    as (h & refs & -> & _ & _ & Hnd & Hval).
  unfold render. rewrite node_ids_updateSeymourStatus.
  split_and!; [|done|done].
  unfold node_ids, deref. simpl. rewrite <- Hval.
  by rewrite <- list_fmap_compose.
Qed.

End js_facts.

(** * The two classifiers *)

Section agreement.
Import Json Nx Py Js.

(** The length of a duplicate-free array of numbers is the size of the
    set of its values. *)
Lemma length_somes (L : list (option Z)) (S : gset Z) :
  NoDup L → (∀ t, t ∈ L ↔ ∃ w, t = Some w ∧ w ∈ S) → length L = size S.
Proof.
  revert S. induction L as [|t L IH]; intros S Hnd Hmem.
  - assert (S = ∅) as ->; [|by rewrite size_empty].
    apply set_eq. intros w. split; [|set_solver].
    intros Hw. assert (Some w ∈ @nil (option Z)) as Hn by (apply Hmem; eauto).
    by apply elem_of_nil in Hn.
  - apply NoDup_cons in Hnd as [Ht Hnd].
    destruct (proj1 (Hmem t)) as (w & -> & Hw); [left|].
    assert (S = {[ w ]} ∪ S ∖ {[ w ]}) as HS.
    { apply set_eq. intros u. destruct (decide (u = w)); set_solver. }
    rewrite HS, size_union, size_singleton by set_solver. simpl. f_equal.
    apply IH; [done|]. intros t. split.
    + intros Hin. destruct (proj1 (Hmem t)) as (u & -> & Hu); [by right|].
      exists u. split; [done|]. apply elem_of_difference. split; [done|].
      rewrite not_elem_of_singleton. intros ->. done.
    + intros (u & -> & Hu). apply elem_of_difference in Hu as [Hu Hne].
      rewrite not_elem_of_singleton in Hne.
      assert (Some u ∈ Some w :: L) as Hin by (apply Hmem; eauto).
      apply elem_of_cons in Hin as [Heq|Hin]; [congruence|done].
Qed.

Lemma elem_edges_json (es : list (Z * Z)) (e : Edge) :
  e ∈ edge_json <$> es ↔ ∃ a b, (a, b) ∈ es ∧ e = edge_json (a, b).
Proof.
  rewrite list_elem_of_fmap. split.
  - intros ([a b] & -> & ?). eauto.
  - intros (a & b & ? & ->). eauto.
Qed.

Lemma elem_firstNeighbors_json (es : list (Z * Z)) v t :
  t ∈ firstNeighbors (edge_json <$> es) v ↔ ∃ w, t = Some w ∧ (v, w) ∈ es.
Proof.
  rewrite elem_firstNeighbors. setoid_rewrite elem_edges_json.
  unfold edge_json. split.
  - intros (e & (a & b & Hab & ->) & Hf & Ht). simpl in *. simplify_eq. eauto.
  - intros (w & -> & Hw). eexists. split; [eauto|]. done.
Qed.

Lemma NoDup_firstNeighbors_json (es : list (Z * Z)) v :
  NoDup es → NoDup (firstNeighbors (edge_json <$> es) v).
Proof.
  induction es as [|[a b] es IH]; intros Hnd.
  - constructor.
  - apply NoDup_cons in Hnd as [Hab Hnd]. specialize (IH Hnd).
    unfold firstNeighbors in *. rewrite fmap_cons, filter_cons.
    case_decide as Hf; [|done]. rewrite fmap_cons. simpl in *.
    simplify_eq. constructor; [|done].
    intros Hin. apply (elem_firstNeighbors_json es v (Some b)) in Hin
      as (w & ? & ?). simplify_eq. done.
Qed.

(** On a duplicate-free edge list the in-canvas verdict is the verdict
    of [analyze_seymour_vertices]. *)
Lemma classify_agrees G (es : list (Z * Z)) v :
  wf G → (∀ a b, has_edge G a b ↔ (a, b) ∈ es) → NoDup es → v ∈ Nx.nodes G →
  ∃ a, analyze_vertex G v = Some a
       ∧ length (firstNeighbors (edge_json <$> es) v) = size (first_neighbors a)
       ∧ length (secondNeighbors (edge_json <$> es) v) = size (second_neighbors a)
       ∧ classify (edge_json <$> es) v = satisfies_property a.
Proof.
  intros HG Hes Hnd Hv.
  destruct (analyze_vertex_spec G v HG Hv)
    as (a & Ha & Hfirst & Hsecond & _ & _ & Hsat & _).
  assert (length (firstNeighbors (edge_json <$> es) v) = size (first_neighbors a))
    as H1.
  { apply length_somes; [by apply NoDup_firstNeighbors_json|].
    intros t. rewrite elem_firstNeighbors_json.
    setoid_rewrite Hfirst. setoid_rewrite Hes. done. }
  assert (length (secondNeighbors (edge_json <$> es) v) = size (second_neighbors a))
    as H2.
  { destruct (secondNeighbors_spec (edge_json <$> es) v) as [Hnd2 Hmem].
    apply length_somes; [done|]. intros t. rewrite Hmem.
    setoid_rewrite Hsecond. setoid_rewrite Hfirst. setoid_rewrite Hes.
    setoid_rewrite elem_edges_json. setoid_rewrite elem_firstNeighbors_json.
    unfold edge_json. split.
    - intros (Hne & Hnf & e & (p & q & Hpq & ->) & (u & Hu & Hvu) & Ht).
      simpl in *. simplify_eq. exists q. split; [done|]. split_and!.
      + eauto.
      + intros Hvq. apply Hnf. eauto.
      + congruence.
    - intros (w & -> & (u & Hvu & Huw) & Hnf & Hne). split_and!.
      + congruence.
      + intros (w' & ? & ?). simplify_eq.
      + exists {| from := Some u; to := Some w |}. simpl. split_and!; eauto. }
  exists a. split_and!; [done..|].
  unfold classify. rewrite H1, H2. by rewrite Hsat.
Qed.

End agreement.

(** * The classifier contract *)

Section classifier_claims.
Import Nx Py.

Lemma StronglySorted_filter {A} (R : relation A) (P : A → Prop)
    `{∀ x, Decision (P x)} (l : list A) :
  StronglySorted R l → StronglySorted R (filter P l).
Proof.
  induction 1 as [|a l Hl IH Ha]; [constructor|].
  rewrite filter_cons. case_decide; [|done]. constructor; [done|].
  rewrite Forall_forall in *. intros b Hb.
  apply list_elem_of_filter in Hb as [_ Hb]. auto.
Qed.

(** C1. For every graph and every vertex [v] of it, the analysis
    record of [v] exists and meets the contract: [first_neighbors] is
    the set of out-neighbours of [v]; [second_neighbors] is the set of
    vertices reached in two hops, minus the first neighbours and minus
    [v] (so it is disjoint from [first_neighbors] and does not hold
    [v]); [satisfies_property] holds iff
    [|second_neighbors| >= |first_neighbors|]; and [ratio] is
    [|second_neighbors| / max(|first_neighbors|, 1)]. *)
Theorem classifier_contract (G : DiGraph) (v : Z) :
  wf G → v ∈ nodes G →
  ∃ analysis a,
    analyze_seymour_vertices G = Some analysis
    ∧ dict_get analysis v = Some a
    ∧ (∀ w, w ∈ first_neighbors a ↔ has_edge G v w)
    ∧ (∀ w, w ∈ second_neighbors a ↔
            (∃ u, has_edge G v u ∧ has_edge G u w)
            ∧ ¬ has_edge G v w ∧ w ≠ v)
    ∧ first_neighbors a ## second_neighbors a
    ∧ (v ∉ second_neighbors a)
    ∧ out_degree a = size (first_neighbors a)
    ∧ second_neighbor_count a = size (second_neighbors a)
    ∧ (satisfies_property a = true ↔
         (size (first_neighbors a) ≤ size (second_neighbors a))%nat)
    ∧ ratio a = (inject_Z (Z.of_nat (size (second_neighbors a)))
                 / inject_Z (Z.of_nat (Nat.max (size (first_neighbors a)) 1)))%Q.
Proof.
  intros HG Hv.
  destruct (analyze_seymour_vertices_spec G HG) as (analysis & Han & Hrec).
  destruct (analyze_vertex_spec G v HG Hv)
    as (a & Ha & Hfirst & Hsecond & Hdeg & Hcount & Hsat & Hratio).
  exists analysis, a. split_and!; try done.
  - by rewrite (records_get _ _ _ _ Hrec Hv).
  - intros w. rewrite Hsecond. setoid_rewrite Hfirst. done.
  - intros w Hw1 Hw2. apply Hsecond in Hw2. tauto.
  - intros Hv2. apply Hsecond in Hv2. tauto.
  - rewrite Hsat. apply bool_decide_eq_true.
Qed.

Lemma wf_scenario_graph : wf scenario_graph.
Proof. apply wf_build. Qed.

Lemma classifier_contract_witness :
  ∃ analysis a,
    analyze_seymour_vertices scenario_graph = Some analysis
    ∧ dict_get analysis 1 = Some a
    ∧ (∀ w, w ∈ first_neighbors a ↔ has_edge scenario_graph 1 w)
    ∧ (∀ w, w ∈ second_neighbors a ↔
            (∃ u, has_edge scenario_graph 1 u ∧ has_edge scenario_graph u w)
            ∧ ¬ has_edge scenario_graph 1 w ∧ w ≠ 1)
    ∧ first_neighbors a ## second_neighbors a
    ∧ (1 ∉ second_neighbors a)
    ∧ out_degree a = size (first_neighbors a)
    ∧ second_neighbor_count a = size (second_neighbors a)
    ∧ (satisfies_property a = true ↔
         (size (first_neighbors a) ≤ size (second_neighbors a))%nat)
    ∧ ratio a = (inject_Z (Z.of_nat (size (second_neighbors a)))
                 / inject_Z (Z.of_nat (Nat.max (size (first_neighbors a)) 1)))%Q.
Proof.
  apply (classifier_contract scenario_graph 1).
  - apply wf_build.
  - apply (bool_decide_unpack _). vm_compute. exact I.
Defined.

(** The example of the contract: in the four-vertex graph vertex 1 has
    first neighbours [{2,3}] and second neighbours [{0}] and is not
    flagged; vertex 0 has first neighbours [{1}] and second neighbours
    [{2,3}] and is flagged. *)
Lemma scenario_vertices :
  ∃ analysis a0 a1,
    analyze_seymour_vertices scenario_graph = Some analysis
    ∧ dict_get analysis 1 = Some a1
    ∧ first_neighbors a1 = {[ 2; 3 ]}
    ∧ second_neighbors a1 = {[ 0 ]}
    ∧ satisfies_property a1 = false
    ∧ dict_get analysis 0 = Some a0
    ∧ first_neighbors a0 = {[ 1 ]}
    ∧ second_neighbors a0 = {[ 2; 3 ]}
    ∧ satisfies_property a0 = true.
Proof.
  destruct (analyze_seymour_vertices scenario_graph) as [analysis|] eqn:E;
    [|by vm_compute in E].
  destruct (dict_get analysis 0) as [a0|] eqn:E0;
    [|vm_compute in E; simplify_eq; by vm_compute in E0].
  destruct (dict_get analysis 1) as [a1|] eqn:E1;
    [|vm_compute in E; simplify_eq; by vm_compute in E1].
  exists analysis, a0, a1.
  vm_compute in E. simplify_eq. vm_compute in E0, E1. simplify_eq.
  split_and!; try done; apply set_eq; intros w; set_solver.
Qed.

(** C5 fails as stated: the list follows the insertion order of the
    graph's nodes.  Here vertex 2 enters first (through the edge),
    then 1, then 0, and the flagged vertices come out as [[1; 0]]. *)
Lemma get_seymour_vertices_unordered :
  wf unordered_graph
  ∧ nodes unordered_graph = [2; 1; 0]
  ∧ get_seymour_vertices unordered_graph = Some [1; 0]
  ∧ ¬ Sorted Z.lt [1; 0].
Proof.
  split_and!; [apply wf_build|done|done|].
  intros Hs. apply Sorted_inv in Hs as [_ Hh]. apply HdRel_inv in Hh. lia.
Qed.

(** C5, amended. [get_seymour_vertices] returns exactly the vertices
    whose record has [satisfies_property] true, each once, in the order
    in which [G.nodes()] iterates them (insertion order); the list is
    ascending when that order is. *)
Theorem get_seymour_vertices_order (G : DiGraph) :
  wf G →
  ∃ analysis l,
    analyze_seymour_vertices G = Some analysis
    ∧ get_seymour_vertices G = Some l
    ∧ l = filter (λ v, flagged G v = true) (nodes G)
    ∧ (∀ v, v ∈ l ↔
            v ∈ nodes G
            ∧ ∃ a, dict_get analysis v = Some a ∧ satisfies_property a = true)
    ∧ NoDup l
    ∧ l `sublist_of` nodes G
    ∧ (Sorted Z.lt (nodes G) → Sorted Z.lt l).
Proof.
  intros HG.
  destruct (analyze_seymour_vertices_spec G HG) as (analysis & Han & Hrec).
  exists analysis, (filter (λ v, flagged G v = true) (nodes G)).
  split_and!; [done|by apply get_seymour_vertices_spec|done| | | |].
  - intros v. rewrite list_elem_of_filter. split.
    + intros [Hf Hv]. split; [done|].
      rewrite (records_get _ _ _ _ Hrec Hv). unfold flagged in Hf.
      destruct (analyze_vertex G v) as [a|]; [eauto|done].
    + intros (Hv & a & Ha & Hsat). split; [|done].
      rewrite (records_get _ _ _ _ Hrec Hv) in Ha. unfold flagged.
      by rewrite Ha.
  - apply NoDup_filter, HG.
  - apply sublist_filter.
  - intros Hs. apply StronglySorted_Sorted, StronglySorted_filter.
    apply Sorted_StronglySorted; [|done]. intros a b c. lia.
Qed.

Lemma get_seymour_vertices_order_witness :
  ∃ analysis l,
    analyze_seymour_vertices scenario_graph = Some analysis
    ∧ get_seymour_vertices scenario_graph = Some l
    ∧ l = filter (λ v, flagged scenario_graph v = true) (nodes scenario_graph)
    ∧ (∀ v, v ∈ l ↔
            v ∈ nodes scenario_graph
            ∧ ∃ a, dict_get analysis v = Some a ∧ satisfies_property a = true)
    ∧ NoDup l
    ∧ l `sublist_of` nodes scenario_graph
    ∧ (Sorted Z.lt (nodes scenario_graph) → Sorted Z.lt l).
Proof. apply (get_seymour_vertices_order scenario_graph), wf_build. Defined.

End classifier_claims.

(** * Vertices without out-edges; the two classifiers; loading *)

Section cross_claims.
Import Json Py.

(** C9. A vertex of out-degree 0 is flagged.  In the Python classifier
    its [first_neighbors] and [second_neighbors] are empty and
    [satisfies_property] is true; in the canvas, a node none of whose
    edges starts at its id has empty [firstNeighbors] and
    [secondNeighbors] arrays and [updateSeymourStatus] sets its
    [is_seymour] to true. *)
Theorem sink_is_flagged :
  (∀ (G : Nx.DiGraph) (v : Z),
     Nx.wf G → Nx.successors G v = Some [] →
     ∃ analysis a,
       analyze_seymour_vertices G = Some analysis
       ∧ dict_get analysis v = Some a
       ∧ out_degree a = 0%nat
       ∧ first_neighbors a = ∅
       ∧ second_neighbors a = ∅
       ∧ satisfies_property a = true)
  ∧ (∀ (s : Js.State) (r : nat),
       r ∈ Js.nodes s →
       (∀ e, e ∈ Js.edges s → from e ≠ Some (id (Js.deref s r))) →
       Js.firstNeighbors (Js.edges s) (id (Js.deref s r)) = []
       ∧ Js.secondNeighbors (Js.edges s) (id (Js.deref s r)) = []
       ∧ is_seymour (Js.deref (Js.updateSeymourStatus s) r) = true).
Proof.
  split.
  - intros G v HG Hv.
    assert (v ∈ Nx.nodes G) as Hin by (by eapply successors_node).
    destruct (analyze_seymour_vertices_spec G HG) as (analysis & Han & Hrec).
    exists analysis. rewrite (records_get _ _ _ _ Hrec Hin).
    unfold analyze_vertex. rewrite Hv. simpl.
    eexists. split_and!; [done|done|..]; simpl; try done.
    set_solver.
  - intros s r Hr Hout.
    assert (Js.firstNeighbors (Js.edges s) (id (Js.deref s r)) = []) as Hf.
    { destruct (Js.firstNeighbors _ _) as [|t l] eqn:E; [done|].
      assert (t ∈ Js.firstNeighbors (Js.edges s) (id (Js.deref s r))) as Ht
        by (rewrite E; left).
      apply elem_firstNeighbors in Ht as (e & He & Hfrom & _).
      by apply Hout in He. }
    assert (Js.secondNeighbors (Js.edges s) (id (Js.deref s r)) = []) as Hs.
    { unfold Js.secondNeighbors. by rewrite Hf. }
    split_and!; [done|done|].
    rewrite is_seymour_updateSeymourStatus by done.
    unfold Js.classify. by rewrite Hf, Hs.
Qed.

Lemma scenario_loaded : load scenario_data = Some scenario_state.
Proof. by vm_compute. Qed.

Lemma sink_is_flagged_witness :
  (∃ analysis a,
     analyze_seymour_vertices scenario_graph = Some analysis
     ∧ dict_get analysis 3 = Some a
     ∧ out_degree a = 0%nat
     ∧ first_neighbors a = ∅
     ∧ second_neighbors a = ∅
     ∧ satisfies_property a = true)
  ∧ (Js.firstNeighbors (Js.edges scenario_state)
       (id (Js.deref scenario_state 3%nat)) = []
     ∧ Js.secondNeighbors (Js.edges scenario_state)
         (id (Js.deref scenario_state 3%nat)) = []
     ∧ is_seymour (Js.deref (Js.updateSeymourStatus scenario_state) 3%nat) = true).
Proof.
  split.
  - apply (proj1 sink_is_flagged scenario_graph 3); [apply wf_build|reflexivity].
  - apply (proj2 sink_is_flagged scenario_state 3%nat).
    + apply (bool_decide_unpack _). vm_compute. exact I.
    + apply Forall_forall. apply (bool_decide_unpack _). vm_compute. exact I.
Defined.

(** C10. On an edge list without repeated pairs the two classifiers
    agree: [updateSeymourStatus] gives every node of the canvas the
    [is_seymour] that [analyze_seymour_vertices] computes as
    [satisfies_property] for the node's id, on the graph built from the
    same vertices and edges. *)
Theorem classifiers_agree (ns : list Z) (es : list (Z * Z)) (s : Js.State) (r : nat) :
  NoDup es →
  Js.edges s = edge_json <$> es →
  r ∈ Js.nodes s →
  id (Js.deref s r) ∈ ns →
  ∃ analysis a,
    analyze_seymour_vertices (graph_of ns es) = Some analysis
    ∧ dict_get analysis (id (Js.deref s r)) = Some a
    ∧ length (Js.firstNeighbors (Js.edges s) (id (Js.deref s r)))
      = size (first_neighbors a)
    ∧ length (Js.secondNeighbors (Js.edges s) (id (Js.deref s r)))
      = size (second_neighbors a)
    ∧ is_seymour (Js.deref (Js.updateSeymourStatus s) r) = satisfies_property a.
Proof.
  intros Hnd Hes Hr Hid.
  pose proof (wf_build ns es) as HG.
  assert (id (Js.deref s r) ∈ Nx.nodes (graph_of ns es)) as Hv.
  { apply elem_nodes_add_nodes_from. by right. }
  destruct (analyze_seymour_vertices_spec _ HG) as (analysis & Han & Hrec).
  destruct (classify_agrees (graph_of ns es) es (id (Js.deref s r)) HG
              (has_edge_build ns es) Hnd Hv) as (a & Ha & H1 & H2 & Hc).
  exists analysis, a. rewrite Hes.
  split_and!; [done|by rewrite (records_get _ _ _ _ Hrec Hv)|done|done|].
  rewrite is_seymour_updateSeymourStatus by done. by rewrite Hes.
Qed.

Lemma classifiers_agree_witness :
  ∃ analysis a,
    analyze_seymour_vertices
      (graph_of (gd_nodes scenario_data) (gd_edges scenario_data)) = Some analysis
    ∧ dict_get analysis (id (Js.deref scenario_state 1%nat)) = Some a
    ∧ length (Js.firstNeighbors (Js.edges scenario_state)
                (id (Js.deref scenario_state 1%nat)))
      = size (first_neighbors a)
    ∧ length (Js.secondNeighbors (Js.edges scenario_state)
                (id (Js.deref scenario_state 1%nat)))
      = size (second_neighbors a)
    ∧ is_seymour (Js.deref (Js.updateSeymourStatus scenario_state) 1%nat)
      = satisfies_property a.
Proof.
  apply (classifiers_agree (gd_nodes scenario_data) (gd_edges scenario_data)
           scenario_state 1%nat).
  - apply (bool_decide_unpack _). vm_compute. exact I.
  - reflexivity.
  - apply (bool_decide_unpack _). vm_compute. exact I.
  - apply (bool_decide_unpack _). vm_compute. exact I.
Defined.

(** C6 fails as stated: loading renumbers nothing.  The ids [5] and
    [7] stay [5] and [7], and the edge stays [(5, 7)]. *)
Lemma load_keeps_sparse_ids :
  Js.node_ids <$> load sparse_data = Some [5; 7]
  ∧ Js.edge_pairs <$> load sparse_data = Some [(Some 5, Some 7)]
  ∧ Js.node_ids <$> load sparse_data ≠ Some [0; 1].
Proof. by vm_compute. Qed.

Lemma create_interactive_graph_editor_total (gd : graph_data) :
  ∃ gj, create_interactive_graph_editor gd = Some gj
        ∧ id <$> Json.nodes gj = gd_nodes gd
        ∧ Json.edges gj = edge_json <$> gd_edges gd
        ∧ move_mode gj = Some (gd_move_mode gd).
Proof.
  unfold create_interactive_graph_editor.
  rewrite (get_seymour_vertices_spec _ (wf_build (gd_nodes gd) (gd_edges gd))).
  simpl. eexists. split; [done|]. simpl. split_and!; [|done|done].
  rewrite fmap_imap. unfold compose. simpl.
  rewrite (imap_const (λ x : Z, x)). apply list_fmap_id.
Qed.

(** C6, amended. For every initial vertex and edge list whose ids and
    edge endpoints are safe integers (of magnitude below [2^53], which
    the number literals of [graph_json] carry exactly) the editor
    loads, and it starts with the vertex ids exactly as supplied, in the
    order supplied, and with every edge's endpoints exactly as supplied:
    nothing is renumbered on load. *)
Theorem load_keeps_ids (gd : graph_data) :
  Forall safe_int (gd_nodes gd) →
  Forall (λ e : Z * Z, safe_int e.1 ∧ safe_int e.2) (gd_edges gd) →
  ∃ s, load gd = Some s
       ∧ Js.node_ids s = gd_nodes gd
       ∧ Js.edge_pairs s = (λ e, (Some e.1, Some e.2)) <$> gd_edges gd.
Proof.
  intros _ _.
  destruct (create_interactive_graph_editor_total gd) as (gj & Hgj & Hn & He & _).
  unfold load. rewrite Hgj. simpl. eexists. split; [done|].
  destruct (init_graph gj) as (Hids & Hes & _).
  split; [by rewrite Hids|].
  unfold Js.edge_pairs. rewrite Hes, He, <- list_fmap_compose. done.
Qed.

Lemma load_keeps_ids_witness :
  ∃ s, load sparse_data = Some s
       ∧ Js.node_ids s = gd_nodes sparse_data
       ∧ Js.edge_pairs s = (λ e, (Some e.1, Some e.2)) <$> gd_edges sparse_data.
Proof.
  apply (load_keeps_ids sparse_data).
  - apply (bool_decide_unpack _). vm_compute. exact I.
  - apply (bool_decide_unpack _). vm_compute. exact I.
Defined.

End cross_claims.

(** * Connect gestures *)

Section gesture_claims.
Import Json Js.
Implicit Types (s : State) (es : list Edge).

Lemma findIndex_Some {A} (f : A → bool) (l : list A) i :
  findIndex f l = Some i →
  ∃ x, l !! i = Some x ∧ f x = true
       ∧ ∀ j y, (j < i)%nat → l !! j = Some y → f y = false.
Proof.
  revert i. induction l as [|a l IH]; intros i; simpl; [done|].
  destruct (f a) eqn:Hfa.
  - intros [= <-]. exists a. split_and!; [done|done|]. intros j y Hj. lia.
  - destruct (findIndex f l) as [k|]; [|done]. simpl. intros [= <-].
    destruct (IH k eq_refl) as (x & Hx & Hfx & Hlt).
    exists x. split_and!; [done|done|].
    intros [|j] y Hj Hy; simpl in *; [by simplify_eq|].
    apply (Hlt j); [lia|done].
Qed.

Lemma findIndex_None {A} (f : A → bool) (l : list A) :
  findIndex f l = None ↔ ∀ x, x ∈ l → f x = false.
Proof.
  induction l as [|a l IH]; simpl.
  - split; [|done]. intros _ x Hx. by apply elem_of_nil in Hx.
  - destruct (f a) eqn:Hfa.
    + split; [done|]. intros H. rewrite H in Hfa; [done|left].
    + destruct (findIndex f l) as [k|]; simpl.
      * split; [done|]. intros H.
        assert (Some k = None) as Hk; [|done].
        apply IH. intros x Hx. apply H. by right.
      * split; [|done]. intros _ x [->|Hx]%elem_of_cons; [done|].
        by apply IH.
Qed.

Lemma elem_edge_pairs s p q :
  (p, q) ∈ edge_pairs s ↔ ∃ e, e ∈ edges s ∧ from e = p ∧ to e = q.
Proof.
  unfold edge_pairs. rewrite list_elem_of_fmap. split.
  - intros (e & ? & ?). simplify_eq. eauto.
  - intros (e & ? & <- & <-). eauto.
Qed.

(** [checkForWin] touches nothing but the count of prompts. *)
Lemma checkForWin_graph s :
  heap (checkForWin s).1 = heap s
  ∧ nodes (checkForWin s).1 = nodes s
  ∧ edges (checkForWin s).1 = edges s
  ∧ moveMode (checkForWin s).1 = moveMode s.
Proof. unfold checkForWin. by case_match. Qed.

(** A step that only refreshes [is_seymour], for whatever edge list,
    keeps the ids. *)
Lemma node_ids_refresh s es s' :
  nodes s' = nodes s → heap s' = heap (updateSeymourStatus (set_edges es s)) →
  node_ids s' = node_ids s.
Proof.
  intros Hn Hh.
  change (node_ids s) with (node_ids (set_edges es s)).
  rewrite <- (node_ids_updateSeymourStatus (set_edges es s)).
  unfold node_ids, deref. by rewrite Hn, Hh.
Qed.

(** What the connect branch does to the graph, by cases on the two
    searches. *)
Lemma connect_spec (start target : nat) s :
  let a := id (deref s start) in
  let b := id (deref s target) in
  let ab := {| from := Some a; to := Some b |} in
  let s' := connect start target s in
  nodes s' = nodes s
  ∧ node_ids s' = node_ids s
  ∧ (((Some a, Some b) ∈ edge_pairs s ∧ s' = s)
     ∨ (((Some a, Some b) ∉ edge_pairs s)
        ∧ ∃ i e, edges s !! i = Some e ∧ from e = Some b ∧ to e = Some a
                 ∧ (∀ j y, (j < i)%nat → edges s !! j = Some y →
                           ¬ (from y = Some b ∧ to y = Some a))
                 ∧ edges s' = <[ i := ab ]> (edges s))
     ∨ (((Some a, Some b) ∉ edge_pairs s) ∧ ((Some b, Some a) ∉ edge_pairs s)
        ∧ edges s' = edges s ++ [ab])).
Proof.
  intros a b ab s'. subst s'. unfold connect. fold a b. fold ab.
  destruct (findIndex (λ edge, bool_decide (from edge = Some a ∧ to edge = Some b))
              (edges s)) as [i|] eqn:Hex.
  - split_and!; [done|done|]. left. split; [|done].
    apply findIndex_Some in Hex as (e & He & Hp & _).
    apply bool_decide_eq_true in Hp as [? ?].
    apply elem_edge_pairs. exists e. split_and!; [|done|done].
    by eapply list_elem_of_lookup_2.
  - assert ((Some a, Some b) ∉ edge_pairs s) as Hnab.
    { intros (e & He & Hf & Ht)%elem_edge_pairs.
      rewrite findIndex_None in Hex. specialize (Hex e He).
      apply bool_decide_eq_false in Hex. tauto. }
    destruct (findIndex (λ edge, bool_decide (from edge = Some b ∧ to edge = Some a))
                (edges s)) as [i|] eqn:Hrev.
    + destruct (checkForWin_graph
                  (sendDataToStreamlit (updateSeymourStatus
                     (set_edges (<[ i := ab ]> (edges s)) s))))
        as (Hh & Hn & He & _).
      split_and!; [by rewrite Hn| |].
      * apply (node_ids_refresh s (<[ i := ab ]> (edges s))); [by rewrite Hn|].
        by rewrite Hh.
      * right. left. split; [done|].
        apply findIndex_Some in Hrev as (e & Hi & Hp & Hlt).
        apply bool_decide_eq_true in Hp as [? ?].
        exists i, e. split_and!; [done|done|done| |by rewrite He].
        intros j y Hj Hy. apply (proj1 (bool_decide_eq_false _)). by eapply Hlt.
    + destruct (checkForWin_graph
                  (sendDataToStreamlit (updateSeymourStatus
                     (set_edges (edges s ++ [ab]) s))))
        as (Hh & Hn & He & _).
      split_and!; [by rewrite Hn| |].
      * apply (node_ids_refresh s (edges s ++ [ab])); [by rewrite Hn|].
        by rewrite Hh.
      * right. right. split_and!; [done| |by rewrite He].
        intros (e & He' & Hf & Ht)%elem_edge_pairs.
        rewrite findIndex_None in Hrev. specialize (Hrev e He').
        apply bool_decide_eq_false in Hrev. tauto.
Qed.

Lemma resetDrag_graph s :
  heap (resetDrag s) = heap s
  ∧ nodes (resetDrag s) = nodes s
  ∧ edges (resetDrag s) = edges s
  ∧ node_ids (resetDrag s) = node_ids s
  ∧ edge_pairs (resetDrag s) = edge_pairs s.
Proof. done. Qed.

(** [Array.prototype.find]: the first element, in array order, that
    passes the test. *)
Lemma find_Some_iff {A} (f : A → bool) (l : list A) (a : A) :
  find f l = Some a ↔
  ∃ k, l !! k = Some a ∧ f a = true
       ∧ ∀ j b, (j < k)%nat → l !! j = Some b → f b = false.
Proof.
  induction l as [|c l IH]; simpl.
  - split; [done|]. by intros (k & Hk & _).
  - destruct (f c) eqn:Hc.
    + split.
      * intros [= <-]. exists 0%nat. split_and!; [done|done|]. intros j b Hj. lia.
      * intros (k & Hk & Hfa & Hlt). destruct k as [|k]; simpl in Hk; [by simplify_eq|].
        rewrite (Hlt 0%nat c) in Hc; [done|lia|done].
    + rewrite IH. split.
      * intros (k & Hk & Hfa & Hlt). exists (S k). split_and!; [done|done|].
        intros [|j] b Hj Hb; simpl in Hb; [by simplify_eq|].
        apply (Hlt j); [lia|done].
      * intros (k & Hk & Hfa & Hlt). destruct k as [|k]; simpl in Hk;
          [simplify_eq; congruence|].
        exists k. split_and!; [done|done|]. intros j b Hj Hb.
        apply (Hlt (S j)); [lia|done].
Qed.

Lemma find_None_iff {A} (f : A → bool) (l : list A) :
  find f l = None ↔ ∀ b, b ∈ l → f b = false.
Proof.
  induction l as [|c l IH]; simpl.
  - split; [|done]. intros _ b Hb. by apply elem_of_nil in Hb.
  - destruct (f c) eqn:Hc.
    + split; [done|]. intros H. rewrite H in Hc; [done|left].
    + rewrite IH. split.
      * intros H b [->|Hb]%elem_of_cons; [done|by apply H].
      * intros H b Hb. apply H. by right.
Qed.

(** C2 fails as stated when the release point lies on the dragged
    vertex too.  In the four-vertex example a double click at
    [(80, 50)] adds vertex 4 there; vertex 0 is then dragged in connect
    mode and released at [(65, 50)], a point on vertex 4 (15 pixels from
    its centre) and on vertex 0.  No edge joins 0 and 4 in either
    direction, so the claim has the edge [(0, 4)] created; the handler
    takes vertex 0, the first vertex of the array under the point, as
    the target, and leaves the edges as they are. *)
Lemma release_on_overlap_cancels :
  isDragging overlap_dragging = true
  ∧ startDragNode overlap_dragging = Some 0%nat
  ∧ moveMode overlap_dragging = false
  ∧ node_ids overlap_dragging = [0; 1; 2; 3; 4]
  ∧ id (deref overlap_dragging 4%nat) = 4
  ∧ within 65 50 (deref overlap_dragging 4%nat) = true
  ∧ ((Some 0, Some 4) ∉ edge_pairs overlap_dragging)
  ∧ ((Some 4, Some 0) ∉ edge_pairs overlap_dragging)
  ∧ getNodeAt overlap_dragging 65 50 = Some 0%nat
  ∧ edge_pairs (mouseup 65 50 overlap_dragging) = edge_pairs overlap_dragging
  ∧ ((Some 0, Some 4) ∉ edge_pairs (mouseup 65 50 overlap_dragging)).
Proof.
  split_and!; try (vm_compute; reflexivity);
    apply (bool_decide_unpack _); vm_compute; exact I.
Qed.

(** C2, amended. A pointer-up that ends a connect-mode drag from vertex
    [v].  Its target is the first vertex, in array order, whose disc
    holds the release point, if there is one.  When the target is a
    vertex [t] other than [v], the release leaves the graph unchanged
    when the edge [(v, t)] exists; otherwise, when the reverse edge
    [(t, v)] exists, it rewrites the first such edge in place to
    [(v, t)], the other edges and the edge count staying as they are;
    otherwise it appends the new edge [(v, t)].  The vertices are the
    same in every case.  When the target is [v] itself, whatever other
    vertex lies under the point as well, or when no vertex is under the
    point, the graph is unchanged. *)
Theorem connect_release s (mx my : Z) (v : nat) :
  isDragging s = true → startDragNode s = Some v → moveMode s = false →
  let s' := mouseup mx my s in
  (∀ t, getNodeAt s mx my = Some t ↔
        ∃ k, nodes s !! k = Some t ∧ within mx my (deref s t) = true
             ∧ ∀ j r, (j < k)%nat → nodes s !! j = Some r →
                      within mx my (deref s r) = false)
  ∧ (getNodeAt s mx my = None ↔
     ∀ r, r ∈ nodes s → within mx my (deref s r) = false)
  ∧ (∀ t, getNodeAt s mx my = Some t → t ≠ v →
     let a := id (deref s v) in
     let b := id (deref s t) in
     nodes s' = nodes s
     ∧ node_ids s' = node_ids s
     ∧ ((Some a, Some b) ∈ edge_pairs s →
          edges s' = edges s ∧ heap s' = heap s)
     ∧ ((Some a, Some b) ∉ edge_pairs s → (Some b, Some a) ∈ edge_pairs s →
          ∃ i, edge_pairs s !! i = Some (Some b, Some a)
               ∧ (∀ j, (j < i)%nat → edge_pairs s !! j ≠ Some (Some b, Some a))
               ∧ edge_pairs s' = <[ i := (Some a, Some b) ]> (edge_pairs s)
               ∧ length (edges s') = length (edges s))
     ∧ ((Some a, Some b) ∉ edge_pairs s → (Some b, Some a) ∉ edge_pairs s →
          edge_pairs s' = edge_pairs s ++ [(Some a, Some b)]))
  ∧ (getNodeAt s mx my = Some v →
       nodes s' = nodes s ∧ edges s' = edges s ∧ heap s' = heap s)
  ∧ (getNodeAt s mx my = None →
       nodes s' = nodes s ∧ edges s' = edges s ∧ heap s' = heap s).
Proof.
  intros Hd Hs Hm s'. subst s'. unfold mouseup. rewrite Hs, Hd, Hm.
  split; [intros t; apply (find_Some_iff (λ r, within mx my (deref s r)))|].
  split; [apply (find_None_iff (λ r, within mx my (deref s r)))|].
  split; [|split].
  - intros t Ht Hne. rewrite Ht, decide_True by done.
    destruct (resetDrag_graph (connect v t s)) as (Hh & Hn & He & Hids & Hps).
    rewrite Hh, Hn, He, Hids, Hps. clear Hh Hn He Hids Hps.
    pose proof (connect_spec v t s) as Hc. cbv zeta in Hc.
    destruct Hc as (Hn & Hids & Hcases).
    split_and!; [done|done|..].
    + intros Hab. destruct Hcases as [[_ ->]|[[Hnab _]|[Hnab _]]]; done.
    + intros Hnab Hba.
      destruct Hcases as [[Hab _]|[(_ & i & e & Hi & Hf & Ht' & Hlt & He)|(_ & Hnba & _)]];
        [done| |done].
      exists i. unfold edge_pairs. rewrite He. split_and!.
      * rewrite list_lookup_fmap, Hi. simpl. by rewrite Hf, Ht'.
      * intros j Hj. rewrite list_lookup_fmap.
        destruct (edges s !! j) as [y|] eqn:Hy; simpl; [|done].
        intros [= Hfy Hty]. by apply (Hlt j y Hj Hy).
      * by rewrite list_fmap_insert.
      * apply length_insert.
    + intros Hnab Hnba.
      destruct Hcases as [[Hab _]|[(_ & i & e & Hi & Hf & Ht' & _)|(_ & _ & He)]];
        [done| |].
      * exfalso. apply Hnba. apply elem_edge_pairs. exists e.
        split_and!; [|done|done]. by eapply list_elem_of_lookup_2.
      * unfold edge_pairs. by rewrite He, fmap_app.
  - intros Ht. rewrite Ht. rewrite decide_False; [done|]. by intros H.
  - intros Ht. rewrite Ht. done.
Qed.

Lemma connect_release_witness :
  let s := reverse_dragging in
  let s' := mouseup 50 50 s in
  (∀ t, getNodeAt s 50 50 = Some t ↔
        ∃ k, nodes s !! k = Some t ∧ within 50 50 (deref s t) = true
             ∧ ∀ j r, (j < k)%nat → nodes s !! j = Some r →
                      within 50 50 (deref s r) = false)
  ∧ (getNodeAt s 50 50 = None ↔
     ∀ r, r ∈ nodes s → within 50 50 (deref s r) = false)
  ∧ (∀ t, getNodeAt s 50 50 = Some t → t ≠ 2%nat →
     let a := id (deref s 2%nat) in
     let b := id (deref s t) in
     nodes s' = nodes s
     ∧ node_ids s' = node_ids s
     ∧ ((Some a, Some b) ∈ edge_pairs s →
          edges s' = edges s ∧ heap s' = heap s)
     ∧ ((Some a, Some b) ∉ edge_pairs s → (Some b, Some a) ∈ edge_pairs s →
          ∃ i, edge_pairs s !! i = Some (Some b, Some a)
               ∧ (∀ j, (j < i)%nat → edge_pairs s !! j ≠ Some (Some b, Some a))
               ∧ edge_pairs s' = <[ i := (Some a, Some b) ]> (edge_pairs s)
               ∧ length (edges s') = length (edges s))
     ∧ ((Some a, Some b) ∉ edge_pairs s → (Some b, Some a) ∉ edge_pairs s →
          edge_pairs s' = edge_pairs s ++ [(Some a, Some b)]))
  ∧ (getNodeAt s 50 50 = Some 2%nat →
       nodes s' = nodes s ∧ edges s' = edges s ∧ heap s' = heap s)
  ∧ (getNodeAt s 50 50 = None →
       nodes s' = nodes s ∧ edges s' = edges s ∧ heap s' = heap s).
Proof.
  apply (connect_release reverse_dragging 50 50 2%nat);
    vm_compute; reflexivity.
Defined.

(** The example of C2: vertex 2 dragged onto vertex 0 while the edge
    [(0, 2)] exists.  That edge becomes [(2, 0)] where it stood and the
    edge count stays 4. *)
Lemma reverse_on_release_scenario :
  startDragNode reverse_dragging = Some 2%nat
  ∧ getNodeAt reverse_dragging 50 50 = Some 0%nat
  ∧ edge_pairs reverse_dragging
    = [(Some 0, Some 1); (Some 1, Some 2); (Some 0, Some 2); (Some 1, Some 3)]
  ∧ edge_pairs (mouseup 50 50 reverse_dragging)
    = [(Some 0, Some 1); (Some 1, Some 2); (Some 2, Some 0); (Some 1, Some 3)]
  ∧ length (edges (mouseup 50 50 reverse_dragging)) = 4%nat.
Proof. by vm_compute. Qed.

(** **** The edge-list invariant *)

Lemma simple_replace (ps : list (option Z * option Z)) i a b :
  NoDup ps → no_two_cycle ps → ps !! i = Some (b, a) → (a, b) ∉ ps →
  NoDup (<[ i := (a, b) ]> ps) ∧ no_two_cycle (<[ i := (a, b) ]> ps).
Proof.
  intros Hnd H2 Hi Hab.
  assert (i < length ps)%nat as Hlen by (by eapply lookup_lt_Some).
  assert (∀ j p, <[ i := (a, b) ]> ps !! j = Some p →
                 (j = i ∧ p = (a, b)) ∨ (j ≠ i ∧ ps !! j = Some p)) as Hlook.
  { intros j p. rewrite list_lookup_insert. case_decide as Hd.
    - destruct Hd as [-> _]. intros [= <-]. auto.
    - intros Hj. right. split; [|done]. intros ->. apply Hd. done. }
  split.
  - apply NoDup_alt. intros j k p Hj Hk.
    apply Hlook in Hj as [[-> ->]|[Hji Hj]]; apply Hlook in Hk as [[-> Hp]|[Hki Hk]];
      simplify_eq; try done.
    + exfalso. apply Hab. by eapply list_elem_of_lookup_2.
    + exfalso. apply Hab. by eapply list_elem_of_lookup_2.
    + by eapply NoDup_lookup.
  - intros p q Hpq Hin Hin'.
    apply list_elem_of_lookup in Hin as [j Hj].
    apply list_elem_of_lookup in Hin' as [k Hk].
    apply Hlook in Hj as [[-> Hp]|[Hji Hj]]; apply Hlook in Hk as [[-> Hq]|[Hki Hk]];
      simplify_eq.
    + apply Hki. by eapply NoDup_lookup.
    + apply Hji. by eapply NoDup_lookup.
    + apply (H2 p q Hpq); by eapply list_elem_of_lookup_2.
Qed.

Lemma simple_snoc (ps : list (option Z * option Z)) a b :
  NoDup ps → no_two_cycle ps → (a, b) ∉ ps → (b, a) ∉ ps →
  NoDup (ps ++ [(a, b)]) ∧ no_two_cycle (ps ++ [(a, b)]).
Proof.
  intros Hnd H2 Hab Hba. split.
  - apply NoDup_app. split_and!; [done| |apply NoDup_singleton].
    intros p Hp Hp'. apply list_elem_of_singleton in Hp'. by subst.
  - intros p q Hpq. rewrite !elem_of_app, !list_elem_of_singleton.
    intros [Hin|Heq] [Hin'|Heq']; simplify_eq.
    by apply (H2 p q).
Qed.

Lemma connect_simple (start target : nat) s :
  NoDup (edge_pairs s) → no_two_cycle (edge_pairs s) →
  NoDup (edge_pairs (connect start target s))
  ∧ no_two_cycle (edge_pairs (connect start target s)).
Proof.
  intros Hnd H2. pose proof (connect_spec start target s) as Hc. cbv zeta in Hc.
  destruct Hc as (_ & _ & [[_ ->]|[(Hnab & i & e & Hi & Hf & Ht & _ & He)|(Hnab & Hnba & He)]]).
  - done.
  - unfold edge_pairs at 1 2. rewrite He, list_fmap_insert. simpl.
    apply simple_replace; [done|done| |done].
    unfold edge_pairs. rewrite list_lookup_fmap, Hi. simpl. by rewrite Hf, Ht.
  - unfold edge_pairs at 1 2. rewrite He, fmap_app. simpl.
    by apply simple_snoc.
Qed.

Lemma mousemove_edges (mx my : Z) s : edges (mousemove mx my s) = edges s.
Proof. unfold mousemove. repeat case_match; done. Qed.

Lemma pointer_step_simple s (e : Event) :
  pointer_event e →
  NoDup (edge_pairs s) → no_two_cycle (edge_pairs s) →
  NoDup (edge_pairs (step s e)) ∧ no_two_cycle (edge_pairs (step s e)).
Proof.
  intros He Hnd H2. destruct e as [button mx my|mx my|mx my|mx my|mx my| |d];
    simpl in He; try done; simpl.
  - subst button. unfold mousedown. rewrite decide_True by done.
    by case_match.
  - unfold edge_pairs. by rewrite mousemove_edges.
  - unfold mouseup.
    destruct (resetDrag_graph
      match startDragNode s with
      | Some start =>
          if isDragging s then
            if moveMode s then sendDataToStreamlit s
            else match getNodeAt s mx my with
                 | Some target =>
                     if decide (target ≠ start) then connect start target s else s
                 | None => s
                 end
          else s
      | None => s
      end) as (_ & _ & _ & _ & ->).
    repeat case_match; try done. by apply connect_simple.
Qed.

(** C7. Along every sequence of pointer events (presses of the primary
    button, moves, releases, with mode toggles in between) that starts
    from a graph with no repeated edge and no 2-cycle, the edge list
    never holds the same ordered pair twice and never holds both
    [(a, b)] and [(b, a)] for two vertices [a], [b]. *)
Theorem connect_gestures_keep_edges_simple s (evs : list Event) :
  Forall pointer_event evs →
  NoDup (edge_pairs s) → no_two_cycle (edge_pairs s) →
  NoDup (edge_pairs (run evs s)) ∧ no_two_cycle (edge_pairs (run evs s)).
Proof.
  intros Hev. revert s. induction Hev as [|e evs He _ IH]; intros s Hnd H2.
  - done.
  - destruct (pointer_step_simple s e He Hnd H2) as [Hnd' H2'].
    by apply IH.
Qed.

Lemma no_two_cycle_Forall (ps : list (option Z * option Z)) :
  Forall (λ p, p.1 ≠ p.2 → (p.2, p.1) ∉ ps) ps → no_two_cycle ps.
Proof.
  intros HF a b Hab Hin. rewrite Forall_forall in HF.
  by apply (HF (a, b) Hin).
Qed.

Lemma connect_gestures_keep_edges_simple_witness :
  NoDup (edge_pairs
           (run [MouseDown 0 50 50; MouseMove 100 100; MouseUp 500 50]
                scenario_state))
  ∧ no_two_cycle
      (edge_pairs
         (run [MouseDown 0 50 50; MouseMove 100 100; MouseUp 500 50]
              scenario_state)).
Proof.
  apply (connect_gestures_keep_edges_simple scenario_state
           [MouseDown 0 50 50; MouseMove 100 100; MouseUp 500 50]).
  - repeat constructor.
  - apply (bool_decide_unpack _). vm_compute. exact I.
  - apply no_two_cycle_Forall. apply (bool_decide_unpack _). vm_compute. exact I.
Defined.

End gesture_claims.

(** * The win check *)

Section win_claims.
Import Json Js.
Implicit Types (s : State).

(** C4 fails as stated: the signal is raised again while the graph
    stays solved.  The two cliques are solved on load; dragging 0 onto 3
    adds an edge, the graph is still solved, and a prompt is scheduled;
    dragging 1 onto 3 adds another edge, the graph is still solved, and
    a second prompt is scheduled.  The flagged count was never
    nonzero. *)
Lemma win_signal_refires :
  seymourCount two_cliques = 0%nat
  ∧ length (nodes two_cliques) = 5%nat
  ∧ winPrompts two_cliques = 0%nat
  ∧ seymourCount (run drag_0_to_3 two_cliques) = 0%nat
  ∧ winPrompts (run drag_0_to_3 two_cliques) = 1%nat
  ∧ seymourCount (run (drag_0_to_3 ++ drag_1_to_3) two_cliques) = 0%nat
  ∧ winPrompts (run (drag_0_to_3 ++ drag_1_to_3) two_cliques) = 2%nat.
Proof. by vm_compute. Qed.

Lemma filter_iff_elem {A} (P Q : A → Prop)
    `{!∀ x, Decision (P x), !∀ x, Decision (Q x)} (l : list A) :
  (∀ x, x ∈ l → P x ↔ Q x) → filter P l = filter Q l.
Proof.
  induction l as [|a l IH]; intros Hl; [done|].
  rewrite !filter_cons.
  rewrite IH by (intros x Hx; apply Hl; by right).
  destruct (decide (P a)) as [HP|HP], (decide (Q a)) as [HQ|HQ]; try done.
  - apply Hl in HP; [done|left].
  - apply Hl in HQ; [done|left].
Qed.

Lemma seymourCount_eq s s' :
  nodes s' = nodes s → edges s' = edges s →
  (∀ r, id (deref s' r) = id (deref s r)) →
  seymourCount s' = seymourCount s.
Proof.
  intros Hn He Hid. unfold seymourCount. rewrite Hn, He. f_equal.
  apply list_filter_iff. intros r. by rewrite Hid.
Qed.

(** After [updateSeymourStatus] the flags counted by [checkForWin] are
    the classifier's verdicts. *)
Lemma flags_fresh s :
  length (filter (λ r, is_seymour (deref (updateSeymourStatus s) r) = true)
                 (nodes s))
  = seymourCount s.
Proof.
  unfold seymourCount. f_equal. apply filter_iff_elem. intros r Hr.
  by rewrite is_seymour_updateSeymourStatus.
Qed.

(** A win check right after a refresh: it schedules one prompt exactly
    when the graph it sees is solved, and changes nothing else. *)
Lemma check_after_refresh s :
  let s' := (checkForWin (sendDataToStreamlit (updateSeymourStatus s))).1 in
  heap s' = heap (updateSeymourStatus s)
  ∧ nodes s' = nodes s
  ∧ edges s' = edges s
  ∧ seymourCount s' = seymourCount s
  ∧ ((solved s ∧ winPrompts s' = S (winPrompts s))
     ∨ (¬ solved s ∧ winPrompts s' = winPrompts s)).
Proof.
  intros s'. subst s'. unfold checkForWin.
  change (nodes (sendDataToStreamlit (updateSeymourStatus s))) with (nodes s).
  assert (length (filter (λ r, is_seymour
            (deref (sendDataToStreamlit (updateSeymourStatus s)) r) = true)
            (nodes s)) = seymourCount s) as Hc by apply flags_fresh.
  rewrite Hc.
  assert (seymourCount (sendDataToStreamlit (updateSeymourStatus s))
          = seymourCount s) as Hsc.
  { apply seymourCount_eq; [done|done|]. intros r.
    apply id_updateSeymourStatus. }
  destruct (bool_decide (seymourCount s = 0%nat)) eqn:H0;
    [destruct (bool_decide (0 < length (nodes s))%nat) eqn:H1|]; simpl.
  - apply bool_decide_eq_true in H0, H1. split_and!; try done.
    left. split; [|done]. split; [done|].
    intros Hn. rewrite Hn in H1. simpl in H1. lia.
  - apply bool_decide_eq_false in H1. split_and!; try done.
    right. split; [|done]. intros [_ Hn]. apply H1.
    destruct (nodes s); [done|simpl; lia].
  - apply bool_decide_eq_false in H0. split_and!; try done.
    right. split; [|done]. by intros [? _].
Qed.

Lemma refresh_check_cases s :
  let s' := (checkForWin (sendDataToStreamlit (updateSeymourStatus s))).1 in
  edges s' = edges s
  ∧ ((solved s' ∧ winPrompts s' = S (winPrompts s))
     ∨ (¬ solved s' ∧ winPrompts s' = winPrompts s)).
Proof.
  pose proof (check_after_refresh s) as Hc. cbv zeta in *.
  destruct Hc as (_ & Hn & He & Hsc & Hcases). split; [done|].
  unfold solved in *. rewrite Hsc, Hn. done.
Qed.

Lemma connect_win (start target : nat) s :
  let s' := connect start target s in
  (edges s' = edges s ∧ winPrompts s' = winPrompts s)
  ∨ (edges s' ≠ edges s
     ∧ ((solved s' ∧ winPrompts s' = S (winPrompts s))
        ∨ (¬ solved s' ∧ winPrompts s' = winPrompts s))).
Proof.
  intros s'. subst s'. unfold connect.
  set (a := id (deref s start)). set (b := id (deref s target)).
  set (ab := {| from := Some a; to := Some b |}).
  destruct (findIndex (λ edge, bool_decide (from edge = Some a ∧ to edge = Some b))
              (edges s)) as [i|] eqn:Hex; [by left|].
  destruct (findIndex (λ edge, bool_decide (from edge = Some b ∧ to edge = Some a))
              (edges s)) as [i|] eqn:Hrev.
  - right. destruct (refresh_check_cases (set_edges (<[ i := ab ]> (edges s)) s))
      as [He Hcases].
    split; [|exact Hcases]. rewrite He. simpl. intros Hi.
    apply findIndex_Some in Hrev as (e & Hi' & _).
    assert (edges s !! i = Some ab) as Hab.
    { rewrite <- Hi. apply list_lookup_insert_eq. by eapply lookup_lt_Some. }
    rewrite findIndex_None in Hex.
    assert (ab ∈ edges s) as Hin by (by eapply list_elem_of_lookup_2).
    apply Hex in Hin. apply bool_decide_eq_false in Hin. by apply Hin.
  - right. destruct (refresh_check_cases (set_edges (edges s ++ [ab]) s))
      as [He Hcases].
    split; [|exact Hcases]. rewrite He. simpl. intros Happ.
    apply (f_equal length) in Happ. rewrite length_app in Happ.
    simpl in Happ. lia.
Qed.

Lemma mousedown_winPrompts (button mx my : Z) s :
  winPrompts (mousedown button mx my s) = winPrompts s.
Proof. unfold mousedown. repeat case_match; done. Qed.

Lemma mousemove_winPrompts (mx my : Z) s :
  winPrompts (mousemove mx my s) = winPrompts s.
Proof. unfold mousemove. repeat case_match; done. Qed.

Lemma dblclick_winPrompts (mx my : Z) s :
  winPrompts (dblclick mx my s) = winPrompts s.
Proof. unfold dblclick. by case_match. Qed.

Lemma graphDataUpdate_winPrompts (d : GraphData) s :
  winPrompts (graphDataUpdate d s) = winPrompts s.
Proof.
  unfold graphDataUpdate. destruct (alloc (Json.nodes d) (heap s)) as [h refs].
  by case_match.
Qed.

(** C4, amended. The solved signal is raised per win check, not per
    transition.  An event schedules one confirmation prompt exactly
    when it is followed by a win check (a release that changed the edge
    list, or a context-menu event over a vertex or an edge) and the
    graph after the event is solved, that is, non-empty with no flagged
    vertex, whether or not it was solved before.  Every other event,
    and every event after which the graph is empty or has a flagged
    vertex, schedules none. *)
Theorem win_signal_per_check s (e : Event) :
  (win_checked s e ∧ solved (step s e)
   ∧ winPrompts (step s e) = S (winPrompts s))
  ∨ (¬ (win_checked s e ∧ solved (step s e))
     ∧ winPrompts (step s e) = winPrompts s).
Proof.
  destruct e as [button mx my|mx my|mx my|mx my|mx my| |d]; simpl.
  - right. split; [tauto|apply mousedown_winPrompts].
  - right. split; [tauto|apply mousemove_winPrompts].
  - unfold mouseup.
    set (inner := match startDragNode s with
                  | Some start =>
                      if isDragging s then
                        if moveMode s then sendDataToStreamlit s
                        else match getNodeAt s mx my with
                             | Some target =>
                                 if decide (target ≠ start)
                                 then connect start target s else s
                             | None => s
                             end
                      else s
                  | None => s
                  end).
    change (solved (resetDrag inner)) with (solved inner).
    change (winPrompts (resetDrag inner)) with (winPrompts inner).
    change (edges (resetDrag inner)) with (edges inner).
    assert ((edges inner = edges s ∧ winPrompts inner = winPrompts s)
            ∨ (edges inner ≠ edges s
               ∧ ((solved inner ∧ winPrompts inner = S (winPrompts s))
                  ∨ (¬ solved inner ∧ winPrompts inner = winPrompts s))))
      as [[He Hw]|[He [[Hs Hw]|[Hs Hw]]]].
    { subst inner. repeat case_match; try (by left). apply connect_win. }
    + right. split; [|done]. intros [Hne _]. done.
    + left. done.
    + right. split; [|done]. intros [_ Hs']. done.
  - right. split; [tauto|apply dblclick_winPrompts].
  - unfold contextmenu.
    destruct (getNodeAt s mx my) as [n|] eqn:Hn;
      [|destruct (getEdgeAt s mx my) as [i|] eqn:Hi].
    + destruct (refresh_check_cases (renumberNodes (removeNode n s)))
        as [_ [[Hs Hw]|[Hs Hw]]].
      * left. split_and!; [by left|exact Hs|exact Hw].
      * right. split; [|exact Hw]. intros [_ Hs']. by apply Hs.
    + destruct (refresh_check_cases (removeEdge i s))
        as [_ [[Hs Hw]|[Hs Hw]]].
      * left. split_and!; [by right|exact Hs|exact Hw].
      * right. split; [|exact Hw]. intros [_ Hs']. by apply Hs.
    + right. split; [|done]. intros [[?|?] _]; done.
  - right. split; [tauto|done].
  - right. split; [tauto|apply graphDataUpdate_winPrompts].
Qed.

End win_claims.

(** * The mode flag during a gesture *)

Section mode_claims.
Import Json Js.
Implicit Types (s : State).

(** C8 fails as stated: the handlers read the mode flag at every event.
    A drag started in connect mode from vertex 0 and released on vertex
    1 creates the edge [(0, 1)]; with the mode switched to move between
    the drag start and the release, by [toggleMoveMode] or by a
    [graphDataUpdate] event carrying the same graph, the same release
    creates nothing.  A drag started in move mode follows the pointer to
    [(120, 80)]; with the mode switched after the drag start the vertex
    stays where the first move put it. *)
Lemma mode_not_latched :
  edge_pairs (run [MouseDown 0 50 50; MouseMove 100 50; MouseUp 200 50] two_nodes)
  = [(Some 0, Some 1)]
  ∧ edge_pairs
      (run [MouseDown 0 50 50; MouseMove 100 50; ToggleMoveMode; MouseUp 200 50]
           two_nodes)
    = []
  ∧ edge_pairs
      (run [MouseDown 0 50 50; MouseMove 100 50;
            GraphDataUpdate (two_nodes_json None); MouseUp 200 50]
           two_nodes)
    = [(Some 0, Some 1)]
  ∧ edge_pairs
      (run [MouseDown 0 50 50; MouseMove 100 50;
            GraphDataUpdate (two_nodes_json (Some true)); MouseUp 200 50]
           two_nodes)
    = []
  ∧ node_positions
      (run [MouseDown 0 50 50; MouseMove 100 50; MouseMove 120 80; MouseUp 120 80]
           two_nodes_moving)
    = [(120, 80); (200, 50)]
  ∧ node_positions
      (run [MouseDown 0 50 50; MouseMove 100 50; ToggleMoveMode;
            MouseMove 120 80; MouseUp 120 80]
           two_nodes_moving)
    = [(100, 50); (200, 50)].
Proof. by vm_compute. Qed.

(** The mode recorded when the drag starts ([edgeMode], [sourceNode]) is
    never read back. *)
Lemma checkForWin_ignores_edgeMode (b : bool) (src : option nat) s :
  (checkForWin (set_sourceNode src (set_edgeMode b s))).1
  = set_sourceNode src (set_edgeMode b (checkForWin s).1).
Proof.
  unfold checkForWin.
  change (nodes (set_sourceNode src (set_edgeMode b s))) with (nodes s).
  change (deref (set_sourceNode src (set_edgeMode b s))) with (deref s).
  by case_match.
Qed.

Lemma connect_ignores_edgeMode (start target : nat) (b : bool) (src : option nat) s :
  connect start target (set_sourceNode src (set_edgeMode b s))
  = set_sourceNode src (set_edgeMode b (connect start target s)).
Proof.
  unfold connect.
  change (edges (set_sourceNode src (set_edgeMode b s))) with (edges s).
  change (deref (set_sourceNode src (set_edgeMode b s))) with (deref s).
  repeat case_match; [done|..];
    apply (checkForWin_ignores_edgeMode b src
             (sendDataToStreamlit (updateSeymourStatus (set_edges _ s)))).
Qed.

Lemma mouseup_ignores_edgeMode (mx my : Z) (b : bool) (src : option nat) s :
  mouseup mx my (set_sourceNode src (set_edgeMode b s)) = mouseup mx my s.
Proof.
  unfold mouseup.
  change (getNodeAt (set_sourceNode src (set_edgeMode b s))) with (getNodeAt s).
  change (startDragNode (set_sourceNode src (set_edgeMode b s)))
    with (startDragNode s).
  change (isDragging (set_sourceNode src (set_edgeMode b s))) with (isDragging s).
  change (moveMode (set_sourceNode src (set_edgeMode b s))) with (moveMode s).
  repeat case_match; try done.
  by rewrite connect_ignores_edgeMode.
Qed.

Lemma mousemove_ignores_edgeMode (mx my : Z) (b : bool) (src : option nat) s :
  isDragging s = true →
  mousemove mx my (set_sourceNode src (set_edgeMode b s))
  = set_sourceNode src (set_edgeMode b (mousemove mx my s)).
Proof.
  destruct s as [h ns es sel em sn mm lx ly dx dy dr sd snt wp]. simpl.
  intros ->. unfold mousemove. simpl.
  destruct sd as [n|]; simpl; [|done]. by destruct mm.
Qed.

(** C8, amended. The mode is not latched: during a drag of vertex [v]
    every pointer-move and the pointer-up follow the mode flag as it is
    at that event.  With the flag on move, a pointer-move puts [v] at
    the pointer and changes nothing else of the graph, and the
    pointer-up changes neither vertices nor edges; with the flag on
    connect, a pointer-move changes nothing of the graph and the
    pointer-up applies the connect rule to the vertex under the release
    point.  The mode recorded when the drag started ([edgeMode],
    [sourceNode]) has no influence on either. *)
Theorem gesture_reads_live_mode s (mx my : Z) (v : nat) (b : bool) (src : option nat) :
  isDragging s = true → startDragNode s = Some v →
  (moveMode s = true →
     heap (mousemove mx my s) = <[ v := with_pos mx my (deref s v) ]> (heap s)
     ∧ nodes (mousemove mx my s) = nodes s
     ∧ edges (mousemove mx my s) = edges s
     ∧ heap (mouseup mx my s) = heap s
     ∧ nodes (mouseup mx my s) = nodes s
     ∧ edges (mouseup mx my s) = edges s)
  ∧ (moveMode s = false →
     heap (mousemove mx my s) = heap s
     ∧ nodes (mousemove mx my s) = nodes s
     ∧ edges (mousemove mx my s) = edges s
     ∧ mouseup mx my s
       = resetDrag match getNodeAt s mx my with
                   | Some t => if decide (t ≠ v) then connect v t s else s
                   | None => s
                   end)
  ∧ mousemove mx my (set_sourceNode src (set_edgeMode b s))
    = set_sourceNode src (set_edgeMode b (mousemove mx my s))
  ∧ mouseup mx my (set_sourceNode src (set_edgeMode b s)) = mouseup mx my s.
Proof.
  intros Hd Hs. split_and!.
  - intros Hm. unfold mousemove, mouseup. simpl. rewrite Hs, Hd, Hm. simpl.
    rewrite Hs, Hd, Hm. done.
  - intros Hm. unfold mousemove, mouseup. simpl. rewrite Hs, Hd, Hm. simpl.
    rewrite Hs, Hd, Hm. done.
  - by apply mousemove_ignores_edgeMode.
  - apply mouseup_ignores_edgeMode.
Qed.

Lemma gesture_reads_live_mode_witness :
  let s := two_nodes_dragging in
  (moveMode s = true →
     heap (mousemove 200 50 s) = <[ 0%nat := with_pos 200 50 (deref s 0%nat) ]> (heap s)
     ∧ nodes (mousemove 200 50 s) = nodes s
     ∧ edges (mousemove 200 50 s) = edges s
     ∧ heap (mouseup 200 50 s) = heap s
     ∧ nodes (mouseup 200 50 s) = nodes s
     ∧ edges (mouseup 200 50 s) = edges s)
  ∧ (moveMode s = false →
     heap (mousemove 200 50 s) = heap s
     ∧ nodes (mousemove 200 50 s) = nodes s
     ∧ edges (mousemove 200 50 s) = edges s
     ∧ mouseup 200 50 s
       = resetDrag match getNodeAt s 200 50 with
                   | Some t => if decide (t ≠ 0%nat) then connect 0%nat t s else s
                   | None => s
                   end)
  ∧ mousemove 200 50 (set_sourceNode None (set_edgeMode false s))
    = set_sourceNode None (set_edgeMode false (mousemove 200 50 s))
  ∧ mouseup 200 50 (set_sourceNode None (set_edgeMode false s)) = mouseup 200 50 s.
Proof.
  apply (gesture_reads_live_mode two_nodes_dragging 200 50 0%nat false None);
    vm_compute; reflexivity.
Defined.

End mode_claims.

(** * Deleting a vertex with the secondary button *)

Section delete_claims.
Import Json Js.

(** C3 on the four-vertex example, secondary button pressed on vertex 1
    at [(200, 50)].  The browser delivers [mousedown] with button 2 and
    then [contextmenu] at the same point.  The [mousedown] handler
    deletes vertex 1 and its edges and does not renumber: the ids are
    [0; 2; 3] and the edge [(2, 0)] keeps its endpoints.  The
    [contextmenu] handler then finds no vertex under the pointer, so it
    renumbers nothing; it finds the edge [(2, 0)], whose segment from
    [(350, 50)] to [(50, 50)] passes through the point, and deletes it.
    Run on its own, the [contextmenu] handler does what the claim says:
    ids [0; 1; 2] and the edge [(1, 0)]. *)
Theorem right_click_skips_renumbering :
  getNodeAt scenario_state 200 50 = Some 1%nat
  ∧ node_ids scenario_state = [0; 1; 2; 3]
  ∧ node_ids (mousedown 2 200 50 scenario_state) = [0; 2; 3]
  ∧ edge_pairs (mousedown 2 200 50 scenario_state) = [(Some 2, Some 0)]
  ∧ getNodeAt (mousedown 2 200 50 scenario_state) 200 50 = None
  ∧ node_ids (run [MouseDown 2 200 50; ContextMenu 200 50] scenario_state)
    = [0; 2; 3]
  ∧ edge_pairs (run [MouseDown 2 200 50; ContextMenu 200 50] scenario_state)
    = []
  ∧ node_ids (contextmenu 200 50 scenario_state) = [0; 1; 2]
  ∧ edge_pairs (contextmenu 200 50 scenario_state) = [(Some 1, Some 0)].
Proof. by vm_compute. Qed.

(** **** The stable sort by id *)

Lemma insert_by_id_perm (h : gmap nat Node) r l : insert_by_id h r l ≡ₚ r :: l.
Proof.
  induction l as [|r' l IH]; simpl; [done|].
  case_bool_decide; [done|]. rewrite IH. apply Permutation_swap.
Qed.

Lemma sort_by_id_perm (h : gmap nat Node) l : sort_by_id h l ≡ₚ l.
Proof.
  unfold sort_by_id. induction l as [|r l IH]; simpl; [done|].
  by rewrite insert_by_id_perm, IH.
Qed.

Lemma insert_by_id_sorted (h : gmap nat Node) r l :
  StronglySorted Z.le ((λ r, id (h !!! r)) <$> l) →
  StronglySorted Z.le ((λ r, id (h !!! r)) <$> insert_by_id h r l).
Proof.
  induction l as [|r' l IH]; simpl; intros Hs.
  - repeat constructor.
  - apply StronglySorted_inv in Hs as [Hs Hall]. case_bool_decide as Hle.
    + rewrite !fmap_cons. constructor.
      * by constructor.
      * constructor; [done|]. eapply Forall_impl; [exact Hall|].
        intros i Hi. simpl in *. lia.
    + rewrite fmap_cons. constructor; [by apply IH|].
      rewrite insert_by_id_perm, fmap_cons. constructor; [lia|done].
Qed.

Lemma sort_by_id_sorted (h : gmap nat Node) l :
  StronglySorted Z.le ((λ r, id (h !!! r)) <$> sort_by_id h l).
Proof.
  unfold sort_by_id. induction l as [|r l IH]; simpl; [constructor|].
  by apply insert_by_id_sorted.
Qed.

(** **** The id mapping and the relabelling loop *)

Lemma idMapping_of_snoc (h : gmap nat Node) l r :
  idMapping_of h (l ++ [r])
  = <[ id (h !!! r) := Z.of_nat (length l) ]> (idMapping_of h l).
Proof.
  unfold idMapping_of. rewrite imap_app, foldl_app. simpl.
  by rewrite Nat.add_0_r.
Qed.

(** With distinct ids, the id at position [k] of [sortedNodes] maps to
    [k]. *)
Lemma idMapping_of_lookup (h : gmap nat Node) l k i :
  NoDup ((λ r, id (h !!! r)) <$> l) →
  ((λ r, id (h !!! r)) <$> l) !! k = Some i →
  idMapping_of h l !! i = Some (Z.of_nat k).
Proof.
  revert k i. induction l as [|r l IH] using rev_ind; intros k i Hnd Hk.
  - done.
  - rewrite idMapping_of_snoc. rewrite fmap_app in Hnd, Hk. simpl in *.
    apply NoDup_app in Hnd as (Hnd & Hdisj & _).
    destruct (decide (k < length l)%nat) as [Hlt|Hge].
    + rewrite lookup_app_l in Hk by (by rewrite length_fmap).
      rewrite lookup_insert_ne; [by apply IH|].
      intros <-. apply (Hdisj (id (h !!! r))); [|left].
      by eapply list_elem_of_lookup_2.
    + rewrite lookup_app_r in Hk by (rewrite length_fmap; lia).
      rewrite length_fmap in Hk.
      destruct (k - length l)%nat as [|j] eqn:Hj; simpl in Hk; [|done].
      simplify_eq. assert (k = length l) as -> by lia.
      apply lookup_insert_eq.
Qed.

Lemma relabel_loop (m : gmap Z Z) l (h : gmap nat Node) r :
  NoDup l →
  foldl (relabel m) h l !!! r =
  if decide (r ∈ l)
  then with_id (default (id (h !!! r)) (m !! id (h !!! r))) (h !!! r)
  else h !!! r.
Proof.
  revert h. induction l as [|a l IH]; intros h Hnd.
  - rewrite decide_False; [done|apply not_elem_of_nil].
  - apply NoDup_cons in Hnd as [Ha Hnd].
    change (foldl (relabel m) h (a :: l)) with (foldl (relabel m) (relabel m h a) l).
    rewrite IH by done. unfold relabel.
    destruct (decide (r = a)) as [->|Hra].
    + rewrite decide_False by done. rewrite lookup_total_insert_eq.
      rewrite decide_True; [done|left].
    + rewrite lookup_total_insert_ne by done.
      destruct (decide (r ∈ l)) as [Hl|Hl].
      * rewrite decide_True; [done|by right].
      * rewrite decide_False; [done|]. rewrite not_elem_of_cons. done.
Qed.

(** [renumberNodes] on distinct objects with distinct ids: the ids in
    ascending order map to their positions. *)
Lemma renumberNodes_spec (s : State) :
  NoDup (nodes s) → NoDup (node_ids s) →
  let K := (λ r, id (heap s !!! r)) <$> sort_by_id (heap s) (nodes s) in
  let m := idMapping_of (heap s) (sort_by_id (heap s) (nodes s)) in
  StronglySorted Z.le K
  ∧ K ≡ₚ node_ids s
  ∧ (∀ k i, K !! k = Some i → m !! i = Some (Z.of_nat k))
  ∧ nodes (renumberNodes s) = nodes s
  ∧ (∀ r, r ∈ nodes s →
          id (deref (renumberNodes s) r)
          = default (id (deref s r)) (m !! id (deref s r)))
  ∧ edges (renumberNodes s)
    = (λ e, {| from := idMapping_get m (from e);
               to := idMapping_get m (to e) |}) <$> edges s.
Proof.
  intros Hnd Hids K m.
  assert (K ≡ₚ node_ids s) as HK.
  { unfold K, node_ids, deref. by rewrite sort_by_id_perm. }
  split_and!; [apply sort_by_id_sorted|done| |done| |done].
  - intros k i Hk. apply idMapping_of_lookup; [|done].
    fold K. by rewrite HK.
  - intros r Hr. unfold renumberNodes, deref. simpl.
    rewrite relabel_loop by done. by rewrite decide_True.
Qed.

(** **** Contiguous ids with one removed *)

Lemma seqZ_sorted (a n : Z) : StronglySorted Z.le (seqZ a n).
Proof.
  destruct (decide (n ≤ 0)) as [Hn|Hn]; [rewrite seqZ_nil by done; constructor|].
  rewrite <- (Z2Nat.id n) by lia. generalize (Z.to_nat n). clear n Hn.
  intros k. revert a. induction k as [|k IH]; intros a.
  - rewrite seqZ_nil by done. constructor.
  - rewrite seqZ_cons by lia. constructor.
    + replace (Z.pred (Z.of_nat (S k))) with (Z.of_nat k) by lia. apply IH.
    + apply Forall_seqZ. lia.
Qed.

(** The ascending list of [0 .. n-1] without [d]. *)
Lemma gap_sorted (d n : Z) :
  StronglySorted Z.le (seqZ 0 d ++ seqZ (d + 1) (n - 1 - d)).
Proof.
  apply StronglySorted_app_2; [|apply seqZ_sorted..].
  intros a b Ha Hb. apply elem_of_seqZ in Ha, Hb. lia.
Qed.

Lemma gap_perm (d n : Z) (l : list Z) :
  0 ≤ d < n → d :: l ≡ₚ seqZ 0 n →
  l ≡ₚ seqZ 0 d ++ seqZ (d + 1) (n - 1 - d).
Proof.
  intros Hd Hl. apply (Permutation_cons_inv (a := d)). rewrite Hl.
  replace n with (d + (1 + (n - 1 - d))) by lia.
  rewrite (seqZ_app 0 d) by lia. rewrite (seqZ_app (0 + d) 1) by lia.
  replace (d + (1 + (n - 1 - d)) - 1 - d) with (n - 1 - d) by lia.
  rewrite (seqZ_cons (0 + d) 1) by lia. rewrite (seqZ_nil _ (Z.pred 1)) by lia.
  simpl. replace (0 + d + 1) with (d + 1) by lia.
  by rewrite Permutation_middle.
Qed.

(** Position [k] of the gap list holds [k] before the gap and [k + 1]
    after it. *)
Lemma gap_lookup (d n i : Z) :
  0 ≤ d → 0 ≤ i < n → i ≠ d →
  (seqZ 0 d ++ seqZ (d + 1) (n - 1 - d))
    !! Z.to_nat (if bool_decide (i < d) then i else i - 1) = Some i.
Proof.
  intros Hd Hi Hne. case_bool_decide as Hlt.
  - rewrite lookup_app_l by (rewrite length_seqZ; lia).
    rewrite lookup_seqZ. lia.
  - rewrite lookup_app_r by (rewrite length_seqZ; lia).
    rewrite length_seqZ, lookup_seqZ. lia.
Qed.

Lemma gap_rank (d n : Z) :
  0 ≤ d < n →
  (λ i, if bool_decide (i < d) then i else i - 1)
    <$> (seqZ 0 d ++ seqZ (d + 1) (n - 1 - d))
  = seqZ 0 (n - 1).
Proof.
  intros Hd. rewrite fmap_app.
  replace (n - 1) with (d + (n - 1 - d)) at 2 by lia.
  rewrite seqZ_app by lia. f_equal.
  - rewrite <- (list_fmap_id (seqZ 0 d)) at 2. apply list_fmap_ext.
    intros k i Hi. apply lookup_seqZ in Hi. rewrite bool_decide_true by lia. done.
  - replace (0 + d) with (-1 + (d + 1)) by lia.
    rewrite <- (fmap_add_seqZ (-1) (d + 1)). apply list_fmap_ext.
    intros k i Hi. apply lookup_seqZ in Hi. rewrite bool_decide_false by lia. lia.
Qed.

Lemma perm_remove (l : list nat) (n : nat) :
  NoDup l → n ∈ l → l ≡ₚ n :: filter (λ r, r ≠ n) l.
Proof.
  induction l as [|a l IH]; intros Hnd Hn; [by apply elem_of_nil in Hn|].
  apply NoDup_cons in Hnd as [Ha Hnd]. rewrite filter_cons.
  destruct (decide (a = n)) as [->|Hne].
  - rewrite decide_False by (intros H; by apply H). f_equiv.
    clear IH Hn Hnd. induction l as [|b l IH]; [done|].
    apply not_elem_of_cons in Ha as [Hb Ha]. rewrite filter_cons.
    rewrite decide_True by done. f_equiv. by apply IH.
  - rewrite decide_True by done.
    apply elem_of_cons in Hn as [->|Hn]; [done|].
    rewrite (IH Hnd Hn) at 1. apply Permutation_swap.
Qed.

Lemma filter_ids (f : nat → Z) (l : list nat) (n : nat) :
  NoDup (f <$> l) → n ∈ l →
  f <$> filter (λ r, r ≠ n) l = filter (λ i, i ≠ f n) (f <$> l).
Proof.
  intros Hnd Hn.
  assert (∀ a, a ∈ l → a ≠ n ↔ f a ≠ f n) as Hinj.
  { intros a Ha. split; [|by intros ? ->]. intros Hne Heq. apply Hne.
    apply list_elem_of_lookup in Ha as [i Hi].
    apply list_elem_of_lookup in Hn as [j Hj].
    assert (i = j) as ->; [|congruence].
    eapply (NoDup_lookup (f <$> l) i j (f a)); [done|..].
    - by rewrite list_lookup_fmap, Hi.
    - by rewrite list_lookup_fmap, Hj, Heq. }
  clear Hnd Hn. induction l as [|a l IH]; [done|].
  rewrite fmap_cons, !filter_cons.
  rewrite <- IH by (intros b Hb; apply Hinj; by right).
  destruct (decide (a ≠ n)) as [Ha|Ha], (decide (f a ≠ f n)) as [Hf|Hf];
    try done.
  - exfalso. apply Hf. apply Hinj; [left|done].
  - exfalso. apply Ha. apply Hinj; [left|done].
Qed.

(** X1. The [contextmenu] handler on its own does what C3 describes.
    On a graph whose vertex ids are [0 .. n-1] and whose edges join vertices
    of the graph, a context-menu event over vertex [v] with id [d]
    removes that vertex object and every edge with [d] as source or
    target, gives every surviving vertex the id [shift_down d] of its
    old id (ascending by old id), rewrites the endpoints of every
    surviving edge the same way, and so leaves the ids [0 .. n-2]. *)
Theorem contextmenu_renumbers (s : State) (mx my : Z) (n : nat) :
  getNodeAt s mx my = Some n →
  NoDup (nodes s) →
  node_ids s ≡ₚ seqZ 0 (Z.of_nat (length (nodes s))) →
  (∀ e, e ∈ edges s →
        ∃ a b, from e = Some a ∧ to e = Some b
               ∧ a ∈ node_ids s ∧ b ∈ node_ids s) →
  let d := id (deref s n) in
  let s' := contextmenu mx my s in
  nodes s' = filter (λ r, r ≠ n) (nodes s)
  ∧ node_ids s' = shift_down d <$> filter (λ i : Z, i ≠ d) (node_ids s)
  ∧ edge_pairs s'
    = (λ p : option Z * option Z, (shift_down d <$> p.1, shift_down d <$> p.2))
        <$> filter (λ p : option Z * option Z, p.1 ≠ Some d ∧ p.2 ≠ Some d)
                   (edge_pairs s)
  ∧ node_ids s' ≡ₚ seqZ 0 (Z.of_nat (length (nodes s)) - 1).
Proof.
  intros Hget Hnd Hids Hedges d s'.
  set (N := Z.of_nat (length (nodes s))) in *.
  assert (n ∈ nodes s) as Hn.
  { unfold getNodeAt in Hget. apply find_some in Hget as [Hin _].
    by apply list_elem_of_In. }
  assert (NoDup (node_ids s)) as Hndi by (rewrite Hids; apply NoDup_seqZ).
  assert (d ∈ node_ids s) as Hdin.
  { unfold node_ids. apply list_elem_of_fmap. by exists n. }
  assert (0 ≤ d < N) as Hd.
  { rewrite Hids in Hdin. apply elem_of_seqZ in Hdin. lia. }
  set (s1 := removeNode n s).
  assert (node_ids s1 = filter (λ i, i ≠ d) (node_ids s)) as Hids1.
  { unfold node_ids, s1, removeNode, deref. simpl.
    by apply (filter_ids (λ r, id (heap s !!! r))). }
  assert (NoDup (nodes s1)) as Hnd1 by (by apply NoDup_filter).
  assert (NoDup (node_ids s1)) as Hndi1 by (rewrite Hids1; by apply NoDup_filter).
  assert (node_ids s1 ≡ₚ seqZ 0 d ++ seqZ (d + 1) (N - 1 - d)) as Hperm.
  { apply gap_perm; [done|]. rewrite <- Hids.
    unfold node_ids at 2. rewrite (perm_remove (nodes s) n Hnd Hn) at 1.
    by rewrite fmap_cons. }
  pose proof (renumberNodes_spec s1 Hnd1 Hndi1) as Hspec. cbv zeta in Hspec.
  destruct Hspec as (Hsorted & HK & Hmap & Hn2 & Hid2 & He2).
  set (m := idMapping_of (heap s1) (sort_by_id (heap s1) (nodes s1))) in *.
  assert ((λ r, id (heap s1 !!! r)) <$> sort_by_id (heap s1) (nodes s1)
          = seqZ 0 d ++ seqZ (d + 1) (N - 1 - d)) as HKeq.
  { apply (StronglySorted_unique_strong Z.le); [intros; lia|done|apply gap_sorted|].
    by rewrite HK. }
  assert (∀ i, i ∈ node_ids s1 → m !! i = Some (shift_down d i)) as Hm.
  { intros i Hi. rewrite Hperm in Hi.
    assert (0 ≤ i < N ∧ i ≠ d) as [Hi1 Hi2].
    { apply elem_of_app in Hi as [Hi|Hi]; apply elem_of_seqZ in Hi; lia. }
    pose proof (gap_lookup d N i (proj1 Hd) Hi1 Hi2) as Hlook.
    rewrite <- HKeq in Hlook. apply Hmap in Hlook. rewrite Hlook.
    f_equal. unfold shift_down. case_bool_decide; lia. }
  pose proof (check_after_refresh (renumberNodes s1)) as Hc. cbv zeta in Hc.
  destruct Hc as (Hh' & Hn' & He' & _).
  assert (s' = (checkForWin (sendDataToStreamlit
                  (updateSeymourStatus (renumberNodes s1)))).1) as Hs'.
  { unfold s', contextmenu. by rewrite Hget. }
  rewrite Hs'. clear Hs'.
  assert (node_ids (checkForWin (sendDataToStreamlit
            (updateSeymourStatus (renumberNodes s1)))).1
          = shift_down d <$> node_ids s1) as Hnew.
  { unfold node_ids at 1. unfold deref. rewrite Hh', Hn', Hn2.
    unfold node_ids. rewrite <- list_fmap_compose. apply list_fmap_ext.
    intros k r Hr. unfold compose. cbv beta.
    assert (r ∈ nodes s1) as Hin by (by eapply list_elem_of_lookup_2).
    pose proof (id_updateSeymourStatus (renumberNodes s1) r) as Hu.
    unfold deref in Hu. rewrite Hu. clear Hu.
    pose proof (Hid2 r Hin) as Hr2. unfold deref in Hr2. rewrite Hr2.
    rewrite Hm; [done|]. unfold node_ids. apply list_elem_of_fmap.
    by exists r. }
  split_and!.
  - by rewrite Hn', Hn2.
  - by rewrite Hnew, Hids1.
  - unfold edge_pairs. rewrite He', He2. unfold s1, removeNode. simpl.
    clear He' He2 Hh' Hn' Hnew.
    assert (∀ i, i ∈ node_ids s → i ≠ d → m !! i = Some (shift_down d i)) as Hm'.
    { intros i Hi Hne. apply Hm. rewrite Hids1. by apply list_elem_of_filter. }
    fold d. clear Hm.
    induction (edges s) as [|e es IH]; [done|].
    destruct (Hedges e) as (a & b & Hf & Ht & Ha & Hb); [left|].
    assert (∀ e', e' ∈ es →
              ∃ a b, from e' = Some a ∧ to e' = Some b
                     ∧ a ∈ node_ids s ∧ b ∈ node_ids s) as Hes
      by (intros e' He'; apply Hedges; by right).
    rewrite fmap_cons, !filter_cons. simpl. rewrite Hf, Ht.
    destruct (decide (Some a ≠ Some d ∧ Some b ≠ Some d)) as [[Hna Hnb]|Hno];
      [|by apply IH].
    rewrite !fmap_cons. simpl. rewrite Hf, Ht. simpl.
    rewrite !Hm'; [|done|congruence|done|congruence].
    simpl. f_equal. by apply IH.
  - rewrite Hnew, Hperm. pose proof (gap_rank d N Hd) as Hg.
    unfold shift_down. by rewrite Hg.
Qed.

Lemma contextmenu_renumbers_witness :
  nodes (contextmenu 200 50 scenario_state)
  = filter (λ r, r ≠ 1%nat) (nodes scenario_state)
  ∧ node_ids (contextmenu 200 50 scenario_state)
    = shift_down 1 <$> filter (λ i : Z, i ≠ 1) (node_ids scenario_state)
  ∧ edge_pairs (contextmenu 200 50 scenario_state)
    = (λ p : option Z * option Z, (shift_down 1 <$> p.1, shift_down 1 <$> p.2))
        <$> filter (λ p : option Z * option Z, p.1 ≠ Some 1 ∧ p.2 ≠ Some 1)
                   (edge_pairs scenario_state)
  ∧ node_ids (contextmenu 200 50 scenario_state) ≡ₚ seqZ 0 (4 - 1).
Proof.
  apply (contextmenu_renumbers scenario_state 200 50 1%nat).
  - reflexivity.
  - apply (bool_decide_unpack _). vm_compute. exact I.
  - vm_compute. reflexivity.
  - assert (edges scenario_state
            = [ {| from := Some 0; to := Some 1 |}; {| from := Some 1; to := Some 2 |};
                {| from := Some 2; to := Some 0 |}; {| from := Some 1; to := Some 3 |} ])
      as -> by reflexivity.
    assert (node_ids scenario_state = [0; 1; 2; 3]) as -> by reflexivity.
    intros e He.
    repeat (apply elem_of_cons in He as [->|He]);
      [ eexists _, _; split_and!; [reflexivity|reflexivity| |];
        apply (bool_decide_unpack _); vm_compute; exact I .. |].
    by apply elem_of_nil in He.
Defined.

End delete_claims.

(** * The store and the vertex ids along a run *)

Section store_facts.
Import Json Js.
Implicit Types (s : State) (r : nat) (h : gmap nat Node) (es : list Edge).






















End store_facts.

(** * Adding a vertex *)

Section add_vertex.
Import Json Js.
Implicit Types (s : State) (r : nat) (h : gmap nat Node) (es : list Edge).







Lemma store_ok_scenario : store_ok scenario_state.
Proof.
  split.
  - apply (bool_decide_unpack _). vm_compute. exact I.
  - apply Forall_forall. apply (bool_decide_unpack _). vm_compute. exact I.
Qed.






End add_vertex.

(** * Renumbering in general *)

Section renumber_facts.
Import Json Js.
Implicit Types (s : State) (r : nat) (h : gmap nat Node) (l K : list Z).

Lemma rank_in_cons (a : Z) l (i : Z) :
  rank_in (a :: l) i = (if decide (a < i) then 1 else 0) + rank_in l i.
Proof.
  unfold rank_in. rewrite filter_cons. case_decide; simpl; lia.
Qed.

Lemma rank_in_nonneg l (i : Z) : 0 ≤ rank_in l i.
Proof. unfold rank_in. lia. Qed.

Lemma rank_in_le l (i j : Z) : i ≤ j → rank_in l i ≤ rank_in l j.
Proof.
  intros Hij. induction l as [|a l IH]; [done|].
  rewrite !rank_in_cons. repeat case_decide; lia.
Qed.

(** Ascending by old id. *)
Lemma rank_in_lt l (i j : Z) : i ∈ l → i < j → rank_in l i < rank_in l j.
Proof.
  intros Hi Hij. induction l as [|a l IH]; [by apply elem_of_nil in Hi|].
  rewrite !rank_in_cons. apply elem_of_cons in Hi as [->|Hi].
  - pose proof (rank_in_le l a j). repeat case_decide; lia.
  - specialize (IH Hi). repeat case_decide; lia.
Qed.

Lemma rank_in_perm l l' (i : Z) : l ≡ₚ l' → rank_in l i = rank_in l' i.
Proof. intros Hp. unfold rank_in. by rewrite Hp. Qed.

(** In an ascending list without repetition the rank of an element is
    its position. *)
Lemma sorted_rank K (k : nat) (i : Z) :
  StronglySorted Z.le K → NoDup K → K !! k = Some i → rank_in K i = Z.of_nat k.
Proof.
  intros Hs. revert k. induction Hs as [|a K Hs IH Hall]; intros k Hnd Hk; [done|].
  apply NoDup_cons in Hnd as [Ha Hnd]. rewrite rank_in_cons.
  rewrite Forall_forall in Hall.
  destruct k as [|k]; simpl in Hk.
  - simplify_eq. rewrite decide_False by lia.
    unfold rank_in. replace (filter (λ j, j < i) K) with (@nil Z); [done|].
    symmetry. clear IH Hs Ha Hnd. induction K as [|b K IH]; [done|].
    rewrite filter_cons. rewrite decide_False.
    + apply IH. intros c Hc. apply Hall. by right.
    + assert (i ≤ b) by (apply Hall; left). lia.
  - assert (i ∈ K) as Hi by (by eapply list_elem_of_lookup_2).
    assert (a ≤ i) by (by apply Hall).
    rewrite decide_True by (assert (a ≠ i) by (by intros ->); lia).
    rewrite (IH k Hnd Hk). lia.
Qed.

Lemma sorted_ranks K :
  StronglySorted Z.le K → NoDup K →
  rank_in K <$> K = seqZ 0 (Z.of_nat (length K)).
Proof.
  intros Hs Hnd. apply list_eq. intros k. rewrite list_lookup_fmap.
  destruct (K !! k) as [i|] eqn:Hk; simpl.
  - rewrite (sorted_rank K k i Hs Hnd Hk). symmetry.
    apply lookup_seqZ. split; [lia|].
    apply lookup_lt_Some in Hk. lia.
  - symmetry. apply lookup_seqZ_ge. apply lookup_ge_None in Hk. lia.
Qed.

Lemma idMapping_of_None h (l : list nat) (i : Z) :
  i ∉ (λ r, id (h !!! r)) <$> l → idMapping_of h l !! i = None.
Proof.
  induction l as [|r l IH] using rev_ind; intros Hi; [done|].
  rewrite idMapping_of_snoc. rewrite fmap_app in Hi. simpl in Hi.
  apply not_elem_of_app in Hi as [Hi Hr].
  rewrite lookup_insert_ne; [by apply IH|].
  intros <-. apply Hr. left.
Qed.

(** [idMapping] sends the id of a vertex to its rank, and knows no
    other key. *)
Lemma idMapping_renumbered s (i : Z) :
  NoDup (nodes s) → NoDup (node_ids s) →
  idMapping_of (heap s) (sort_by_id (heap s) (nodes s)) !! i
  = renumbered (node_ids s) i.
Proof.
  intros Hnd Hids.
  pose proof (renumberNodes_spec s Hnd Hids) as Hspec. cbv zeta in Hspec.
  destruct Hspec as (Hsorted & HK & Hmap & _).
  set (K := (λ r, id (heap s !!! r)) <$> sort_by_id (heap s) (nodes s)) in *.
  unfold renumbered. case_decide as Hi.
  - rewrite <- HK in Hi. apply list_elem_of_lookup in Hi as [k Hk].
    rewrite (Hmap k i Hk). f_equal.
    rewrite <- (rank_in_perm K (node_ids s) i HK). symmetry.
    apply sorted_rank; [done| |done]. rewrite HK. done.
  - apply idMapping_of_None. fold K. by rewrite HK.
Qed.

Lemma renumberNodes_deref s r :
  NoDup (nodes s) →
  deref (renumberNodes s) r
  = if decide (r ∈ nodes s)
    then with_id
           (default (id (deref s r))
              (idMapping_of (heap s) (sort_by_id (heap s) (nodes s))
                 !! id (deref s r)))
           (deref s r)
    else deref s r.
Proof. intros Hnd. unfold renumberNodes, deref. simpl. by apply relabel_loop. Qed.

Lemma renumberNodes_ids s :
  NoDup (nodes s) → NoDup (node_ids s) →
  node_ids (renumberNodes s) = rank_in (node_ids s) <$> node_ids s.
Proof.
  intros Hnd Hids. unfold node_ids at 1 3.
  change (nodes (renumberNodes s)) with (nodes s).
  rewrite <- list_fmap_compose. apply list_fmap_ext. intros k r Hk.
  assert (r ∈ nodes s) as Hr by (by eapply list_elem_of_lookup_2).
  unfold compose. rewrite renumberNodes_deref by done.
  rewrite decide_True by done. simpl.
  rewrite idMapping_renumbered by done. unfold renumbered.
  rewrite decide_True; [done|].
  unfold node_ids. apply list_elem_of_fmap. by exists r.
Qed.

Lemma ranks_perm l :
  NoDup l → rank_in l <$> l ≡ₚ seqZ 0 (Z.of_nat (length l)).
Proof.
  intros Hnd.
  assert (merge_sort Z.le l ≡ₚ l) as Hp by apply merge_sort_Permutation.
  rewrite <- Hp at 2. rewrite <- (Permutation_length Hp).
  rewrite (list_fmap_ext (rank_in l) (rank_in (merge_sort Z.le l)) (merge_sort Z.le l)).
  - rewrite sorted_ranks; [done| |by rewrite Hp].
    apply (StronglySorted_merge_sort Z.le).
  - intros _ i _. apply rank_in_perm. by symmetry.
Qed.

(** X4. [renumberNodes] on distinct vertex objects with distinct ids,
    whatever the ids are: every vertex gets the number of vertices with
    a smaller id as its new id, so the new ids are [0 .. n-1] and
    ascend as the old ones did; every edge endpoint that is a vertex id
    is rewritten the same way, and an endpoint that is no vertex's id
    becomes [undefined] ([None]); the array, the positions and the
    flags stay as they are. *)
Theorem renumberNodes_ranks s :
  NoDup (nodes s) → NoDup (node_ids s) →
  nodes (renumberNodes s) = nodes s
  ∧ node_ids (renumberNodes s) = rank_in (node_ids s) <$> node_ids s
  ∧ node_ids (renumberNodes s) ≡ₚ seqZ 0 (Z.of_nat (length (nodes s)))
  ∧ (∀ i j, i ∈ node_ids s → i < j →
            rank_in (node_ids s) i < rank_in (node_ids s) j)
  ∧ edge_pairs (renumberNodes s)
    = (λ p : option Z * option Z,
         (p.1 ≫= renumbered (node_ids s), p.2 ≫= renumbered (node_ids s)))
        <$> edge_pairs s
  ∧ (∀ r, x (deref (renumberNodes s) r) = x (deref s r)
          ∧ y (deref (renumberNodes s) r) = y (deref s r)
          ∧ is_seymour (deref (renumberNodes s) r) = is_seymour (deref s r)).
Proof.
  intros Hnd Hids. split_and!.
  - done.
  - by apply renumberNodes_ids.
  - rewrite renumberNodes_ids by done.
    rewrite ranks_perm by done. unfold node_ids. by rewrite length_fmap.
  - intros i j Hi Hij. by apply rank_in_lt.
  - unfold edge_pairs, renumberNodes. simpl. rewrite <- !list_fmap_compose.
    apply list_fmap_ext. intros k e _. unfold compose. simpl.
    unfold idMapping_get. f_equal.
    + destruct (from e) as [a|]; [simpl|done]. by apply idMapping_renumbered.
    + destruct (to e) as [a|]; [simpl|done]. by apply idMapping_renumbered.
  - intros r. rewrite renumberNodes_deref by done. by case_decide.
Qed.

Lemma renumberNodes_ranks_witness :
  nodes (renumberNodes scenario_gap) = nodes scenario_gap
  ∧ node_ids (renumberNodes scenario_gap)
    = rank_in (node_ids scenario_gap) <$> node_ids scenario_gap
  ∧ node_ids (renumberNodes scenario_gap)
    ≡ₚ seqZ 0 (Z.of_nat (length (nodes scenario_gap)))
  ∧ (∀ i j, i ∈ node_ids scenario_gap → i < j →
            rank_in (node_ids scenario_gap) i < rank_in (node_ids scenario_gap) j)
  ∧ edge_pairs (renumberNodes scenario_gap)
    = (λ p : option Z * option Z,
         (p.1 ≫= renumbered (node_ids scenario_gap),
          p.2 ≫= renumbered (node_ids scenario_gap)))
        <$> edge_pairs scenario_gap
  ∧ (∀ r, x (deref (renumberNodes scenario_gap) r) = x (deref scenario_gap r)
          ∧ y (deref (renumberNodes scenario_gap) r) = y (deref scenario_gap r)
          ∧ is_seymour (deref (renumberNodes scenario_gap) r)
            = is_seymour (deref scenario_gap r)).
Proof.
  apply (renumberNodes_ranks scenario_gap).
  - apply (bool_decide_unpack _). vm_compute. exact I.
  - apply (bool_decide_unpack _). vm_compute. exact I.
Defined.

End renumber_facts.

(** * Distinct ids along a run *)

Section distinct_ids.
Import Json Js.
Implicit Types (s : State) (r : nat) (h : gmap nat Node).


Lemma node_ids_sent s : node_ids (sendDataToStreamlit s) = node_ids s.
Proof. done. Qed.


Lemma node_ids_move (n : nat) (mx my : Z) s :
  node_ids (set_heap (<[ n := with_pos mx my (deref s n) ]> (heap s)) s) = node_ids s.
Proof.
  unfold node_ids, deref. simpl. apply list_fmap_ext. intros k r _.
  destruct (decide (r = n)) as [->|Hne].
  - by rewrite lookup_total_insert_eq.
  - by rewrite lookup_total_insert_ne.
Qed.

Lemma node_ids_mousemove (mx my : Z) s : node_ids (mousemove mx my s) = node_ids s.
Proof.
  unfold mousemove.
  change (node_ids s) with (node_ids (set_lastMouse mx my s)).
  generalize (set_lastMouse mx my s). intros s1.
  repeat case_match; try done; unfold render;
    match goal with
    | |- node_ids (set_heap (<[ ?n := with_pos _ _ (deref ?t ?n) ]> (heap ?t)) ?t) = _ =>
        rewrite (node_ids_move n mx my t)
    end; done.
Qed.











End distinct_ids.

(** * The secondary button *)

Section secondary_button.
Import Json Js.
Implicit Types (s : State) (r : nat) (h : gmap nat Node) (es : list Edge).

Lemma edge_pairs_filter (d : Z) es :
  (λ e, (from e, to e)) <$> filter (λ e, from e ≠ Some d ∧ to e ≠ Some d) es
  = filter (λ p : option Z * option Z, p.1 ≠ Some d ∧ p.2 ≠ Some d)
           ((λ e, (from e, to e)) <$> es).
Proof.
  induction es as [|e es IH]; [done|].
  rewrite fmap_cons, !filter_cons. simpl.
  destruct (decide (from e ≠ Some d ∧ to e ≠ Some d)); [|done].
  rewrite fmap_cons. by rewrite IH.
Qed.

Lemma mousedown_secondary_node (mx my : Z) s (n : nat) :
  getNodeAt s mx my = Some n →
  mousedown 2 mx my s
  = sendDataToStreamlit (updateSeymourStatus (removeNode n (set_lastMouse mx my s))).
Proof.
  intros Hg. unfold mousedown. rewrite decide_False by done.
  rewrite decide_True by done.
  change (getNodeAt (set_lastMouse mx my s) mx my) with (getNodeAt s mx my).
  by rewrite Hg.
Qed.

(** X6. The press of the secondary button over a vertex deletes it on
    the spot, before any context-menu event: the vertex object and every
    edge touching its id [d] go, the other vertices keep their ids, the
    remaining graph is reported, and neither a renumbering nor a win
    check takes place.  So when the ids were [0 .. n-1] and [d] was not
    the highest, the ids after the press have a gap: [n-1] is still an
    id and the ids are not [0 .. n-2]. *)
Theorem mousedown_deletes_without_renumbering s (mx my : Z) (n : nat) :
  getNodeAt s mx my = Some n → NoDup (node_ids s) →
  nodes (mousedown 2 mx my s) = filter (λ r, r ≠ n) (nodes s)
  ∧ node_ids (mousedown 2 mx my s)
    = filter (λ i : Z, i ≠ id (deref s n)) (node_ids s)
  ∧ edge_pairs (mousedown 2 mx my s)
    = filter (λ p : option Z * option Z,
                p.1 ≠ Some (id (deref s n)) ∧ p.2 ≠ Some (id (deref s n)))
             (edge_pairs s)
  ∧ sent (mousedown 2 mx my s)
    = sent s ++ [(node_ids (mousedown 2 mx my s), edge_pairs (mousedown 2 mx my s))]
  ∧ winPrompts (mousedown 2 mx my s) = winPrompts s
  ∧ (node_ids s ≡ₚ seqZ 0 (Z.of_nat (length (nodes s))) →
     id (deref s n) < Z.of_nat (length (nodes s)) - 1 →
     Z.of_nat (length (nodes s)) - 1 ∈ node_ids (mousedown 2 mx my s)
     ∧ ¬ node_ids (mousedown 2 mx my s)
         ≡ₚ seqZ 0 (Z.of_nat (length (nodes s)) - 1)).
Proof.
  intros Hg Hids. rewrite (mousedown_secondary_node mx my s n Hg).
  assert (n ∈ nodes s) as Hn.
  { unfold getNodeAt in Hg. apply find_some in Hg as [Hin _].
    by apply list_elem_of_In. }
  set (s1 := removeNode n (set_lastMouse mx my s)).
  assert (node_ids (sendDataToStreamlit (updateSeymourStatus s1))
          = filter (λ i : Z, i ≠ id (deref s n)) (node_ids s)) as Hids'.
  { rewrite node_ids_sent, node_ids_updateSeymourStatus.
    unfold node_ids, s1, removeNode, deref. simpl.
    by apply (filter_ids (λ r, id (heap s !!! r))). }
  split_and!; try done.
  - unfold edge_pairs, s1, removeNode. simpl. apply edge_pairs_filter.
  - intros Hp Hd. rewrite Hids'.
    set (N := Z.of_nat (length (nodes s))) in *.
    assert (N - 1 ∈ filter (λ i : Z, i ≠ id (deref s n)) (node_ids s)) as Hin.
    { apply list_elem_of_filter. split; [lia|].
      rewrite Hp. apply elem_of_seqZ.
      assert (id (deref s n) ∈ node_ids s) as Hdin.
      { unfold node_ids. apply list_elem_of_fmap. by exists n. }
      rewrite Hp in Hdin. apply elem_of_seqZ in Hdin. lia. }
    split; [done|]. intros Hq. rewrite Hq in Hin.
    apply elem_of_seqZ in Hin. lia.
Qed.

Lemma mousedown_deletes_without_renumbering_witness :
  nodes (mousedown 2 200 50 scenario_state)
  = filter (λ r, r ≠ 1%nat) (nodes scenario_state)
  ∧ node_ids (mousedown 2 200 50 scenario_state)
    = filter (λ i : Z, i ≠ id (deref scenario_state 1%nat)) (node_ids scenario_state)
  ∧ edge_pairs (mousedown 2 200 50 scenario_state)
    = filter (λ p : option Z * option Z,
                p.1 ≠ Some (id (deref scenario_state 1%nat))
                ∧ p.2 ≠ Some (id (deref scenario_state 1%nat)))
             (edge_pairs scenario_state)
  ∧ sent (mousedown 2 200 50 scenario_state)
    = sent scenario_state
      ++ [(node_ids (mousedown 2 200 50 scenario_state),
           edge_pairs (mousedown 2 200 50 scenario_state))]
  ∧ winPrompts (mousedown 2 200 50 scenario_state) = winPrompts scenario_state
  ∧ (node_ids scenario_state ≡ₚ seqZ 0 (Z.of_nat (length (nodes scenario_state))) →
     id (deref scenario_state 1%nat) < Z.of_nat (length (nodes scenario_state)) - 1 →
     Z.of_nat (length (nodes scenario_state)) - 1
       ∈ node_ids (mousedown 2 200 50 scenario_state)
     ∧ ¬ node_ids (mousedown 2 200 50 scenario_state)
         ≡ₚ seqZ 0 (Z.of_nat (length (nodes scenario_state)) - 1)).
Proof.
  apply (mousedown_deletes_without_renumbering scenario_state 200 50 1%nat).
  - reflexivity.
  - apply (bool_decide_unpack _). vm_compute. exact I.
Defined.

(** **** Hit tests read ids and positions only *)















End secondary_button.

(** * Reporting to the page *)

Section reporting.
Import Json Js.
Implicit Types (s : State) (r : nat).

Lemma reported_check s :
  sent (checkForWin (sendDataToStreamlit s)).1
  = sent s ++ [(node_ids (checkForWin (sendDataToStreamlit s)).1,
                edge_pairs (checkForWin (sendDataToStreamlit s)).1)].
Proof. unfold checkForWin. by case_match. Qed.

Lemma connect_reported (start target : nat) s :
  (sent (connect start target s) = sent s
   ∧ node_ids (connect start target s) = node_ids s
   ∧ edge_pairs (connect start target s) = edge_pairs s)
  ∨ sent (connect start target s)
    = sent s ++ [(node_ids (connect start target s),
                  edge_pairs (connect start target s))].
Proof.
  unfold connect. repeat case_match; [by left|right..];
    match goal with
    | |- sent (checkForWin (sendDataToStreamlit ?t)).1 = _ =>
        apply (reported_check t)
    end.
Qed.

Lemma sent_mousemove (mx my : Z) s : sent (mousemove mx my s) = sent s.
Proof. unfold mousemove. repeat case_match; done. Qed.

(** X8. Every change of the graph made in the canvas is reported, with
    the graph as it is after the event.  An event of the user either
    leaves the vertex ids, the edges and the log of reports as they are,
    or appends exactly one report, which carries the ids and the edges
    of the state the event produced; earlier reports are never touched.
    A graph update coming from the page is not echoed back. *)
Theorem graph_changes_are_reported s (e : Event) :
  match e with
  | GraphDataUpdate d => sent (step s e) = sent s
  | _ =>
      (sent (step s e) = sent s
       ∧ node_ids (step s e) = node_ids s
       ∧ edge_pairs (step s e) = edge_pairs s)
      ∨ sent (step s e)
        = sent s ++ [(node_ids (step s e), edge_pairs (step s e))]
  end.
Proof.
  destruct e as [button mx my|mx my|mx my|mx my|mx my| |d]; simpl.
  - unfold mousedown. repeat case_match; try (by left); by right.
  - left. split_and!; [apply sent_mousemove|apply node_ids_mousemove|].
    unfold edge_pairs. by rewrite mousemove_edges.
  - unfold mouseup.
    destruct (startDragNode s) as [start|]; [|by left].
    destruct (isDragging s); [|by left].
    destruct (moveMode s); [by right|].
    destruct (getNodeAt s mx my) as [target|]; [|by left].
    case_decide; [|by left].
    apply (connect_reported start target s).
  - unfold dblclick. case_match; [by left|by right].
  - unfold contextmenu. repeat case_match; try (by left); right;
      match goal with
      | |- sent (checkForWin (render (sendDataToStreamlit ?t))).1 = _ =>
          apply (reported_check t)
      end.
  - by left.
  - unfold graphDataUpdate. destruct (alloc (Json.nodes d) (heap s)) as [h refs].
    by case_match.
Qed.

End reporting.

(** * Clicks and move-mode drags *)

Section gestures.
Import Json Js.
Implicit Types (s t : State) (r n : nat).

Lemma run_app (evs evs' : list Event) s : run (evs ++ evs') s = run evs' (run evs s).
Proof. unfold run. apply foldl_app. Qed.

(** What stays put while the pointer has not left the threshold. *)
Lemma mousemove_near (px py : Z) (p : Z * Z) t :
  near px py p → isDragging t = false →
  (startDragNode t = None ∨ (dragStartX t = px ∧ dragStartY t = py)) →
  mousemove p.1 p.2 t = set_lastMouse p.1 p.2 t.
Proof.
  intros Hnear Hd Hstart. unfold mousemove, near in *. cbv zeta.
  remember (set_lastMouse p.1 p.2 t) as t1 eqn:Ht1.
  assert (startDragNode t1 = startDragNode t ∧ isDragging t1 = false
          ∧ dragStartX t1 = dragStartX t ∧ dragStartY t1 = dragStartY t)
    as (E1 & E2 & E3 & E4) by (by subst t1).
  destruct (startDragNode t1) as [n|] eqn:Hn; [|by rewrite Hn].
  rewrite E2, E3, E4.
  destruct Hstart as [Hnone|[-> ->]]; [congruence|].
  rewrite bool_decide_false by lia. simpl. by rewrite Hn, E2.
Qed.

Lemma moves_near (px py : Z) (moves : list (Z * Z)) t :
  Forall (near px py) moves → isDragging t = false →
  (startDragNode t = None ∨ (dragStartX t = px ∧ dragStartY t = py)) →
  let t' := run ((λ p, MouseMove p.1 p.2) <$> moves) t in
  heap t' = heap t ∧ nodes t' = nodes t ∧ edges t' = edges t
  ∧ sent t' = sent t ∧ winPrompts t' = winPrompts t ∧ moveMode t' = moveMode t
  ∧ isDragging t' = false.
Proof.
  intros Hall. revert t. induction Hall as [|p moves Hp _ IH]; intros t Hd Hstart.
  - simpl. by rewrite Hd.
  - simpl. rewrite (mousemove_near px py p t Hp Hd Hstart).
    specialize (IH (set_lastMouse p.1 p.2 t) Hd Hstart). exact IH.
Qed.

(** X9. A click changes nothing.  A press of the primary button, any
    number of moves that stay within [DRAG_THRESHOLD] (10 pixels) of
    the press, and a release, wherever they happen and whatever the
    mode: the vertices, their ids, positions and flags, the edges, the
    reports and the prompts are as before, and the gesture state is
    reset with no vertex selected. *)
Theorem click_changes_nothing s (px py : Z) (moves : list (Z * Z)) (ux uy : Z) :
  Forall (near px py) moves →
  heap (run (gesture px py moves ux uy) s) = heap s
  ∧ nodes (run (gesture px py moves ux uy) s) = nodes s
  ∧ edges (run (gesture px py moves ux uy) s) = edges s
  ∧ sent (run (gesture px py moves ux uy) s) = sent s
  ∧ winPrompts (run (gesture px py moves ux uy) s) = winPrompts s
  ∧ moveMode (run (gesture px py moves ux uy) s) = moveMode s
  ∧ isDragging (run (gesture px py moves ux uy) s) = false
  ∧ startDragNode (run (gesture px py moves ux uy) s) = None
  ∧ selectedNode (run (gesture px py moves ux uy) s) = None.
Proof.
  intros Hall. unfold gesture.
  change (run (MouseDown 0 px py :: ?l) s) with (run l (mousedown 0 px py s)).
  rewrite run_app.
  set (s1 := mousedown 0 px py s).
  assert (heap s1 = heap s ∧ nodes s1 = nodes s ∧ edges s1 = edges s
          ∧ sent s1 = sent s ∧ winPrompts s1 = winPrompts s
          ∧ moveMode s1 = moveMode s ∧ isDragging s1 = false
          ∧ (startDragNode s1 = None ∨ (dragStartX s1 = px ∧ dragStartY s1 = py)))
    as (Hh & Hn & He & Hsent & Hw & Hm & Hd & Hstart).
  { unfold s1, mousedown. rewrite decide_True by done.
    case_match; split_and!; try done; [by right|by left]. }
  pose proof (moves_near px py moves s1 Hall Hd Hstart) as Hmv. cbv zeta in Hmv.
  set (s2 := run ((λ p, MouseMove p.1 p.2) <$> moves) s1) in *.
  destruct Hmv as (Hh2 & Hn2 & He2 & Hsent2 & Hw2 & Hm2 & Hd2).
  change (run [MouseUp ux uy] s2) with (mouseup ux uy s2).
  unfold mouseup. rewrite Hd2.
  assert (match startDragNode s2 with
          | Some _ => s2
          | None => s2
          end = s2) as Heq by (by destruct (startDragNode s2)).
  rewrite Heq. simpl.
  rewrite Hh2, Hn2, He2, Hsent2, Hw2, Hm2. done.
Qed.

Lemma click_changes_nothing_witness :
  heap (run (gesture 50 50 [(55, 52); (44, 50)] 44 50) scenario_state)
  = heap scenario_state
  ∧ nodes (run (gesture 50 50 [(55, 52); (44, 50)] 44 50) scenario_state)
    = nodes scenario_state
  ∧ edges (run (gesture 50 50 [(55, 52); (44, 50)] 44 50) scenario_state)
    = edges scenario_state
  ∧ sent (run (gesture 50 50 [(55, 52); (44, 50)] 44 50) scenario_state)
    = sent scenario_state
  ∧ winPrompts (run (gesture 50 50 [(55, 52); (44, 50)] 44 50) scenario_state)
    = winPrompts scenario_state
  ∧ moveMode (run (gesture 50 50 [(55, 52); (44, 50)] 44 50) scenario_state)
    = moveMode scenario_state
  ∧ isDragging (run (gesture 50 50 [(55, 52); (44, 50)] 44 50) scenario_state)
    = false
  ∧ startDragNode (run (gesture 50 50 [(55, 52); (44, 50)] 44 50) scenario_state)
    = None
  ∧ selectedNode (run (gesture 50 50 [(55, 52); (44, 50)] 44 50) scenario_state)
    = None.
Proof.
  apply (click_changes_nothing scenario_state 50 50 [(55, 52); (44, 50)] 44 50).
  repeat (apply Forall_cons_2; [unfold near, DRAG_THRESHOLD; simpl; lia|]).
  apply Forall_nil_2.
Defined.

(** **** Dragging in move mode *)

Lemma mousemove_starts_move (px py : Z) (p : Z * Z) (n : nat) t :
  startDragNode t = Some n → isDragging t = false → moveMode t = true →
  dragStartX t = px → dragStartY t = py → ¬ near px py p →
  mousemove p.1 p.2 t
  = set_heap (<[ n := with_pos p.1 p.2 (deref t n) ]> (heap t))
      (set_edgeMode false (set_isDragging true (set_lastMouse p.1 p.2 t))).
Proof.
  intros Hn Hd Hm Hx Hy Hfar. unfold mousemove, near in *. cbv zeta.
  remember (set_lastMouse p.1 p.2 t) as t1 eqn:Ht1.
  assert (startDragNode t1 = Some n ∧ isDragging t1 = false ∧ moveMode t1 = true
          ∧ dragStartX t1 = px ∧ dragStartY t1 = py
          ∧ deref t1 n = deref t n ∧ heap t1 = heap t)
    as (E1 & E2 & E3 & E4 & E5 & E6 & E7) by (by subst t1).
  rewrite E1, E2, E4, E5. rewrite bool_decide_true by lia. simpl.
  rewrite E3. simpl. rewrite E1, E3. unfold render.
  change (deref (set_edgeMode false (set_isDragging true t1)) n) with (deref t1 n).
  by rewrite E6, E7.
Qed.

Lemma mousemove_moves (mx my : Z) (n : nat) t :
  startDragNode t = Some n → isDragging t = true → moveMode t = true →
  mousemove mx my t
  = set_heap (<[ n := with_pos mx my (deref t n) ]> (heap t)) (set_lastMouse mx my t).
Proof.
  intros Hn Hd Hm. unfold mousemove. cbv zeta.
  remember (set_lastMouse mx my t) as t1 eqn:Ht1.
  assert (startDragNode t1 = Some n ∧ isDragging t1 = true ∧ moveMode t1 = true
          ∧ deref t1 n = deref t n ∧ heap t1 = heap t)
    as (E1 & E2 & E3 & E4 & E5) by (by subst t1).
  rewrite E1, E2. simpl. rewrite E1, E2, E3. unfold render.
  by rewrite E4, E5.
Qed.

Lemma moves_dragging (rest : list (Z * Z)) (q : Z * Z) (n : nat) s t :
  startDragNode t = Some n → isDragging t = true → moveMode t = true →
  nodes t = nodes s → edges t = edges s → sent t = sent s →
  winPrompts t = winPrompts s →
  heap t = <[ n := with_pos q.1 q.2 (deref s n) ]> (heap s) →
  let q' := default q (last rest) in
  let t' := run ((λ p, MouseMove p.1 p.2) <$> rest) t in
  startDragNode t' = Some n ∧ isDragging t' = true ∧ moveMode t' = true
  ∧ nodes t' = nodes s ∧ edges t' = edges s ∧ sent t' = sent s
  ∧ winPrompts t' = winPrompts s
  ∧ heap t' = <[ n := with_pos q'.1 q'.2 (deref s n) ]> (heap s).
Proof.
  revert q t. induction rest as [|p rest IH]; intros q t Hn Hd Hm Hns Hes Hsent Hw Hh.
  - simpl. done.
  - cbv zeta.
    change (run ((λ p, MouseMove p.1 p.2) <$> p :: rest) t)
      with (run ((λ p, MouseMove p.1 p.2) <$> rest) (mousemove p.1 p.2 t)).
    assert (default q (last (p :: rest)) = default p (last rest)) as ->.
    { rewrite last_cons. by destruct (last rest). }
    rewrite (mousemove_moves p.1 p.2 n t Hn Hd Hm).
    apply IH; try done. simpl. unfold deref. rewrite Hh.
    rewrite lookup_total_insert_eq. by rewrite insert_insert_eq.
Qed.

(** X10. A drag in move mode.  The primary button is pressed on a
    vertex, the first move leaves the threshold, any moves follow, and
    the button is released: the vertex sits where the last move was,
    wherever the release is reported; every other vertex object, the
    ids, the flags and the edges are as before; one report is sent, at
    the release, with the unchanged graph; no win check is made. *)
Theorem move_gesture s (px py : Z) (n : nat) (m0 : Z * Z) (rest : list (Z * Z))
    (ux uy : Z) :
  getNodeAt s px py = Some n → moveMode s = true → ¬ near px py m0 →
  heap (run (gesture px py (m0 :: rest) ux uy) s)
  = <[ n := with_pos (default m0 (last rest)).1 (default m0 (last rest)).2
                     (deref s n) ]> (heap s)
  ∧ nodes (run (gesture px py (m0 :: rest) ux uy) s) = nodes s
  ∧ node_ids (run (gesture px py (m0 :: rest) ux uy) s) = node_ids s
  ∧ edges (run (gesture px py (m0 :: rest) ux uy) s) = edges s
  ∧ sent (run (gesture px py (m0 :: rest) ux uy) s)
    = sent s ++ [(node_ids s, edge_pairs s)]
  ∧ winPrompts (run (gesture px py (m0 :: rest) ux uy) s) = winPrompts s.
Proof.
  intros Hg Hm Hfar. unfold gesture.
  change (run (MouseDown 0 px py :: ?l) s) with (run l (mousedown 0 px py s)).
  rewrite fmap_cons.
  change (run ((MouseMove m0.1 m0.2 :: ?l) ++ ?k) ?t)
    with (run (l ++ k) (mousemove m0.1 m0.2 t)).
  rewrite run_app.
  set (s1 := mousedown 0 px py s).
  assert (startDragNode s1 = Some n ∧ isDragging s1 = false ∧ moveMode s1 = true
          ∧ dragStartX s1 = px ∧ dragStartY s1 = py
          ∧ heap s1 = heap s ∧ nodes s1 = nodes s ∧ edges s1 = edges s
          ∧ sent s1 = sent s ∧ winPrompts s1 = winPrompts s)
    as (Hn1 & Hd1 & Hm1 & Hx1 & Hy1 & Hh1 & Hns1 & Hes1 & Hsent1 & Hw1).
  { unfold s1, mousedown. rewrite decide_True by done.
    change (getNodeAt (set_lastMouse px py s) px py) with (getNodeAt s px py).
    rewrite Hg. done. }
  rewrite (mousemove_starts_move px py m0 n s1 Hn1 Hd1 Hm1 Hx1 Hy1 Hfar).
  set (s2 := set_heap _ _).
  pose proof (moves_dragging rest m0 n s s2) as Hmv. cbv zeta in Hmv.
  destruct Hmv as (Hn3 & Hd3 & Hm3 & Hns3 & Hes3 & Hsent3 & Hw3 & Hh3); try done.
  { unfold s2, deref. simpl. by rewrite Hh1. }
  set (s3 := run ((λ p, MouseMove p.1 p.2) <$> rest) s2) in *.
  change (run [MouseUp ux uy] s3) with (mouseup ux uy s3).
  unfold mouseup. rewrite Hn3, Hd3, Hm3.
  assert (node_ids s3 = node_ids s) as Hids.
  { unfold node_ids, deref. rewrite Hns3, Hh3.
    apply (node_ids_move n _ _ s). }
  split_and!; simpl; try done.
  rewrite Hsent3. unfold edge_pairs. by rewrite Hids, Hes3.
Qed.

Lemma move_gesture_witness :
  heap (run (gesture 50 50 ((80, 90) :: [(300, 200); (310, 220)]) 999 999)
            two_nodes_moving)
  = <[ 0%nat := with_pos
         (default ((80, 90) : Z * Z) (last [(300, 200); (310, 220)])).1
         (default ((80, 90) : Z * Z) (last [(300, 200); (310, 220)])).2
         (deref two_nodes_moving 0%nat) ]> (heap two_nodes_moving)
  ∧ nodes (run (gesture 50 50 ((80, 90) :: [(300, 200); (310, 220)]) 999 999)
               two_nodes_moving)
    = nodes two_nodes_moving
  ∧ node_ids (run (gesture 50 50 ((80, 90) :: [(300, 200); (310, 220)]) 999 999)
                  two_nodes_moving)
    = node_ids two_nodes_moving
  ∧ edges (run (gesture 50 50 ((80, 90) :: [(300, 200); (310, 220)]) 999 999)
               two_nodes_moving)
    = edges two_nodes_moving
  ∧ sent (run (gesture 50 50 ((80, 90) :: [(300, 200); (310, 220)]) 999 999)
              two_nodes_moving)
    = sent two_nodes_moving
      ++ [(node_ids two_nodes_moving, edge_pairs two_nodes_moving)]
  ∧ winPrompts (run (gesture 50 50 ((80, 90) :: [(300, 200); (310, 220)]) 999 999)
                    two_nodes_moving)
    = winPrompts two_nodes_moving.
Proof.
  apply (move_gesture two_nodes_moving 50 50 0%nat (80, 90)
           [(300, 200); (310, 220)] 999 999).
  - reflexivity.
  - reflexivity.
  - unfold near, DRAG_THRESHOLD. simpl. lia.
Defined.

End gestures.

(** * The refresh of the flags *)

Section refresh.
Import Json Js.
Implicit Types (s : State) (r : nat) (h : gmap nat Node) (es : list Edge).

Lemma mark_loop_lookup es l h r :
  foldl (mark es) h l !! r =
  if decide (r ∈ l)
  then Some (with_is_seymour (classify es (id (h !!! r))) (h !!! r))
  else h !! r.
Proof.
  revert h. induction l as [|a l IH]; intros h.
  - rewrite decide_False; [done|apply not_elem_of_nil].
  - change (foldl (mark es) h (a :: l)) with (foldl (mark es) (mark es h a) l).
    rewrite IH. unfold mark.
    destruct (decide (r = a)) as [->|Hra].
    + rewrite lookup_total_insert_eq, lookup_insert_eq. simpl.
      rewrite (decide_True (P := a ∈ a :: l)) by left.
      by case_decide.
    + rewrite lookup_total_insert_ne, lookup_insert_ne by done.
      destruct (decide (r ∈ l)) as [Hl|Hl].
      * rewrite decide_True; [done|by right].
      * rewrite decide_False; [done|]. rewrite not_elem_of_cons. done.
Qed.

Lemma mark_loop_twice es l h :
  foldl (mark es) (foldl (mark es) h l) l = foldl (mark es) h l.
Proof.
  apply map_eq. intros r. rewrite mark_loop_lookup.
  case_decide as Hr; [|done].
  rewrite mark_loop, decide_True by done. simpl.
  rewrite mark_loop_lookup, decide_True by done. done.
Qed.

(** X11. The refresh of the flags is idempotent and reads ids and
    edges only: a second [updateSeymourStatus] changes nothing, and the
    flag a vertex of the array gets is the same in any two states with
    the same edges in which the vertex has the same id, whatever its
    flag or position was. *)
Theorem updateSeymourStatus_idempotent s :
  updateSeymourStatus (updateSeymourStatus s) = updateSeymourStatus s
  ∧ (∀ s' r, r ∈ nodes s → r ∈ nodes s' → edges s' = edges s →
             id (deref s' r) = id (deref s r) →
             is_seymour (deref (updateSeymourStatus s') r)
             = is_seymour (deref (updateSeymourStatus s) r)).
Proof.
  split.
  - unfold updateSeymourStatus at 1 2. simpl.
    change (edges (updateSeymourStatus s)) with (edges s).
    change (nodes (updateSeymourStatus s)) with (nodes s).
    unfold updateSeymourStatus, set_heap. simpl.
    by rewrite mark_loop_twice.
  - intros s' r Hr Hr' He Hid.
    rewrite !is_seymour_updateSeymourStatus by done. by rewrite He, Hid.
Qed.

End refresh.

(** * The ratio and the verdict *)

Section ratio.
Import Nx Py.

Lemma raw_second_nil G : raw_second G [] = Some ∅.
Proof. done. Qed.

Lemma Qle_1_div (a b : Z) : 0 < b → (1 <= inject_Z a / inject_Z b)%Q ↔ b ≤ a.
Proof.
  intros Hb. destruct b as [|p|p]; try lia.
  unfold Qle, Qdiv, Qmult, Qinv, inject_Z. simpl. lia.
Qed.

Lemma verdict_ratio_of (G : DiGraph) (v : Z) (a : VertexAnalysis) :
  analyze_vertex G v = Some a →
  (out_degree a = 0%nat →
   satisfies_property a = true ∧ second_neighbor_count a = 0%nat
   ∧ (ratio a == 0)%Q)
  ∧ ((0 < out_degree a)%nat →
     (satisfies_property a = true ↔ (1 <= ratio a)%Q)).
Proof.
  unfold analyze_vertex. intros Ha.
  destruct (successors G v) as [succs|] eqn:Hs; [|done]. simpl in Ha.
  destruct (raw_second G (elements (list_to_set succs : gset Z)))
    as [raw|] eqn:Hr; [|done].
  simpl in Ha. injection Ha as <-. simpl. split.
  - intros H0. apply size_empty_inv in H0. apply leibniz_equiv in H0.
    rewrite H0 in *. rewrite elements_empty, raw_second_nil in Hr.
    injection Hr as <-.
    assert ((∅ ∖ ∅) ∖ {[v]} = (∅ : gset Z)) as -> by set_solver.
    rewrite size_empty. simpl. split_and!; done.
  - intros Hpos. rewrite bool_decide_eq_true.
    rewrite Nat.max_l by lia. rewrite Qle_1_div by lia. lia.
Qed.

(** X12. The verdict against the ratio the analysis reports, for every
    vertex of a graph.  A vertex with at least one out-neighbour is
    flagged exactly when its ratio is at least 1.  A vertex without
    out-neighbours has no second neighbours and ratio 0, and is flagged
    all the same. *)
Theorem verdict_and_ratio (G : DiGraph) (v : Z) :
  wf G → v ∈ nodes G →
  ∃ a, analyze_vertex G v = Some a
       ∧ (out_degree a = 0%nat →
          satisfies_property a = true ∧ second_neighbor_count a = 0%nat
          ∧ (ratio a == 0)%Q)
       ∧ ((0 < out_degree a)%nat →
          (satisfies_property a = true ↔ (1 <= ratio a)%Q)).
Proof.
  intros HG Hv. destruct (analyze_vertex_spec G v HG Hv) as (a & Ha & _).
  exists a. split; [done|]. by apply (verdict_ratio_of G v).
Qed.

Lemma verdict_and_ratio_witness :
  ∃ a, analyze_vertex scenario_graph 1 = Some a
       ∧ (out_degree a = 0%nat →
          satisfies_property a = true ∧ second_neighbor_count a = 0%nat
          ∧ (ratio a == 0)%Q)
       ∧ ((0 < out_degree a)%nat →
          (satisfies_property a = true ↔ (1 <= ratio a)%Q)).
Proof.
  apply (verdict_and_ratio scenario_graph 1).
  - apply wf_build.
  - apply (bool_decide_unpack _). vm_compute. exact I.
Defined.

End ratio.

(** * The handlers of the page *)

Section page.
Import App.
Implicit Types (st : session_state) (l K : list Z) (m : gmap Z Z).

Lemma old_to_new_of_snoc l (i : Z) :
  old_to_new_of (l ++ [i]) = <[ i := Z.of_nat (length l) ]> (old_to_new_of l).
Proof.
  unfold old_to_new_of. rewrite imap_app, foldl_app. simpl.
  by rewrite Nat.add_0_r.
Qed.

Lemma old_to_new_of_lookup K (k : nat) (i : Z) :
  NoDup K → K !! k = Some i → old_to_new_of K !! i = Some (Z.of_nat k).
Proof.
  revert k i. induction K as [|j K IH] using rev_ind; intros k i Hnd Hk; [done|].
  rewrite old_to_new_of_snoc. apply NoDup_app in Hnd as (Hnd & Hdisj & _).
  destruct (decide (k < length K)%nat) as [Hlt|Hge].
  - rewrite lookup_app_l in Hk by done.
    rewrite lookup_insert_ne; [by apply IH|].
    intros <-. apply (Hdisj j); [|left]. by eapply list_elem_of_lookup_2.
  - rewrite lookup_app_r in Hk by lia.
    destruct (k - length K)%nat as [|k'] eqn:Hk'; simpl in Hk; [|done].
    simplify_eq. assert (k = length K) as -> by lia. apply lookup_insert_eq.
Qed.

Lemma old_to_new_of_None K (i : Z) : i ∉ K → old_to_new_of K !! i = None.
Proof.
  induction K as [|j K IH] using rev_ind; intros Hi; [done|].
  rewrite old_to_new_of_snoc. apply not_elem_of_app in Hi as [Hi Hj].
  rewrite lookup_insert_ne; [by apply IH|]. intros <-. apply Hj. left.
Qed.

Lemma sorted_perm l : sorted l ≡ₚ l.
Proof. apply merge_sort_Permutation. Qed.

Lemma sorted_sorted l : StronglySorted Z.le (sorted l).
Proof. apply (StronglySorted_merge_sort Z.le). Qed.

(** [old_to_new] sends a value of the list to its rank and knows no
    other key. *)
Lemma old_to_new_renumbered l (i : Z) :
  NoDup l → old_to_new_of (sorted l) !! i = renumbered l i.
Proof.
  intros Hnd. unfold renumbered. case_decide as Hi.
  - rewrite <- (sorted_perm l) in Hi. apply list_elem_of_lookup in Hi as [k Hk].
    rewrite (old_to_new_of_lookup _ k i); [|by rewrite sorted_perm|done].
    f_equal. rewrite <- (rank_in_perm (sorted l) l i (sorted_perm l)).
    symmetry. apply sorted_rank; [apply sorted_sorted|by rewrite sorted_perm|done].
  - apply old_to_new_of_None. by rewrite sorted_perm.
Qed.

Lemma mapM_all {A B} (f : A → option B) (g : A → B) (l : list A) :
  (∀ a, a ∈ l → f a = Some (g a)) → mapM f l = Some (g <$> l).
Proof.
  induction l as [|a l IH]; intros Hl; [done|].
  simpl. rewrite (Hl a) by left. simpl.
  rewrite IH by (intros b Hb; apply Hl; by right). done.
Qed.

Lemma remove_perm (l : list Z) (d : Z) :
  NoDup l → d ∈ l → d :: filter (λ n, n ≠ d) l ≡ₚ l.
Proof.
  intros Hnd Hd.
  rewrite <- (filter_app_complement (λ n, n ≠ d) l) at 2.
  rewrite Permutation_app_comm.
  assert (filter (λ x, ¬ x ≠ d) l ≡ₚ [d]) as ->; [|done].
  apply NoDup_Permutation; [by apply NoDup_filter|apply NoDup_singleton|].
  intros j. rewrite list_elem_of_filter, list_elem_of_singleton.
  split; [intros [Hj _]; by destruct (decide (j = d))|].
  intros ->. split; [by intros H; apply H|done].
Qed.

(** The ranks in [0 .. n-1] without [d]. *)
Lemma rank_in_gap (l : list Z) (d i : Z) :
  NoDup l → l ≡ₚ seqZ 0 (Z.of_nat (length l)) → d ∈ l → i ∈ l → i ≠ d →
  rank_in (filter (λ n, n ≠ d) l) i = shift_down d i.
Proof.
  intros Hnd Hp Hd Hi Hne.
  set (N := Z.of_nat (length l)) in *.
  assert (0 ≤ d < N) as Hd' by (rewrite Hp in Hd; apply elem_of_seqZ in Hd; lia).
  assert (0 ≤ i < N) as Hi' by (rewrite Hp in Hi; apply elem_of_seqZ in Hi; lia).
  assert (filter (λ n, n ≠ d) l ≡ₚ seqZ 0 d ++ seqZ (d + 1) (N - 1 - d)) as Hgap.
  { apply gap_perm; [done|]. rewrite <- Hp. by apply remove_perm. }
  rewrite (rank_in_perm _ _ i Hgap).
  pose proof (gap_lookup d N i (proj1 Hd') Hi' Hne) as Hlook.
  assert (NoDup (seqZ 0 d ++ seqZ (d + 1) (N - 1 - d))) as Hndg
    by (rewrite <- Hgap; by apply NoDup_filter).
  rewrite (sorted_rank _ _ i (gap_sorted d N) Hndg Hlook).
  unfold shift_down. case_bool_decide; lia.
Qed.

(** X13. The delete button of the sidebar.  On a vertex list without
    repetition whose edges join listed vertices, the handler succeeds:
    the vertex and the edges touching it go, the vertex list becomes
    [0 .. m-1] for the [m] vertices left, every edge endpoint becomes
    the number of remaining vertices with a smaller id, and the move
    counter goes up by one.  When the ids were [0 .. n-1] the endpoints
    below the deleted id stay and those above move down by one, which
    is the renumbering of the canvas. *)
Theorem delete_node_renumbers (node : Z) st :
  NoDup (graph_nodes st) →
  (∀ e, e ∈ graph_edges st → e.1 ∈ graph_nodes st ∧ e.2 ∈ graph_nodes st) →
  ∃ st',
    delete_node node st = Some st'
    ∧ graph_nodes st'
      = seqZ 0 (Z.of_nat (length (filter (λ n, n ≠ node) (graph_nodes st))))
    ∧ graph_edges st'
      = (λ e : Z * Z,
           (rank_in (filter (λ n, n ≠ node) (graph_nodes st)) e.1,
            rank_in (filter (λ n, n ≠ node) (graph_nodes st)) e.2))
          <$> filter (λ e : Z * Z, e.1 ≠ node ∧ e.2 ≠ node) (graph_edges st)
    ∧ moves_count st' = moves_count st + 1
    ∧ move_mode st' = move_mode st
    ∧ (graph_nodes st ≡ₚ seqZ 0 (Z.of_nat (length (graph_nodes st))) →
       node ∈ graph_nodes st →
       graph_nodes st' = seqZ 0 (Z.of_nat (length (graph_nodes st)) - 1)
       ∧ graph_edges st'
         = (λ e : Z * Z, (shift_down node e.1, shift_down node e.2))
             <$> filter (λ e : Z * Z, e.1 ≠ node ∧ e.2 ≠ node) (graph_edges st)).
Proof.
  intros Hnd Hes. unfold delete_node.
  set (nodes1 := filter (λ n, n ≠ node) (graph_nodes st)).
  set (edges1 := filter (λ e : Z * Z, e.1 ≠ node ∧ e.2 ≠ node) (graph_edges st)).
  assert (NoDup nodes1) as Hnd1 by (by apply NoDup_filter).
  assert (∀ e, e ∈ edges1 → e.1 ∈ nodes1 ∧ e.2 ∈ nodes1) as Hes1.
  { intros e [[H1 H2] He]%list_elem_of_filter. destruct (Hes e He).
    split; by apply list_elem_of_filter. }
  rewrite (mapM_all _ (λ e : Z * Z, (rank_in nodes1 e.1, rank_in nodes1 e.2))).
  2:{ intros e He. destruct (Hes1 e He) as [H1 H2]. unfold renumber_edge.
      rewrite !old_to_new_renumbered by done. unfold renumbered.
      by rewrite !decide_True by done. }
  simpl. eexists. split; [done|]. simpl. split_and!; try done.
  intros Hp Hin. split.
  - f_equal.
    assert (length (graph_nodes st) = S (length nodes1)) as ->; [|lia].
    pose proof (length_filter_lt (λ n, n ≠ node) (graph_nodes st) node Hin) as Hlt.
    assert (nodes1 ≡ₚ seqZ 0 node
                      ++ seqZ (node + 1)
                           (Z.of_nat (length (graph_nodes st)) - 1 - node)) as Hgap.
    { assert (0 ≤ node < Z.of_nat (length (graph_nodes st))) as Hd'.
      { rewrite Hp in Hin. apply elem_of_seqZ in Hin. lia. }
      apply gap_perm; [done|]. rewrite <- Hp. by apply remove_perm. }
    apply Permutation_length in Hgap. rewrite length_app, !length_seqZ in Hgap.
    rewrite Hp in Hin. apply elem_of_seqZ in Hin. lia.
  - apply list_fmap_ext. intros k e Hk.
    assert (e ∈ edges1) as He by (by eapply list_elem_of_lookup_2).
    apply list_elem_of_filter in He as [[H1 H2] He].
    destruct (Hes e He) as [Hi1 Hi2].
    unfold nodes1. by rewrite !rank_in_gap.
Qed.

Lemma delete_node_renumbers_witness :
  ∃ st',
    delete_node 1 scenario_session = Some st'
    ∧ graph_nodes st'
      = seqZ 0 (Z.of_nat (length (filter (λ n, n ≠ 1)
                                         (graph_nodes scenario_session))))
    ∧ graph_edges st'
      = (λ e : Z * Z,
           (rank_in (filter (λ n, n ≠ 1) (graph_nodes scenario_session)) e.1,
            rank_in (filter (λ n, n ≠ 1) (graph_nodes scenario_session)) e.2))
          <$> filter (λ e : Z * Z, e.1 ≠ 1 ∧ e.2 ≠ 1) (graph_edges scenario_session)
    ∧ moves_count st' = moves_count scenario_session + 1
    ∧ move_mode st' = move_mode scenario_session
    ∧ (graph_nodes scenario_session
       ≡ₚ seqZ 0 (Z.of_nat (length (graph_nodes scenario_session))) →
       1 ∈ graph_nodes scenario_session →
       graph_nodes st'
       = seqZ 0 (Z.of_nat (length (graph_nodes scenario_session)) - 1)
       ∧ graph_edges st'
         = (λ e : Z * Z, (shift_down 1 e.1, shift_down 1 e.2))
             <$> filter (λ e : Z * Z, e.1 ≠ 1 ∧ e.2 ≠ 1)
                        (graph_edges scenario_session)).
Proof.
  apply (delete_node_renumbers 1 scenario_session).
  - apply (bool_decide_unpack _). vm_compute. exact I.
  - apply Forall_forall. apply (bool_decide_unpack _). vm_compute. exact I.
Defined.

(** **** The random graph *)

Lemma random_loop (draws : nat → Q) (ps : list (Z * Z)) (k : nat) (es : list (Z * Z)) :
  (∀ p, p ∈ ps → p.1 < p.2) →
  ∃ qs, qs `sublist_of` ps
        ∧ unordered <$> (foldl (random_step draws) (k, es) ps).2
          = (unordered <$> es) ++ qs.
Proof.
  revert k es. induction ps as [|[i j] ps IH]; intros k es Hlt.
  - exists []. simpl. by rewrite app_nil_r.
  - assert (i < j) as Hij by (apply (Hlt (i, j)); left).
    assert (∀ p, p ∈ ps → p.1 < p.2) as Hlt' by (intros p Hp; apply Hlt; by right).
    assert (unordered (i, j) = (i, j)) as Hu1.
    { unfold unordered. simpl. f_equal; lia. }
    assert (unordered (j, i) = (i, j)) as Hu2.
    { unfold unordered. simpl. f_equal; lia. }
    change (foldl (random_step draws) (k, es) ((i, j) :: ps))
      with (foldl (random_step draws) (random_step draws (k, es) (i, j)) ps).
    unfold random_step at 2. simpl.
    destruct (negb (Qle_bool (3 # 10) (draws k)));
      [destruct (negb (Qle_bool (5 # 10) (draws (S k))))|].
    + destruct (IH (S (S k)) (es ++ [(i, j)]) Hlt') as (qs & Hsub & ->).
      exists ((i, j) :: qs). split; [by apply sublist_skip|].
      rewrite fmap_app. simpl. rewrite Hu1. by rewrite <- app_assoc.
    + destruct (IH (S (S k)) (es ++ [(j, i)]) Hlt') as (qs & Hsub & ->).
      exists ((i, j) :: qs). split; [by apply sublist_skip|].
      rewrite fmap_app. simpl. rewrite Hu2. by rewrite <- app_assoc.
    + destruct (IH (S k) es Hlt') as (qs & Hsub & ->).
      exists qs. split; [by apply sublist_cons|done].
Qed.

Lemma NoDup_fmap_inj {A B} (f : A → B) (l : list A) (a b : A) :
  NoDup (f <$> l) → a ∈ l → b ∈ l → f a = f b → a = b.
Proof.
  intros Hnd Ha Hb Hab.
  apply list_elem_of_lookup in Ha as [i Hi].
  apply list_elem_of_lookup in Hb as [j Hj].
  assert (i = j) as ->; [|congruence].
  eapply (NoDup_lookup (f <$> l) i j (f a)); [done|..].
  - by rewrite list_lookup_fmap, Hi.
  - by rewrite list_lookup_fmap, Hj, Hab.
Qed.

Lemma pairs_6 :
  NoDup (pairs 6) ∧ length (pairs 6) = 15%nat
  ∧ ∀ p, p ∈ pairs 6 → 0 ≤ p.1 ∧ p.1 < p.2 ∧ p.2 < 6.
Proof.
  split_and!.
  - apply (bool_decide_unpack _). vm_compute. exact I.
  - reflexivity.
  - apply Forall_forall. apply (bool_decide_unpack _). vm_compute. exact I.
Qed.

(** X14. The random-graph button always produces an oriented simple
    graph.  Whatever numbers [random.random()] returns, the vertices are
    [0 .. 5], no edge is listed twice, every edge joins two different
    vertices of the list, no two vertices are joined in both
    directions, there are at most 15 edges, and the move counter goes
    up by one. *)
Theorem random_graph_is_oriented (draws : nat → Q) st :
  graph_nodes (random_graph draws st) = [0; 1; 2; 3; 4; 5]
  ∧ NoDup (graph_edges (random_graph draws st))
  ∧ (∀ a b, (a, b) ∈ graph_edges (random_graph draws st) →
            a ∈ graph_nodes (random_graph draws st)
            ∧ b ∈ graph_nodes (random_graph draws st)
            ∧ a ≠ b
            ∧ (b, a) ∉ graph_edges (random_graph draws st))
  ∧ (length (graph_edges (random_graph draws st)) ≤ 15)%nat
  ∧ moves_count (random_graph draws st) = moves_count st + 1.
Proof.
  destruct pairs_6 as (Hnd & Hlen & Hall).
  destruct (random_loop draws (pairs 6) 0 [])
    as (qs & Hsub & Hkeys); [intros p Hp; by apply Hall|].
  change (foldl (random_step draws) (0%nat, []) (pairs 6)).2
    with (random_edges draws) in Hkeys.
  change (unordered <$> []) with (@nil (Z * Z)) in Hkeys.
  rewrite app_nil_l in Hkeys.
  assert (NoDup (unordered <$> random_edges draws)) as Hndk.
  { rewrite Hkeys. by eapply sublist_NoDup. }
  assert (∀ a b, (a, b) ∈ random_edges draws →
                 0 ≤ Z.min a b ∧ Z.min a b < Z.max a b ∧ Z.max a b < 6) as Hin.
  { intros a b Hab.
    assert (unordered (a, b) ∈ pairs 6) as Hp.
    { eapply elem_of_sublist; [|exact Hsub]. rewrite <- Hkeys.
      apply list_elem_of_fmap. by exists (a, b). }
    apply Hall in Hp. exact Hp. }
  split_and!.
  - done.
  - simpl. by apply (NoDup_fmap_1 unordered).
  - simpl. intros a b Hab. specialize (Hin a b Hab) as Hr.
    split_and!.
    + apply elem_of_seqZ. lia.
    + apply elem_of_seqZ. lia.
    + lia.
    + intros Hba.
      assert ((a, b) = (b, a)) as Heq.
      { apply (NoDup_fmap_inj unordered (random_edges draws)); [done..|].
        unfold unordered. simpl. f_equal; lia. }
      injection Heq as -> _. lia.
  - simpl. rewrite <- (length_fmap unordered), Hkeys, <- Hlen.
    by apply sublist_length.
  - done.
Qed.

End page.

(** * Where the vertices are after loading *)

Section placement.
Import Json Py Js.
Implicit Types (s : State) (r : nat) (gd : graph_data) (gj : GraphData).









End placement.

(** * The banner of the sidebar and the canvas *)

Section banner.
Import Json Py App.








End banner.

(** * The controls of the game page *)

Section game.
Import Nx Py Game.
Implicit Types (G : DiGraph) (st : session_state) (n m u v : Z).

Lemma successors_remove_node n (G : list (Z * list Z)) m :
  successors ((λ p : Z * list Z, (p.1, filter (λ w, w ≠ n) p.2))
                <$> filter (λ p : Z * list Z, p.1 ≠ n) G) m
  = if decide (m = n) then None else filter (λ w, w ≠ n) <$> successors G m.
Proof.
  induction G as [|[k ss] G IH]; [by case_decide|].
  rewrite filter_cons. simpl. destruct (decide (k ≠ n)) as [Hk|Hk].
  - rewrite fmap_cons. simpl. destruct (decide (k = m)) as [->|Hkm].
    + by rewrite decide_False.
    + exact IH.
  - rewrite IH. destruct (decide (k = m)) as [->|Hkm]; [|done].
    rewrite !decide_True; [done|by destruct (decide (m = n))..].
Qed.

Lemma nodes_remove_node n (G : list (Z * list Z)) :
  nodes ((λ p : Z * list Z, (p.1, filter (λ w, w ≠ n) p.2))
           <$> filter (λ p : Z * list Z, p.1 ≠ n) G)
  = filter (λ m, m ≠ n) (nodes G).
Proof.
  unfold nodes. induction G as [|[k ss] G IH]; [done|].
  rewrite fmap_cons, !filter_cons. simpl.
  destruct (decide (k ≠ n)); [|done]. rewrite !fmap_cons. simpl. by rewrite IH.
Qed.

Lemma remove_node_None n G : remove_node n G = None ↔ n ∉ nodes G.
Proof.
  unfold remove_node, has_node. case_bool_decide; split; done.
Qed.

Lemma remove_node_spec n G G' :
  remove_node n G = Some G' →
  n ∈ nodes G
  ∧ nodes G' = filter (λ m, m ≠ n) (nodes G)
  ∧ (∀ a b, has_edge G' a b ↔ has_edge G a b ∧ a ≠ n ∧ b ≠ n)
  ∧ (wf G → wf G').
Proof.
  unfold remove_node, has_node. case_bool_decide as Hn; [|done].
  intros [= <-]. split; [done|]. split; [apply nodes_remove_node|].
  assert (∀ a b,
            has_edge ((λ p : Z * list Z, (p.1, filter (λ w, w ≠ n) p.2))
                        <$> filter (λ p : Z * list Z, p.1 ≠ n) G) a b
            ↔ has_edge G a b ∧ a ≠ n ∧ b ≠ n) as Hedge.
  { intros a b. unfold has_edge. setoid_rewrite successors_remove_node.
    destruct (decide (a = n)) as [->|Ha]; [naive_solver|].
    destruct (successors G a) as [ss|]; simpl; [|naive_solver].
    split.
    - intros (ss' & [= <-] & [Hb Hin]%list_elem_of_filter). eauto.
    - intros ((ss' & [= <-] & Hin) & _ & Hb). eexists. split; [done|].
      by apply list_elem_of_filter. }
  split; [exact Hedge|].
  intros [Hnd Hsucc]. split.
  - rewrite nodes_remove_node. by apply NoDup_filter.
  - intros m ss' Hm. rewrite successors_remove_node in Hm.
    destruct (decide (m = n)); [done|].
    destruct (successors G m) as [ss|] eqn:Hs; simpl in Hm; [|done].
    injection Hm as <-. destruct (Hsucc m ss Hs) as [Hnds Hin].
    split; [by apply NoDup_filter|].
    intros w [Hw Hws]%list_elem_of_filter. rewrite nodes_remove_node.
    apply list_elem_of_filter. split; [done|by apply Hin].
Qed.

Lemma nodes_unlink u v G : nodes (unlink u v G) = nodes G.
Proof.
  unfold nodes. induction G as [|[k ss] G IH]; simpl; [done|].
  case_decide; simpl; [done|]. f_equal. apply IH.
Qed.

Lemma successors_unlink u v G m :
  successors (unlink u v G) m
  = if decide (m = u) then filter (λ w, w ≠ v) <$> successors G u
    else successors G m.
Proof.
  induction G as [|[k ss] G IH]; simpl; [by case_decide|].
  destruct (decide (k = u)) as [->|Hku]; simpl.
  - destruct (decide (u = m)) as [<-|Hum].
    + by rewrite decide_True.
    + rewrite decide_False; [done|]. by intros ->.
  - destruct (decide (k = m)) as [->|Hkm].
    + by rewrite decide_False.
    + exact IH.
Qed.

Lemma remove_edge_None u v G : remove_edge u v G = None ↔ ¬ has_edge G u v.
Proof.
  unfold remove_edge, has_edge.
  destruct (successors G u) as [ss|]; [|naive_solver].
  case_bool_decide; naive_solver.
Qed.

Lemma remove_edge_spec u v G G' :
  remove_edge u v G = Some G' →
  has_edge G u v
  ∧ nodes G' = nodes G
  ∧ (∀ a b, has_edge G' a b ↔ has_edge G a b ∧ (a, b) ≠ (u, v))
  ∧ (wf G → wf G').
Proof.
  unfold remove_edge. destruct (successors G u) as [ss|] eqn:Hu; [|done].
  case_bool_decide as Hv; [|done]. intros [= <-].
  split; [by exists ss|]. split; [apply nodes_unlink|].
  split.
  - intros a b. unfold has_edge. setoid_rewrite successors_unlink.
    destruct (decide (a = u)) as [->|Ha].
    + rewrite Hu. simpl. split.
      * intros (ss' & [= <-] & [Hb Hin]%list_elem_of_filter).
        split; [eauto|congruence].
      * intros ((ss' & [= <-] & Hin) & Hne). eexists. split; [done|].
        apply list_elem_of_filter. split; [congruence|done].
    + split; [intros H; split; [done|congruence]|by intros [? _]].
  - intros [Hnd Hsucc]. split; [by rewrite nodes_unlink|].
    intros m ss' Hm. rewrite successors_unlink in Hm. rewrite nodes_unlink.
    destruct (decide (m = u)) as [->|Hmu].
    + rewrite Hu in Hm. simpl in Hm. injection Hm as <-.
      destruct (Hsucc u ss Hu) as [Hnds Hin].
      split; [by apply NoDup_filter|].
      intros w [_ Hw]%list_elem_of_filter. by apply Hin.
    + by apply (Hsucc m).
Qed.

Lemma loop_free_add_edge (e : Z * Z) G :
  e.1 ≠ e.2 → loop_free G → loop_free (add_edge e G).
Proof.
  intros He HG a Ha. apply has_edge_add_edge in Ha as [Ha|Ha].
  - by apply (HG a).
  - destruct e. simpl in *. congruence.
Qed.

Lemma loop_free_add_node n G : loop_free G → loop_free (add_node n G).
Proof. intros HG a Ha. apply has_edge_add_node in Ha. by apply (HG a). Qed.

Lemma random_loop_graph (draws : nat → Q) (ps : list (Z * Z)) (k : nat) G :
  (∀ p, p ∈ ps → p.1 ≠ p.2) → wf G → loop_free G →
  wf (foldl (random_step draws) (k, G) ps).2
  ∧ loop_free (foldl (random_step draws) (k, G) ps).2.
Proof.
  revert k G. induction ps as [|[i j] ps IH]; intros k G Hne HG Hl; [done|].
  assert (i ≠ j) as Hij by (apply (Hne (i, j)); left).
  assert (∀ p, p ∈ ps → p.1 ≠ p.2) as Hne' by (intros p Hp; apply Hne; by right).
  change (foldl (random_step draws) (k, G) ((i, j) :: ps))
    with (foldl (random_step draws) (random_step draws (k, G) (i, j)) ps).
  unfold random_step at 2 4. simpl.
  destruct (negb (Qle_bool (3 # 10) (draws k)));
    [destruct (negb (Qle_bool (5 # 10) (draws (S k))))|].
  - apply IH; [done|by apply wf_add_edge|by apply loop_free_add_edge].
  - apply IH; [done|by apply wf_add_edge|].
    apply loop_free_add_edge; [simpl; congruence|done].
  - by apply IH.
Qed.

Lemma random_graph_simple (draws : nat → Q) :
  wf (random_graph draws) ∧ loop_free (random_graph draws).
Proof.
  apply random_loop_graph.
  - intros p Hp. apply pairs_6 in Hp. lia.
  - apply wf_add_nodes_from, wf_empty.
  - intros a Ha. apply has_edge_add_nodes_from in Ha. by apply has_edge_empty in Ha.
Qed.

Lemma foldl_max_ge (ns : list Z) n :
  n ≤ foldl Z.max n ns ∧ ∀ m, m ∈ ns → m ≤ foldl Z.max n ns.
Proof.
  revert n. induction ns as [|k ns IH]; intros n; simpl.
  - split; [lia|]. intros m Hm. by apply elem_of_nil in Hm.
  - destruct (IH (Z.max n k)) as [H1 H2]. split; [lia|].
    intros m [->|Hm]%elem_of_cons; [lia|by apply H2].
Qed.

Lemma new_node_fresh G : new_node G ∉ nodes G.
Proof.
  unfold new_node. destruct (nodes G) as [|n ns]; [apply not_elem_of_nil|].
  destruct (foldl_max_ge ns n) as [H1 H2].
  intros [Hn|Hn]%elem_of_cons; [lia|]. apply H2 in Hn. lia.
Qed.

(** The status check never fails on a graph, and only ever sets
    [game_won]. *)
Lemma game_status_spec st :
  wf (graph st) →
  ∃ st', game_status st = Some st'
         ∧ graph st' = graph st ∧ game_mode st' = game_mode st
         ∧ moves_count st' = moves_count st
         ∧ (game_won st' = true ↔
            game_won st = true
            ∨ (game_mode st = true
               ∧ filter (λ v, flagged (graph st) v = true) (nodes (graph st)) = []
               ∧ nodes (graph st) ≠ [])).
Proof.
  intros HG. unfold game_status. rewrite (get_seymour_vertices_spec _ HG). simpl.
  eexists. split; [done|].
  destruct (game_mode st) eqn:Hm; simpl; [|split_and!; try done; naive_solver].
  case_bool_decide as H0; simpl; [case_bool_decide as H1; simpl|].
  - split_and!; try done. split; [intros _|done]. right.
    split_and!; [done| |].
    + by destruct (filter _ _).
    + intros E. rewrite E in H1. simpl in H1. lia.
  - split_and!; try done. split; [by left|]. intros [?|(_ & _ & Hne)]; [done|].
    exfalso. apply H1. destruct (nodes (graph st)); [done|simpl; lia].
  - split_and!; try done. split; [by left|]. intros [?|(_ & Hf & _)]; [done|].
    by rewrite Hf in H0.
Qed.

Lemma count_move_graph st :
  graph (count_move st) = graph st ∧ game_won (count_move st) = game_won st
  ∧ game_mode (count_move st) = game_mode st.
Proof. unfold count_move. destruct (game_mode st) eqn:E; simpl; by rewrite ?E. Qed.

Lemma control_spec st (c : Control) :
  wf (graph st) → loop_free (graph st) →
  (is_Some (control c st) ↔ enabled st c)
  ∧ ∀ st', control c st = Some st' → wf (graph st') ∧ loop_free (graph st').
Proof.
  intros HG Hl. destruct c as [b| | |draws| |n|u v|u v]; simpl.
  - split; [done|]. by intros st' [= <-].
  - split; [by destruct (game_mode st)|].
    intros st'. destruct (game_mode st); by intros [= <-].
  - split; [done|]. intros st' [= <-]. rewrite (proj1 (count_move_graph _)).
    simpl. split; [by apply wf_add_node|by apply loop_free_add_node].
  - split; [done|]. intros st' [= <-]. rewrite (proj1 (count_move_graph _)).
    simpl. apply random_graph_simple.
  - split; [done|]. intros st' [= <-]. rewrite (proj1 (count_move_graph _)).
    simpl. split; [apply wf_empty|]. intros a Ha. by apply has_edge_empty in Ha.
  - destruct (remove_node n (graph st)) as [G'|] eqn:Hr; simpl.
    + destruct (remove_node_spec _ _ _ Hr) as (Hn & _ & Hedge & Hwf).
      split; [done|]. intros st' [= <-]. rewrite (proj1 (count_move_graph _)).
      simpl. split; [by apply Hwf|]. intros a Ha. apply Hedge in Ha as [Ha _].
      by apply (Hl a).
    + apply remove_node_None in Hr. split; [|done].
      split; [by intros [? ?]|done].
  - case_decide as Huv.
    + split; [done|]. intros st' [= <-]. rewrite (proj1 (count_move_graph _)).
      simpl. split; [by apply wf_add_edge|by apply loop_free_add_edge].
    + split; [done|]. by intros st' [= <-].
  - destruct (remove_edge u v (graph st)) as [G'|] eqn:Hr; simpl.
    + destruct (remove_edge_spec _ _ _ _ Hr) as (He & _ & Hedge & Hwf).
      split; [done|]. intros st' [= <-]. rewrite (proj1 (count_move_graph _)).
      simpl. split; [by apply Hwf|]. intros a Ha. apply Hedge in Ha as [Ha _].
      by apply (Hl a).
    + apply remove_edge_None in Hr. split; [|done].
      split; [by intros [? ?]|done].
Qed.

Lemma step_spec st (c : Control) :
  wf (graph st) → loop_free (graph st) →
  (is_Some (step st c) ↔ enabled st c)
  ∧ ∀ st', step st c = Some st' → wf (graph st') ∧ loop_free (graph st').
Proof.
  intros HG Hl. destruct (control_spec st c HG Hl) as [Hen Hinv].
  unfold step. destruct (control c st) as [st1|] eqn:Hc; simpl.
  - destruct (Hinv st1 eq_refl) as [HG1 Hl1].
    destruct (game_status_spec st1 HG1) as (st2 & Hs & Hg & _).
    rewrite Hs. split.
    + rewrite <- Hen. split; eauto.
    + intros st' [= <-]. by rewrite Hg.
  - split; [|done]. rewrite <- Hen. split; by intros [? ?].
Qed.

Lemma run_None (cs : list Control) :
  foldl (λ acc c, st ← acc; step st c) None cs = None.
Proof. induction cs; [done|]. simpl. exact IHcs. Qed.

(** X17. The controls of the game page keep the graph a simple
    loop-free digraph.  From a well-formed graph without self-loops, a
    control fails (with networkx's error) exactly when it is the
    deletion of a vertex or of an edge that is not in the graph; and
    after every sequence of controls that ran through (game mode on or
    off, reset, add vertex, random graph, clear, delete vertex, add
    edge, delete edge), each followed by the status check, the graph is
    well formed again (distinct vertices, no repeated edge, every edge
    between vertices of the graph) and has no self-loop. *)
Theorem controls_keep_graph_simple st :
  wf (graph st) → loop_free (graph st) →
  (∀ c, is_Some (step st c) ↔ enabled st c)
  ∧ (∀ cs st', run cs st = Some st' → wf (graph st') ∧ loop_free (graph st')).
Proof.
  intros HG Hl. split; [intros c; by apply step_spec|].
  intros cs. revert st HG Hl. induction cs as [|c cs IH]; intros st HG Hl st'.
  - by intros [= <-].
  - unfold run. simpl. destruct (step st c) as [st1|] eqn:Hs.
    + destruct (proj2 (step_spec st c HG Hl) st1 Hs) as [HG1 Hl1].
      by apply IH.
    + by rewrite run_None.
Qed.

Lemma controls_keep_graph_simple_witness :
  (∀ c, is_Some (step initial c) ↔ enabled initial c)
  ∧ (∀ cs st', run cs initial = Some st' →
               wf (graph st') ∧ loop_free (graph st')).
Proof.
  apply (controls_keep_graph_simple initial).
  - apply wf_add_edges_from, wf_empty.
  - intros a Ha. apply has_edge_add_edges_from in Ha as [Ha|Ha].
    + by apply has_edge_empty in Ha.
    + repeat (apply elem_of_cons in Ha as [Ha|Ha]; [by simplify_eq|]).
      by apply elem_of_nil in Ha.
Defined.

Lemma flagged_new_node G :
  wf G → flagged (add_node (new_node G) G) (new_node G) = true.
Proof.
  intros HG.
  assert (new_node G ∈ nodes (add_node (new_node G) G)) as Hin
    by (apply elem_nodes_add_node; by left).
  destruct (analyze_vertex_spec _ _ (wf_add_node (new_node G) G HG) Hin)
    as (a & Ha & Hfirst & _ & _ & _ & Hsat & _).
  unfold flagged. rewrite Ha, Hsat. apply bool_decide_eq_true.
  assert (first_neighbors a = ∅) as ->; [|rewrite size_empty; lia].
  apply set_eq. intros w. rewrite Hfirst, has_edge_add_node. split; [|set_solver].
  intros Hw. apply has_edge_node_l in Hw. by apply new_node_fresh in Hw.
Qed.

(** X18. The add-vertex button never wins the game.  On a well-formed
    graph the button adds one vertex, numbered one above the highest
    vertex ([0] on the empty graph), so not yet in the graph, last in
    the vertex order, and touches no edge; the new vertex has no
    out-neighbour and is therefore flagged, so the status check that
    follows leaves [game_won] as it was; the move counter goes up by
    one in game mode only. *)
Theorem add_node_never_wins st :
  wf (graph st) →
  ∃ st', step st AddNode = Some st'
         ∧ nodes (graph st') = nodes (graph st) ++ [new_node (graph st)]
         ∧ (new_node (graph st) ∉ nodes (graph st))
         ∧ (∀ a b, has_edge (graph st') a b ↔ has_edge (graph st) a b)
         ∧ flagged (graph st') (new_node (graph st)) = true
         ∧ game_won st' = game_won st
         ∧ moves_count st'
           = (if game_mode st then moves_count st + 1 else moves_count st).
Proof.
  intros HG. unfold step. simpl.
  set (G' := add_node (new_node (graph st)) (graph st)).
  set (st1 := count_move (set_graph G' st)).
  assert (graph st1 = G' ∧ game_won st1 = game_won st
          ∧ game_mode st1 = game_mode st
          ∧ moves_count st1
            = (if game_mode st then moves_count st + 1 else moves_count st))
    as (Hg1 & Hw1 & Hm1 & Hc1).
  { unfold st1, count_move, set_graph. simpl. by destruct (game_mode st). }
  assert (wf G') as HG' by (by apply wf_add_node).
  pose proof (new_node_fresh (graph st)) as Hfresh.
  assert (nodes G' = nodes (graph st) ++ [new_node (graph st)]) as Hnodes.
  { unfold G'. rewrite nodes_add_node. by rewrite decide_False. }
  pose proof (flagged_new_node (graph st) HG) as Hflag. fold G' in Hflag.
  destruct (game_status_spec st1) as (st2 & Hs & Hg2 & _ & Hc2 & Hw2);
    [by rewrite Hg1|].
  rewrite Hs. exists st2. rewrite Hg2, Hg1. split_and!; try done.
  - intros a b. unfold G'. apply has_edge_add_node.
  - rewrite Hg1 in Hw2. destruct (game_won st2) eqn:E2.
    + destruct (proj1 Hw2 eq_refl) as [Hold|(_ & Hnil & _)]; [congruence|].
      exfalso.
      assert (new_node (graph st)
                ∈ filter (λ v, flagged G' v = true) (nodes G')) as Hin.
      { apply list_elem_of_filter. split; [done|].
        rewrite Hnodes. apply elem_of_app. right. left. }
      rewrite Hnil in Hin. by apply elem_of_nil in Hin.
    + destruct (game_won st) eqn:E; [|done].
      rewrite <- Hw1 in E. assert (false = true); [|done].
      apply Hw2. by left.
  - by rewrite Hc2.
Qed.

Lemma add_node_never_wins_witness :
  ∃ st', step initial AddNode = Some st'
         ∧ nodes (graph st') = nodes (graph initial) ++ [new_node (graph initial)]
         ∧ (new_node (graph initial) ∉ nodes (graph initial))
         ∧ (∀ a b, has_edge (graph st') a b ↔ has_edge (graph initial) a b)
         ∧ flagged (graph st') (new_node (graph initial)) = true
         ∧ game_won st' = game_won initial
         ∧ moves_count st'
           = (if game_mode initial
              then moves_count initial + 1 else moves_count initial).
Proof.
  apply (add_node_never_wins initial).
  apply wf_add_edges_from, wf_empty.
Defined.

End game.
